(** * The driver dashboard of usnms: ride-request synchronisation

    Shallow embedding of [src/pages/Driver.tsx]: the helpers
    [validateStatus] and [processRideRequests], the load operation
    [loadRideRequests] and the action operation [handleRideAction],
    together with the parts of the JavaScript platform they run on
    (values, [JSON.stringify], [JSON.parse], [localStorage], the clock)
    and the interface of the hosted store they call.

    The component is written in a monad of state and exceptions over a
    [World]: the React state, the session, the local cache, the hosted
    store, the clock, and what was written to the console, shown as a
    confirmation or sent to the store. The hosted store is any
    implementation of the interface [Supabase]; [hosted] is a table
    with scripted failures, used where a statement speaks of rows. *)

From Stdlib Require Import NArith ZArith Ascii String List Lia.
From stdpp Require Import base tactics option list numbers gmap.

Local Open Scope N_scope.
Set Warnings "-register-all".

(** ** JavaScript strings

    A JavaScript string is a sequence of UTF-16 code units. *)

Definition jsstring : Type := list N.

(** A string literal of the source, code unit by code unit. *)
Definition js (s : string) : jsstring :=
  map N_of_ascii (list_ascii_of_string s).

Arguments js : simpl never.

(** JSON text written with ['] where the text has a double quote. *)
Definition jsontext (s : string) : jsstring :=
  map (fun c => if c =? 39 then 34 else c) (js s).

Definition jseqb (s t : jsstring) : bool := bool_decide (s = t).

(** [sep.join(parts)] *)
Fixpoint join (sep : jsstring) (parts : list jsstring) : jsstring :=
  match parts with
  | [] => []
  | [p] => p
  | p :: ps => p ++ sep ++ join sep ps
  end.

(** [s.split(sep)[0]] for a one-unit separator: the part of [s] before
    the first [sep], the whole of [s] when there is none. *)
Fixpoint split_first (sep : N) (s : jsstring) : jsstring :=
  match s with
  | [] => []
  | c :: r => if c =? sep then [] else c :: split_first sep r
  end.

(** ** Completions

    What a JavaScript evaluation ends in: a value, or a thrown
    exception. [Rejected] is whatever a call into the hosted store
    throws. *)

Inductive Exn : Type :=
| SyntaxError
| TypeError
| Rejected (reason : jsstring).

Inductive Completion (A : Type) : Type :=
| Normal (a : A)
| Throw (e : Exn).
Arguments Normal {A} a.
Arguments Throw {A} e.

(** ** The platform

    What the page takes from its host and this development does not
    look into: IEEE doubles (only their JSON literal syntax is read
    here), and the locale- and zone-dependent formatting of dates. A
    time value is a number of milliseconds since the epoch; [None] is
    the time value of an invalid [Date]. *)

Class Platform := {
  Num : Type;
  (** the double denoted by a JSON number literal *)
  num_of_literal : jsstring -> Num;
  (** [JSON.stringify] of a number *)
  num_to_json : Num -> jsstring;
  (** neither zero nor NaN *)
  num_truthy : Num -> bool;
  (** the time value of [new Date(s)] *)
  Date_parse : jsstring -> option Z;
  toLocaleDateString : option Z -> jsstring;
  toLocaleTimeString : option Z -> jsstring;
  toISOString : Z -> jsstring
}.

(** A platform to run examples on: numbers are kept as the integer
    their leading digits spell, dates print as their time value. *)

Fixpoint digits_value (acc : N) (s : jsstring) : N :=
  match s with
  | [] => acc
  | c :: r =>
      if (48 <=? c) && (c <=? 57) then digits_value (10 * acc + (c - 48)) r
      else acc
  end.

Fixpoint N_digits (fuel : nat) (n : N) (acc : jsstring) : jsstring :=
  match fuel with
  | O => acc
  | S fuel' =>
      let acc' := (48 + n mod 10) :: acc in
      if n <? 10 then acc' else N_digits fuel' (n / 10) acc'
  end.

Definition N_to_js (n : N) : jsstring := N_digits (S (N.to_nat n)) n [].

Definition Z_to_js (z : Z) : jsstring :=
  match z with
  | Zneg p => 45 :: N_to_js (Npos p)
  | _ => N_to_js (Z.to_N z)
  end.

Definition time_to_js (t : option Z) : jsstring :=
  match t with
  | Some z => Z_to_js z
  | None => js "Invalid Date"
  end.

Definition demo_platform : Platform := {|
  Num := N;
  num_of_literal := digits_value 0;
  num_to_json := N_to_js;
  num_truthy := fun n => negb (n =? 0);
  Date_parse := fun s => Some (Z.of_N (digits_value 0 s));
  toLocaleDateString := fun t => js "D" ++ time_to_js t;
  toLocaleTimeString := fun t => js "T" ++ time_to_js t;
  toISOString := fun z => js "I" ++ Z_to_js z
|}.

(** ** JavaScript values *)

Section Model.
Context `{P : Platform}.

Inductive JsValue : Type :=
| JUndefined
| JNull
| JBool (b : bool)
| JNumber (n : Num)
| JString (s : jsstring)
| JArray (elems : list JsValue)
| JObject (props : list (jsstring * JsValue)).

(** ToBoolean, the test behind [||], [!] and [if]. *)
Definition truthy (v : JsValue) : bool :=
  match v with
  | JUndefined | JNull => false
  | JBool b => b
  | JNumber n => num_truthy n
  | JString s => negb (jseqb s [])
  | JArray _ | JObject _ => true
  end.

(** [v === "lit"] for a string literal. *)
Definition strict_eq_str (v : JsValue) (lit : jsstring) : bool :=
  match v with
  | JString s => jseqb s lit
  | _ => false
  end.

Fixpoint assoc (k : jsstring) (props : list (jsstring * JsValue)) : option JsValue :=
  match props with
  | [] => None
  | (k', v) :: rest => if jseqb k' k then Some v else assoc k rest
  end.

(** [obj[k] = v] on the own properties: an existing property keeps its
    place, a new one goes last. (The engine lists integer-like keys
    first; the page reads properties by name only, and the statements
    on the written text are about objects without such keys.) *)
Fixpoint obj_set (k : jsstring) (v : JsValue) (props : list (jsstring * JsValue))
  : list (jsstring * JsValue) :=
  match props with
  | [] => [(k, v)]
  | (k', v') :: rest =>
      if jseqb k' k then (k', v) :: rest else (k', v') :: obj_set k v rest
  end.

(** ** JSON.stringify

    [json_text v] is [None] where SerializeJSONProperty yields
    undefined: the property is left out of an object, and an array
    writes [null] in its place. *)

Definition hex_digit (d : N) : N := if d <? 10 then 48 + d else 87 + d.

(** [\uXXXX], four lower-case hex digits. *)
Definition unicode_escape (c : N) : jsstring :=
  [92; 117; hex_digit (c / 4096 mod 16); hex_digit (c / 256 mod 16);
   hex_digit (c / 16 mod 16); hex_digit (c mod 16)].

Definition is_high_surrogate (c : N) : bool := (55296 <=? c) && (c <=? 56319).
Definition is_low_surrogate (c : N) : bool := (56320 <=? c) && (c <=? 57343).

(** One code unit of a string that is not half of a surrogate pair. *)
Definition quote_unit (c : N) : jsstring :=
  if c =? 34 then [92; 34]
  else if c =? 92 then [92; 92]
  else if c =? 8 then [92; 98]
  else if c =? 9 then [92; 116]
  else if c =? 10 then [92; 110]
  else if c =? 12 then [92; 102]
  else if c =? 13 then [92; 114]
  else if c <? 32 then unicode_escape c
  else if is_high_surrogate c || is_low_surrogate c then unicode_escape c
  else [c].

Fixpoint quote_units (s : jsstring) : jsstring :=
  match s with
  | [] => []
  | c :: r =>
      match r with
      | d :: r' =>
          if is_high_surrogate c && is_low_surrogate d
          then c :: d :: quote_units r'
          else quote_unit c ++ quote_units r
      | [] => quote_unit c
      end
  end.

(** QuoteJSONString *)
Definition quote (s : jsstring) : jsstring := 34 :: quote_units s ++ [34].

Fixpoint json_text (v : JsValue) : option jsstring :=
  match v with
  | JUndefined => None
  | JNull => Some (js "null")
  | JBool true => Some (js "true")
  | JBool false => Some (js "false")
  | JNumber n => Some (num_to_json n)
  | JString s => Some (quote s)
  | JArray elems =>
      Some (91 :: join [44] (map (fun e => default (js "null") (json_text e)) elems)
              ++ [93])
  | JObject props =>
      Some (123 :: join [44]
                     (omap (fun kv => (fun t => quote kv.1 ++ 58 :: t) <$> json_text kv.2)
                           props)
              ++ [125])
  end.

(** [JSON.stringify(v)] where [v] is an array or an object, as it is
    at the one place the page calls it. *)
Definition JSON_stringify (v : JsValue) : jsstring :=
  default (js "undefined") (json_text v).

(** ** JSON.parse

    A recursive-descent reader of the JSON grammar. [fuel] bounds the
    number of nested and consecutive values; every value takes at
    least one code unit, so [S (length s)] is enough for [s]. *)

Definition is_ws (c : N) : bool :=
  (c =? 32) || (c =? 9) || (c =? 10) || (c =? 13).

Fixpoint skip_ws (s : jsstring) : jsstring :=
  match s with
  | c :: r => if is_ws c then skip_ws r else s
  | [] => []
  end.

Definition is_digit (c : N) : bool := (48 <=? c) && (c <=? 57).

Definition hex_value (c : N) : option N :=
  if is_digit c then Some (c - 48)
  else if (97 <=? c) && (c <=? 102) then Some (c - 87)
  else if (65 <=? c) && (c <=? 70) then Some (c - 55)
  else None.

Definition hex4 (a b c d : N) : option N :=
  match hex_value a, hex_value b, hex_value c, hex_value d with
  | Some x, Some y, Some z, Some w => Some (((x * 16 + y) * 16 + z) * 16 + w)
  | _, _, _, _ => None
  end.

(** The characters of a string literal after its opening quote, up to
    and including the closing one. *)
Fixpoint parse_chars (s : jsstring) : option (jsstring * jsstring) :=
  match s with
  | [] => None
  | c :: r =>
      if c =? 34 then Some ([], r)
      else if c =? 92 then
        match r with
        | [] => None
        | e :: r1 =>
            let plain (u : N) :=
              match parse_chars r1 with
              | Some (t, rest) => Some (u :: t, rest)
              | None => None
              end in
            if (e =? 34) || (e =? 92) || (e =? 47) then plain e
            else if e =? 98 then plain 8
            else if e =? 102 then plain 12
            else if e =? 110 then plain 10
            else if e =? 114 then plain 13
            else if e =? 116 then plain 9
            else if e =? 117 then
              match r1 with
              | h1 :: h2 :: h3 :: h4 :: r2 =>
                  match hex4 h1 h2 h3 h4, parse_chars r2 with
                  | Some u, Some (t, rest) => Some (u :: t, rest)
                  | _, _ => None
                  end
              | _ => None
              end
            else None
        end
      else if c <? 32 then None
      else
        match parse_chars r with
        | Some (t, rest) => Some (c :: t, rest)
        | None => None
        end
  end.

Fixpoint span_digits (s : jsstring) : jsstring * jsstring :=
  match s with
  | c :: r =>
      if is_digit c then let '(ds, rest) := span_digits r in (c :: ds, rest)
      else ([], s)
  | [] => ([], [])
  end.

(** The longest prefix of [s] that is a JSON number, and what follows. *)
Definition lex_number (s : jsstring) : option (jsstring * jsstring) :=
  let '(sign, s1) :=
    match s with
    | c :: r => if c =? 45 then ([45], r) else ([], s)
    | [] => ([], s)
    end in
  match s1 with
  | [] => None
  | c :: r =>
      if negb (is_digit c) then None
      else
        let '(int, s2) :=
          if c =? 48 then ([c], r)
          else let '(ds, rest) := span_digits r in (c :: ds, rest) in
        let frac :=
          match s2 with
          | d :: r2 =>
              if d =? 46 then
                let '(ds, rest) := span_digits r2 in
                match ds with [] => None | _ => Some (d :: ds, rest) end
              else Some ([], s2)
          | [] => Some ([], s2)
          end in
        match frac with
        | None => None
        | Some (fr, s3) =>
            let exp :=
              match s3 with
              | e :: r3 =>
                  if (e =? 101) || (e =? 69) then
                    let '(sg, r4) :=
                      match r3 with
                      | g :: r' => if (g =? 43) || (g =? 45) then ([g], r') else ([], r3)
                      | [] => ([], r3)
                      end in
                    let '(ds, rest) := span_digits r4 in
                    match ds with [] => None | _ => Some (e :: sg ++ ds, rest) end
                  else Some ([], s3)
              | [] => Some ([], s3)
              end in
            match exp with
            | None => None
            | Some (ex, s4) => Some (sign ++ int ++ fr ++ ex, s4)
            end
        end
  end.

Fixpoint strip_prefix (p s : jsstring) : option jsstring :=
  match p, s with
  | [], _ => Some s
  | a :: p', b :: s' => if a =? b then strip_prefix p' s' else None
  | _ :: _, [] => None
  end.

(** The object a member list denotes: a repeated key keeps its first
    place and takes its last value. *)
Definition object_of (members : list (jsstring * JsValue)) : JsValue :=
  JObject (fold_left (fun acc kv => obj_set kv.1 kv.2 acc) members []).

Fixpoint parse_value (fuel : nat) (s : jsstring) : option (JsValue * jsstring) :=
  match fuel with
  | O => None
  | S fuel' =>
      match skip_ws s with
      | [] => None
      | c :: r =>
          if c =? 34 then
            match parse_chars r with
            | Some (t, rest) => Some (JString t, rest)
            | None => None
            end
          else if c =? 91 then
            match skip_ws r with
            | d :: r' =>
                if d =? 93 then Some (JArray [], r')
                else
                  match parse_elements fuel' r with
                  | Some (vs, rest) => Some (JArray vs, rest)
                  | None => None
                  end
            | [] => None
            end
          else if c =? 123 then
            match skip_ws r with
            | d :: r' =>
                if d =? 125 then Some (JObject [], r')
                else
                  match parse_members fuel' r with
                  | Some (ms, rest) => Some (object_of ms, rest)
                  | None => None
                  end
            | [] => None
            end
          else if c =? 110 then
            match strip_prefix (js "ull") r with
            | Some rest => Some (JNull, rest)
            | None => None
            end
          else if c =? 116 then
            match strip_prefix (js "rue") r with
            | Some rest => Some (JBool true, rest)
            | None => None
            end
          else if c =? 102 then
            match strip_prefix (js "alse") r with
            | Some rest => Some (JBool false, rest)
            | None => None
            end
          else
            match lex_number (c :: r) with
            | Some (lit, rest) => Some (JNumber (num_of_literal lit), rest)
            | None => None
            end
      end
  end
with parse_elements (fuel : nat) (s : jsstring) : option (list JsValue * jsstring) :=
  match fuel with
  | O => None
  | S fuel' =>
      match parse_value fuel' s with
      | None => None
      | Some (v, r) =>
          match skip_ws r with
          | d :: r' =>
              if d =? 44 then
                match parse_elements fuel' r' with
                | Some (vs, rest) => Some (v :: vs, rest)
                | None => None
                end
              else if d =? 93 then Some ([v], r')
              else None
          | [] => None
          end
      end
  end
with parse_members (fuel : nat) (s : jsstring)
  : option (list (jsstring * JsValue) * jsstring) :=
  match fuel with
  | O => None
  | S fuel' =>
      match skip_ws s with
      | q :: r0 =>
          if negb (q =? 34) then None
          else
            match parse_chars r0 with
            | None => None
            | Some (k, r1) =>
                match skip_ws r1 with
                | [] => None
                | colon :: r2 =>
                    if negb (colon =? 58) then None
                    else
                      match parse_value fuel' r2 with
                      | None => None
                      | Some (v, r3) =>
                          match skip_ws r3 with
                          | d :: r' =>
                              if d =? 44 then
                                match parse_members fuel' r' with
                                | Some (ms, rest) => Some ((k, v) :: ms, rest)
                                | None => None
                                end
                              else if d =? 125 then Some ([(k, v)], r')
                              else None
                          | [] => None
                          end
                      end
                end
            end
      | [] => None
      end
  end.

(** [JSON.parse(s)]: the value, or a SyntaxError. *)
Definition JSON_parse (s : jsstring) : Completion JsValue :=
  match parse_value (S (length s)) s with
  | Some (v, rest) =>
      match skip_ws rest with
      | [] => Normal v
      | _ :: _ => Throw SyntaxError
      end
  | None => Throw SyntaxError
  end.

(** A key made of digits: the engine may list it, as an array index,
    ahead of the keys created before it. *)
Definition integer_like (k : jsstring) : bool :=
  negb (jseqb k []) && forallb is_digit k.

(** The values that JSON writes as they are: built from [null],
    booleans and strings with arrays and with objects whose keys are
    distinct and not integer-like, so that the properties stand in
    the order of their creation. (A number goes through the platform,
    [undefined] is dropped.) *)
Inductive plain : JsValue -> Prop :=
| plain_null : plain JNull
| plain_bool b : plain (JBool b)
| plain_string s : plain (JString s)
| plain_array elems : Forall plain elems -> plain (JArray elems)
| plain_object props :
    Forall (fun kv => plain kv.2) props ->
    NoDup (map fst props) ->
    Forall (fun kv => integer_like kv.1 = false) props ->
    plain (JObject props).

(** What an array writes for its element [v]. *)
Definition text (v : JsValue) : jsstring := default (js "null") (json_text v).

(** What an object writes for its property [kv]. *)
Definition member_text (kv : jsstring * JsValue) : jsstring :=
  quote kv.1 ++ 58 :: text kv.2.

(** ** The data of the page *)

(** [interface LocalRideRequest]. The fields are declared as strings,
    but an entry built from the [any[]] of the local cache holds
    whatever the cache held, so each field is a value. Every entry the
    page builds has an own [additionalNotes] property (possibly
    [undefined]); [None] is an entry without that property, which the
    interface allows. *)
Record LocalRideRequest : Type := {
  id : JsValue;
  studentName : JsValue;
  studentEmail : JsValue;
  pickupLocation : JsValue;
  destination : JsValue;
  date : JsValue;
  time : JsValue;
  status : JsValue;
  disabilityType : JsValue;
  additionalNotes : option JsValue
}.

(** [{ ...request, status: newStatus }] *)
Definition with_status (request : LocalRideRequest) (newStatus : JsValue)
  : LocalRideRequest :=
  {| id := id request;
     studentName := studentName request;
     studentEmail := studentEmail request;
     pickupLocation := pickupLocation request;
     destination := destination request;
     date := date request;
     time := time request;
     status := newStatus;
     disabilityType := disabilityType request;
     additionalNotes := additionalNotes request |}.

(** The entry as the object it is, own properties in creation order. *)
Definition toJs (request : LocalRideRequest) : JsValue :=
  JObject
    ([ (js "id", id request);
       (js "studentName", studentName request);
       (js "studentEmail", studentEmail request);
       (js "pickupLocation", pickupLocation request);
       (js "destination", destination request);
       (js "date", date request);
       (js "time", time request);
       (js "status", status request);
       (js "disabilityType", disabilityType request) ]
     ++ match additionalNotes request with
        | Some notes => [ (js "additionalNotes", notes) ]
        | None => []
        end).

(** Modelled from the spec: a row of the hosted table [ride_requests],
    with the columns of section 6; the type of the rows is declared
    outside this file. [created_at] may be missing, as the [||] of the
    source provides for. *)
Record DbRow : Type := {
  db_id : jsstring;
  db_student_id : jsstring;
  db_driver_id : option jsstring;
  db_pickup_location : jsstring;
  db_destination : jsstring;
  db_status : jsstring;
  db_created_at : option jsstring;
  db_updated_at : jsstring
}.

(** The object [dbRequest] that the backfill inserts. *)
Record DbInsert : Type := {
  ins_id : JsValue;
  ins_student_id : jsstring;
  ins_driver_id : option jsstring;
  ins_pickup_location : JsValue;
  ins_destination : JsValue;
  ins_status : JsValue;
  ins_created_at : jsstring;
  ins_updated_at : jsstring
}.

(** The object passed to [.update(...)]. *)
Record DbUpdate : Type := {
  upd_status : jsstring;
  upd_driver_id : option jsstring;
  upd_updated_at : jsstring
}.

(** Modelled from the spec: the current user of [useAuth()], of whom
    the session provider gives the id, the names and the email. *)
Record User : Type := {
  user_id : jsstring;
  first_name : jsstring;
  last_name : jsstring;
  email : jsstring
}.

Inductive Action : Type := accept | decline | complete.

Definition action_name (action : Action) : jsstring :=
  match action with
  | accept => js "accept"
  | decline => js "decline"
  | complete => js "complete"
  end.

Record Toast : Type := { title : jsstring; description : jsstring }.

Inductive ConsoleEntry : Type :=
| ConsoleLog (message : jsstring) (rows : list DbRow)
| ConsoleError (message : jsstring) (thrown : Exn).

(** ** The hosted store, as the page sees it

    An awaited call either throws or resolves to [{ data, error }]. *)

Record Response (D : Type) : Type := { data : option D; error : option jsstring }.
Arguments data {D} _.
Arguments error {D} _.

Class Supabase (R : Type) : Type := {
  (** [from('ride_requests').select('*')] *)
  select_all : R -> Completion (Response (list DbRow)) * R;
  (** [from('ride_requests').select('id').eq('id', v).maybeSingle()] *)
  select_id : JsValue -> R -> Completion (Response jsstring) * R;
  (** [from('ride_requests').insert([row])] *)
  insert_row : DbInsert -> R -> Completion (Response unit) * R;
  (** [from('ride_requests').update(patch).eq('id', v)] *)
  update_by_id : DbUpdate -> jsstring -> R -> Completion (Response unit) * R
}.

(** The calls a run issues, for the record. *)
Inductive RemoteCall : Type :=
| CallSelectAll
| CallSelectId (v : JsValue)
| CallInsert (row : DbInsert)
| CallUpdate (patch : DbUpdate) (v : jsstring).

(** ** Helpers of the component *)

(** [status] is declared a string; [processRideRequests] passes it
    whatever the cache held, and [===] tells the three strings from
    everything else. *)
Definition validateStatus (status : JsValue) : JsValue :=
  if strict_eq_str status (js "accepted") then JString (js "accepted")
  else if strict_eq_str status (js "completed") then JString (js "completed")
  else if strict_eq_str status (js "declined") then JString (js "declined")
  else JString (js "pending").

(** [a || b] *)
Definition js_or (a b : JsValue) : JsValue := if truthy a then a else b.

(** [v.k] for the property names this page reads, none of which a
    built-in prototype defines. *)
Definition js_get (v : JsValue) (k : jsstring) : Completion JsValue :=
  match v with
  | JUndefined | JNull => Throw TypeError
  | JObject props => Normal (default JUndefined (assoc k props))
  | _ => Normal JUndefined
  end.

(** [request.status === "declined" ? "rejected" : request.status] *)
Definition statusToDb (status : JsValue) : JsValue :=
  if strict_eq_str status (js "declined") then JString (js "rejected") else status.

(** [action === "accept" ? "accepted" : action === "decline" ? "declined" : "completed"] *)
Definition newStatus (action : Action) : JsValue :=
  match action with
  | accept => JString (js "accepted")
  | decline => JString (js "declined")
  | complete => JString (js "completed")
  end.

(** [action === "decline" ? "rejected" : action === "accept" ? "accepted" : "completed"] *)
Definition statusForDb (action : Action) : jsstring :=
  match action with
  | decline => js "rejected"
  | accept => js "accepted"
  | complete => js "completed"
  end.

(** [user?.id || null] *)
Definition driver_id_of (user : option User) : option jsstring :=
  match user with
  | Some u => if jseqb (user_id u) [] then None else Some (user_id u)
  | None => None
  end.

Section Page.
Context {R : Type} `{SB : !Supabase R}.

(** ** The world the component runs in *)

Record World : Type := {
  (** the React state of [useState<LocalRideRequest[]>([])] *)
  rideRequests : list LocalRideRequest;
  (** [useAuth().user] *)
  user : option User;
  localStorage : gmap jsstring jsstring;
  (** the hosted store *)
  store : R;
  (** the readings of the clock, and how many of them were taken *)
  clock : nat -> Z;
  reads : nat;
  console : list ConsoleEntry;
  toasts : list Toast;
  (** the calls issued to the hosted store, oldest first *)
  calls : list RemoteCall
}.

Definition set_rideRequests (l : list LocalRideRequest) (w : World) : World :=
  {| rideRequests := l; user := user w; localStorage := localStorage w;
     store := store w; clock := clock w; reads := reads w;
     console := console w; toasts := toasts w; calls := calls w |}.

Definition set_localStorage (m : gmap jsstring jsstring) (w : World) : World :=
  {| rideRequests := rideRequests w; user := user w; localStorage := m;
     store := store w; clock := clock w; reads := reads w;
     console := console w; toasts := toasts w; calls := calls w |}.

Definition set_store (r : R) (w : World) : World :=
  {| rideRequests := rideRequests w; user := user w;
     localStorage := localStorage w; store := r; clock := clock w;
     reads := reads w; console := console w; toasts := toasts w;
     calls := calls w |}.

Definition set_reads (n : nat) (w : World) : World :=
  {| rideRequests := rideRequests w; user := user w;
     localStorage := localStorage w; store := store w; clock := clock w;
     reads := n; console := console w; toasts := toasts w; calls := calls w |}.

Definition set_console (c : list ConsoleEntry) (w : World) : World :=
  {| rideRequests := rideRequests w; user := user w;
     localStorage := localStorage w; store := store w; clock := clock w;
     reads := reads w; console := c; toasts := toasts w; calls := calls w |}.

Definition set_toasts (t : list Toast) (w : World) : World :=
  {| rideRequests := rideRequests w; user := user w;
     localStorage := localStorage w; store := store w; clock := clock w;
     reads := reads w; console := console w; toasts := t; calls := calls w |}.

Definition set_calls (c : list RemoteCall) (w : World) : World :=
  {| rideRequests := rideRequests w; user := user w;
     localStorage := localStorage w; store := store w; clock := clock w;
     reads := reads w; console := console w; toasts := toasts w; calls := c |}.

(** *** Evaluation: state and exceptions *)

Definition JS (A : Type) : Type := World -> Completion A * World.

Definition ret {A} (a : A) : JS A := fun w => (Normal a, w).

Definition throw {A} (e : Exn) : JS A := fun w => (Throw e, w).

Definition bind {A B} (m : JS A) (k : A -> JS B) : JS B :=
  fun w =>
    match m w with
    | (Normal a, w') => k a w'
    | (Throw e, w') => (Throw e, w')
    end.

(** [try { body } catch (e) { handler }] *)
Definition try_catch {A} (body : JS A) (handler : Exn -> JS A) : JS A :=
  fun w =>
    match body w with
    | (Normal a, w') => (Normal a, w')
    | (Throw e, w') => handler e w'
    end.

Definition lift {A} (c : Completion A) : JS A := fun w => (c, w).

Notation "x <- m ;; k" := (bind m (fun x => k))
  (at level 100, m at next level, right associativity).
Notation "m ;;; k" := (bind m (fun _ => k))
  (at level 100, right associativity).

Fixpoint mapM {A B} (f : A -> JS B) (l : list A) : JS (list B) :=
  match l with
  | [] => ret []
  | a :: l' => b <- f a ;; bs <- mapM f l' ;; ret (b :: bs)
  end.

(** [for (const a of l) { body }] *)
Fixpoint for_of {A} (l : list A) (body : A -> JS unit) : JS unit :=
  match l with
  | [] => ret tt
  | a :: l' => body a ;;; for_of l' body
  end.

(** *** What the component can do to the world *)

Definition setRideRequests (l : list LocalRideRequest) : JS unit :=
  fun w => (Normal tt, set_rideRequests l w).

Definition read_rideRequests : JS (list LocalRideRequest) :=
  fun w => (Normal (rideRequests w), w).

Definition read_user : JS (option User) := fun w => (Normal (user w), w).

Definition localStorage_getItem (k : jsstring) : JS (option jsstring) :=
  fun w => (Normal (localStorage w !! k), w).

Definition localStorage_setItem (k v : jsstring) : JS unit :=
  fun w => (Normal tt, set_localStorage (<[k := v]> (localStorage w)) w).

(** [Date.now()], and the time value of [new Date()] *)
Definition Date_now : JS Z :=
  fun w => (Normal (clock w (reads w)), set_reads (S (reads w)) w).

Definition console_write (entry : ConsoleEntry) : JS unit :=
  fun w => (Normal tt, set_console (console w ++ [entry]) w).

Definition toast (t : Toast) : JS unit :=
  fun w => (Normal tt, set_toasts (toasts w ++ [t]) w).

(** An awaited call into the hosted store. *)
Definition remote {D} (call : RemoteCall)
    (run : R -> Completion (Response D) * R) : JS (Response D) :=
  fun w =>
    let '(outcome, r') := run (store w) in
    (outcome, set_store r' (set_calls (calls w ++ [call]) w)).

(** *** The component *)

(** [request.k || fallback] *)
Definition field_or (request : JsValue) (k : jsstring) (fallback : JsValue)
  : JS JsValue :=
  v <- lift (js_get request k) ;;
  ret (js_or v fallback).

(** [request.k || new Date().format()] *)
Definition field_or_now (request : JsValue) (k : jsstring)
    (format : option Z -> jsstring) : JS JsValue :=
  v <- lift (js_get request k) ;;
  if truthy v then ret v
  else now <- Date_now ;; ret (JString (format (Some now))).

(** The callback of [storedRequests.map] in [processRideRequests]. *)
Definition processRideRequest (request : JsValue) : JS LocalRideRequest :=
  id' <- lift (js_get request (js "id")) ;;
  studentName' <- field_or request (js "studentName") (JString (js "Unknown")) ;;
  studentEmail' <- field_or request (js "studentEmail") (JString (js "unknown@email.com")) ;;
  pickupLocation' <- field_or request (js "pickupLocation") (JString []) ;;
  destination' <- field_or request (js "destination") (JString []) ;;
  date' <- field_or_now request (js "date") toLocaleDateString ;;
  time' <- field_or_now request (js "time") toLocaleTimeString ;;
  status' <- field_or request (js "status") (JString (js "pending")) ;;
  disabilityType' <- field_or request (js "disabilityType") (JString (js "Not specified")) ;;
  additionalNotes' <- lift (js_get request (js "additionalNotes")) ;;
  ret {| id := id';
         studentName := studentName';
         studentEmail := studentEmail';
         pickupLocation := pickupLocation';
         destination := destination';
         date := date';
         time := time';
         status := validateStatus status';
         disabilityType := disabilityType';
         additionalNotes := Some additionalNotes' |}.

(** [storedRequests.map(...)]: a TypeError unless [storedRequests] is
    an array. *)
Definition processRideRequests (storedRequests : JsValue)
  : JS (list LocalRideRequest) :=
  match storedRequests with
  | JArray entries => mapM processRideRequest entries
  | _ => throw TypeError
  end.

(** [new Date(dbReq.created_at || Date.now())] *)
Definition created_or_now (created_at : option jsstring) : JS (option Z) :=
  match created_at with
  | Some (c :: s) => ret (Date_parse (c :: s))
  | _ => now <- Date_now ;; ret (Some now)
  end.

(** The callback of [dbRequests.map] in [loadRideRequests]. *)
Definition formatDbRequest (dbReq : DbRow) : JS LocalRideRequest :=
  d <- created_or_now (db_created_at dbReq) ;;
  t <- created_or_now (db_created_at dbReq) ;;
  ret {| id := JString (db_id dbReq);
         studentName := JString (db_student_id dbReq);
         studentEmail := JString (db_student_id dbReq ++ js "@example.com");
         pickupLocation := JString (db_pickup_location dbReq);
         destination := JString (db_destination dbReq);
         date := JString (toLocaleDateString d);
         time := JString (toLocaleTimeString t);
         status := validateStatus (JString (db_status dbReq));
         disabilityType := JString (js "Not specified");
         additionalNotes := Some (JString (js "From database")) |}.

(** [!error && dbRequests && dbRequests.length > 0] *)
Definition has_rows (resp : Response (list DbRow)) : option (list DbRow) :=
  match error resp, data resp with
  | None, Some (row :: rows) => Some (row :: rows)
  | _, _ => None
  end.

(** [request.studentEmail.split('@')[0]]: a TypeError unless the value
    is a string. *)
Definition email_prefix (studentEmail : JsValue) : Completion jsstring :=
  match studentEmail with
  | JString s => Normal (split_first 64 s)
  | _ => Throw TypeError
  end.

(** The body of the [for (const request of typedRequests)] loop. *)
Definition syncRideRequest (request : LocalRideRequest) : JS unit :=
  existing <- remote (CallSelectId (id request)) (select_id (id request)) ;;
  match data existing with
  | Some _ => ret tt
  | None =>
      student_id <- lift (email_prefix (studentEmail request)) ;;
      created <- Date_now ;;
      updated <- Date_now ;;
      let dbRequest :=
        {| ins_id := id request;
           ins_student_id := student_id;
           ins_driver_id := None;
           ins_pickup_location := pickupLocation request;
           ins_destination := destination request;
           ins_status := statusToDb (status request);
           ins_created_at := toISOString created;
           ins_updated_at := toISOString updated |} in
      remote (CallInsert dbRequest) (insert_row dbRequest) ;;;
      ret tt
  end.

(** [true] when the [try] block of the load left the function through
    its [return]. *)
Definition loadFromSupabase : JS bool :=
  try_catch
    (resp <- remote CallSelectAll select_all ;;
     match has_rows resp with
     | Some dbRequests =>
         console_write (ConsoleLog (js "Loaded ride requests from Supabase:") dbRequests) ;;;
         formattedRequests <- mapM formatDbRequest dbRequests ;;
         setRideRequests formattedRequests ;;;
         ret true
     | None => ret false
     end)
    (fun dbError =>
       console_write (ConsoleError (js "Error loading ride requests from database:") dbError) ;;;
       ret false).

(** [item || "[]"] *)
Definition or_empty_list (item : option jsstring) : jsstring :=
  match item with
  | Some (c :: s) => c :: s
  | _ => js "[]"
  end.

Definition loadRideRequests : JS unit :=
  returned <- loadFromSupabase ;;
  if returned : bool then ret tt
  else
    item <- localStorage_getItem (js "rideRequests") ;;
    storedRequests <- lift (JSON_parse (or_empty_list item)) ;;
    typedRequests <- processRideRequests storedRequests ;;
    setRideRequests typedRequests ;;;
    match typedRequests with
    | [] => ret tt
    | _ :: _ =>
        try_catch
          (for_of typedRequests syncRideRequest)
          (fun error =>
             console_write (ConsoleError (js "Error syncing ride requests to database:") error))
    end.

(** [rideRequests.map(...)] in [handleRideAction] *)
Definition updateRequests (requests : list LocalRideRequest)
    (requestId : jsstring) (action : Action) : list LocalRideRequest :=
  map (fun request =>
         if strict_eq_str (id request) requestId
         then with_status request (newStatus action)
         else request)
      requests.

Definition handleRideAction (requestId : jsstring) (action : Action) : JS unit :=
  requests <- read_rideRequests ;;
  let updatedRequests := updateRequests requests requestId action in
  localStorage_setItem (js "rideRequests")
    (JSON_stringify (JArray (map toJs updatedRequests))) ;;;
  setRideRequests updatedRequests ;;;
  try_catch
    (u <- read_user ;;
     now <- Date_now ;;
     let patch :=
       {| upd_status := statusForDb action;
          upd_driver_id := driver_id_of u;
          upd_updated_at := toISOString now |} in
     remote (CallUpdate patch requestId) (update_by_id patch requestId) ;;;
     ret tt)
    (fun error =>
       console_write (ConsoleError (js "Error updating ride request in database:") error)) ;;;
  toast {| title := js "Ride Request Updated";
           description := js "Ride request has been " ++ action_name action ++ js "ed." |}.

(** *** Vocabulary of the statements *)

(** The two entries agree on every field but [status]. *)
Definition same_but_status (r r' : LocalRideRequest) : Prop :=
  id r' = id r /\ studentName r' = studentName r /\
  studentEmail r' = studentEmail r /\ pickupLocation r' = pickupLocation r /\
  destination r' = destination r /\ date r' = date r /\ time r' = time r /\
  disabilityType r' = disabilityType r /\
  additionalNotes r' = additionalNotes r.

(** The closed enumeration of the local status. *)
Definition valid_status (v : JsValue) : Prop :=
  v = JString (js "pending") \/ v = JString (js "accepted") \/
  v = JString (js "completed") \/ v = JString (js "declined").


(** The object the action passes to [.update]. *)
Definition update_patch (w : World) (action : Action) : DbUpdate :=
  {| upd_status := statusForDb action;
     upd_driver_id := driver_id_of (user w);
     upd_updated_at := toISOString (clock w (reads w)) |}.

(** The confirmation the action shows. *)
Definition confirmation (action : Action) : Toast :=
  {| title := js "Ride Request Updated";
     description := js "Ride request has been " ++ action_name action ++ js "ed." |}.

(** The local shape of a remote row, [d] and [t] being the time values
    of the two [Date]s the mapping builds. *)
Definition mapped_row (d t : option Z) (row : DbRow) : LocalRideRequest :=
  {| id := JString (db_id row);
     studentName := JString (db_student_id row);
     studentEmail := JString (db_student_id row ++ js "@example.com");
     pickupLocation := JString (db_pickup_location row);
     destination := JString (db_destination row);
     date := JString (toLocaleDateString d);
     time := JString (toLocaleTimeString t);
     status := validateStatus (JString (db_status row));
     disabilityType := JString (js "Not specified");
     additionalNotes := Some (JString (js "From database")) |}.

(** [created_at], when it is there and not empty. *)
Definition created (row : DbRow) : option jsstring :=
  match db_created_at row with
  | Some (c :: s) => Some (c :: s)
  | _ => None
  end.

(** The rows mapped one by one; a row without [created_at] takes the
    next two readings of the clock, [n] readings having been taken. *)
Fixpoint mapped_rows (clk : nat -> Z) (n : nat) (rows : list DbRow)
  : list LocalRideRequest :=
  match rows with
  | [] => []
  | row :: rest =>
      match created row with
      | Some s =>
          mapped_row (Date_parse s) (Date_parse s) row :: mapped_rows clk n rest
      | None =>
          mapped_row (Some (clk n)) (Some (clk (S n))) row
            :: mapped_rows clk (S (S n)) rest
      end
  end.

Fixpoint rows_reads (n : nat) (rows : list DbRow) : nat :=
  match rows with
  | [] => n
  | row :: rest =>
      match created row with
      | Some _ => rows_reads n rest
      | None => rows_reads (S (S n)) rest
      end
  end.

(** The words of the mapping, row by row. *)
Definition row_mapped (clk : nat -> Z) (row : DbRow) (r : LocalRideRequest) : Prop :=
  id r = JString (db_id row) /\
  studentName r = JString (db_student_id row) /\
  studentEmail r = JString (db_student_id row ++ js "@example.com") /\
  pickupLocation r = JString (db_pickup_location row) /\
  destination r = JString (db_destination row) /\
  status r = validateStatus (JString (db_status row)) /\
  disabilityType r = JString (js "Not specified") /\
  match created row with
  | Some s =>
      date r = JString (toLocaleDateString (Date_parse s)) /\
      time r = JString (toLocaleTimeString (Date_parse s))
  | None =>
      exists n,
        date r = JString (toLocaleDateString (Some (clk n))) /\
        time r = JString (toLocaleTimeString (Some (clk (S n))))
  end.

(** What reading [e.k] gives on a cached entry that is neither [null]
    nor [undefined]. *)
Definition prop (e : JsValue) (k : jsstring) : JsValue :=
  match e with
  | JObject props => default JUndefined (assoc k props)
  | _ => JUndefined
  end.

Definition nullish (e : JsValue) : Prop := e = JNull \/ e = JUndefined.

(** The normalisation of one cached entry, [d] and [t] being the clock
    readings at hand for a missing date and a missing time. *)
Definition normalized (d t : Z) (e : JsValue) : LocalRideRequest :=
  {| id := prop e (js "id");
     studentName := js_or (prop e (js "studentName")) (JString (js "Unknown"));
     studentEmail :=
       js_or (prop e (js "studentEmail")) (JString (js "unknown@email.com"));
     pickupLocation := js_or (prop e (js "pickupLocation")) (JString []);
     destination := js_or (prop e (js "destination")) (JString []);
     date := js_or (prop e (js "date")) (JString (toLocaleDateString (Some d)));
     time := js_or (prop e (js "time")) (JString (toLocaleTimeString (Some t)));
     status := validateStatus (js_or (prop e (js "status")) (JString (js "pending")));
     disabilityType :=
       js_or (prop e (js "disabilityType")) (JString (js "Not specified"));
     additionalNotes := Some (prop e (js "additionalNotes")) |}.

(** The clock readings taken after one entry, [n] taken before it. *)
Definition entry_reads (n : nat) (e : JsValue) : nat :=
  let n1 := if truthy (prop e (js "date")) then n else S n in
  if truthy (prop e (js "time")) then n1 else S n1.

Fixpoint normalized_list (clk : nat -> Z) (n : nat) (entries : list JsValue)
  : list LocalRideRequest :=
  match entries with
  | [] => []
  | e :: rest =>
      let n1 := if truthy (prop e (js "date")) then n else S n in
      normalized (clk n) (clk n1) e :: normalized_list clk (entry_reads n e) rest
  end.

Fixpoint entries_reads (n : nat) (entries : list JsValue) : nat :=
  match entries with
  | [] => n
  | e :: rest => entries_reads (entry_reads n e) rest
  end.


(** The remote query failed (it threw, or resolved to an error or to
    no data) or returned zero rows. *)
Definition unavailable (outcome : Completion (Response (list DbRow))) : Prop :=
  match outcome with
  | Throw _ => True
  | Normal resp => error resp <> None \/ data resp = None \/ data resp = Some []
  end.

(** [localStorage.getItem("rideRequests") || "[]"] *)
Definition cached_text (w : World) : jsstring :=
  or_empty_list (localStorage w !! js "rideRequests").

(** [m] touches neither the displayed list, nor the cache, nor the
    session, nor the confirmations. *)
Definition keeps {A} (m : JS A) : Prop :=
  forall w,
    rideRequests (m w).2 = rideRequests w /\
    localStorage (m w).2 = localStorage w /\
    user (m w).2 = user w /\
    toasts (m w).2 = toasts w /\
    clock (m w).2 = clock w.

(** [m] never throws. *)
Definition total {A} (m : JS A) : Prop :=
  forall w, exists a, (m w).1 = Normal a.

(** The world when the load turns to the cache: the remote query was
    issued and, if it threw, logged. *)
Definition after_query (w : World)
    (outcome : Completion (Response (list DbRow))) (r' : R) : World :=
  let w1 := set_store r' (set_calls (calls w ++ [CallSelectAll]) w) in
  match outcome with
  | Throw e =>
      set_console
        (console w ++ [ConsoleError (js "Error loading ride requests from database:") e])
        w1
  | Normal _ => w1
  end.

(** The [try { for ... } catch] of the load. *)
Definition backfill_loop (typed : list LocalRideRequest) : JS unit :=
  try_catch (for_of typed syncRideRequest)
    (fun error =>
       console_write (ConsoleError (js "Error syncing ride requests to database:") error)).

(** Every displayed entry has a status of the closed enumeration. *)
Definition statuses_valid (w : World) : Prop :=
  Forall (fun r => valid_status (status r)) (rideRequests w).

(** The local cache is absent, or holds the JSON text of a list whose
    entries are not [null]. *)
Definition cache_is_list (w : World) : Prop :=
  exists entries,
    JSON_parse (cached_text w) = Normal (JArray entries) /\
    Forall (fun e => ~ nullish e) entries.


(** An entry that JSON can write: every field is plain, and
    [additionalNotes] is absent, [undefined] or plain. *)
Definition storable (r : LocalRideRequest) : Prop :=
  plain (id r) /\ plain (studentName r) /\ plain (studentEmail r) /\
  plain (pickupLocation r) /\ plain (destination r) /\ plain (date r) /\
  plain (time r) /\ plain (status r) /\ plain (disabilityType r) /\
  match additionalNotes r with
  | Some notes => notes = JUndefined \/ plain notes
  | None => True
  end.

(** The entry without its [additionalNotes] property when that
    property holds [undefined]. *)
Definition without_undefined_notes (r : LocalRideRequest) : LocalRideRequest :=
  {| id := id r;
     studentName := studentName r;
     studentEmail := studentEmail r;
     pickupLocation := pickupLocation r;
     destination := destination r;
     date := date r;
     time := time r;
     status := status r;
     disabilityType := disabilityType r;
     additionalNotes :=
       match additionalNotes r with
       | Some JUndefined => None
       | notes => notes
       end |}.

(** What can happen to a mounted page: a load, an action, or a change
    of anything but the displayed list (the cache, the session, the
    hosted store, the console). *)
Inductive step : World -> World -> Prop :=
| step_load w : step w (loadRideRequests w).2
| step_action w requestId action : step w (handleRideAction requestId action w).2
| step_other w w' : rideRequests w' = rideRequests w -> step w w'.

Inductive reachable : World -> Prop :=
| reachable_mount w : rideRequests w = [] -> reachable w
| reachable_step w w' : reachable w -> step w w' -> reachable w'.

(** ** What the page renders *)

(** [rideRequests.filter(r => r.status === "completed").length] *)
Definition completedRides (requests : list LocalRideRequest) : nat :=
  length (List.filter (fun r => strict_eq_str (status r) (js "completed")) requests).

(** [rideRequests.filter(r => r.status === "pending").length] *)
Definition pendingRequests (requests : list LocalRideRequest) : nat :=
  length (List.filter (fun r => strict_eq_str (status r) (js "pending")) requests).

(** The [variant] of the status badge of a row. *)
Inductive BadgeVariant : Type :=
| variant_default
| variant_secondary
| variant_outline
| variant_destructive.

Definition badgeVariant (request : LocalRideRequest) : BadgeVariant :=
  if strict_eq_str (status request) (js "accepted") then variant_default
  else if strict_eq_str (status request) (js "pending") then variant_secondary
  else if strict_eq_str (status request) (js "completed") then variant_outline
  else variant_destructive.

(** The buttons of a row, in the order of the table: Accept and
    Decline on a pending request, Complete on an accepted one. The
    button of [action] calls [handleRideAction(request.id, action)]. *)
Definition rowActions (request : LocalRideRequest) : list Action :=
  (if strict_eq_str (status request) (js "pending") then [accept; decline] else [])
  ++ (if strict_eq_str (status request) (js "accepted") then [complete] else []).

(** A press on a button that the table shows, on a row whose id is a
    string. *)
Inductive press : World -> World -> Prop :=
| press_button w request requestId action :
    request ∈ rideRequests w ->
    id request = JString requestId ->
    action ∈ rowActions request ->
    press w (handleRideAction requestId action w).2.

(** One step of the life of a request. *)
Definition lifecycle (s s' : JsValue) : Prop :=
  (s = JString (js "pending") /\
   (s' = JString (js "accepted") \/ s' = JString (js "declined"))) \/
  (s = JString (js "accepted") /\ s' = JString (js "completed")).

(** Any number of steps. *)
Definition forward (s s' : JsValue) : Prop :=
  s' = s \/
  (s = JString (js "pending") /\
   (s' = JString (js "accepted") \/ s' = JString (js "declined") \/
    s' = JString (js "completed"))) \/
  (s = JString (js "accepted") /\ s' = JString (js "completed")).

(** ** More vocabulary *)

Definition is_nullish (e : JsValue) : bool :=
  match e with
  | JNull | JUndefined => true
  | _ => false
  end.

(** Calls of a backfill: existence checks, each followed or not by
    the insert of a row with the checked id and no driver. *)
Inductive checked_inserts : list RemoteCall -> Prop :=
| checked_nil : checked_inserts []
| checked_only v rest :
    checked_inserts rest -> checked_inserts (CallSelectId v :: rest)
| checked_insert row rest :
    checked_inserts rest -> ins_driver_id row = None ->
    checked_inserts (CallSelectId (ins_id row) :: CallInsert row :: rest).

(** An entry that the normaliser leaves as it is: the fields are
    plain values, those with a default are there, the status is of
    the enumeration and [additionalNotes] is an own property. *)
Definition settled (r : LocalRideRequest) : Prop :=
  storable r /\
  truthy (studentName r) = true /\
  truthy (studentEmail r) = true /\
  (truthy (pickupLocation r) = true \/ pickupLocation r = JString []) /\
  (truthy (destination r) = true \/ destination r = JString []) /\
  truthy (date r) = true /\
  truthy (time r) = true /\
  valid_status (status r) /\
  truthy (disabilityType r) = true /\
  additionalNotes r <> None.

End Page.
Arguments World : clear implicits.
Arguments JS : clear implicits.

(** ** A hosted store to run the component against *)

(** Modelled from the spec: the hosted table [ride_requests] and its
    four operations (select-all, select-by-id existence check, insert,
    update-by-id) are a service outside the repository. Ids are
    unique. Every call first takes its fate from a script: it works,
    it resolves to an error result, or it throws; a call past the end
    of the script works. *)
Inductive Fault : Type := Works | Fails | Throws.

Record Hosted : Type := { table : list DbRow; script : list Fault }.

Definition hosted_call {D} (work : list DbRow -> Response D * list DbRow)
    (h : Hosted) : Completion (Response D) * Hosted :=
  match script h with
  | [] | Works :: _ =>
      let '(resp, rows) := work (table h) in
      (Normal resp, {| table := rows; script := tail (script h) |})
  | Fails :: rest =>
      (Normal {| data := None; error := Some (js "request failed") |},
       {| table := table h; script := rest |})
  | Throws :: rest =>
      (Throw (Rejected (js "network error")),
       {| table := table h; script := rest |})
  end.

Definition has_id (v : JsValue) (row : DbRow) : bool := strict_eq_str v (db_id row).

Definition hosted_select_all : Hosted -> Completion (Response (list DbRow)) * Hosted :=
  hosted_call (fun rows => ({| data := Some rows; error := None |}, rows)).

Definition hosted_select_id (v : JsValue)
  : Hosted -> Completion (Response jsstring) * Hosted :=
  hosted_call (fun rows =>
    (match List.filter (has_id v) rows with
     | [] => {| data := None; error := None |}
     | [row] => {| data := Some (db_id row); error := None |}
     | _ :: _ :: _ => {| data := None; error := Some (js "multiple rows") |}
     end, rows)).

Definition row_of_insert (row : DbInsert) : option DbRow :=
  match ins_id row, ins_pickup_location row, ins_destination row, ins_status row with
  | JString i, JString p, JString d, JString s =>
      Some {| db_id := i;
              db_student_id := ins_student_id row;
              db_driver_id := ins_driver_id row;
              db_pickup_location := p;
              db_destination := d;
              db_status := s;
              db_created_at := Some (ins_created_at row);
              db_updated_at := ins_updated_at row |}
  | _, _, _, _ => None
  end.

Definition hosted_insert (row : DbInsert)
  : Hosted -> Completion (Response unit) * Hosted :=
  hosted_call (fun rows =>
    match row_of_insert row with
    | Some new =>
        if existsb (has_id (ins_id row)) rows
        then ({| data := None; error := Some (js "duplicate key") |}, rows)
        else ({| data := None; error := None |}, rows ++ [new])
    | None => ({| data := None; error := Some (js "invalid input") |}, rows)
    end).

Definition apply_update (patch : DbUpdate) (v : jsstring) (row : DbRow) : DbRow :=
  if jseqb (db_id row) v
  then {| db_id := db_id row;
          db_student_id := db_student_id row;
          db_driver_id := upd_driver_id patch;
          db_pickup_location := db_pickup_location row;
          db_destination := db_destination row;
          db_status := upd_status patch;
          db_created_at := db_created_at row;
          db_updated_at := upd_updated_at patch |}
  else row.

Definition hosted_update (patch : DbUpdate) (v : jsstring)
  : Hosted -> Completion (Response unit) * Hosted :=
  hosted_call (fun rows =>
    ({| data := None; error := None |}, map (apply_update patch v) rows)).

Definition hosted : Supabase Hosted := {|
  select_all := hosted_select_all;
  select_id := hosted_select_id;
  insert_row := hosted_insert;
  update_by_id := hosted_update
|}.

(** No call ahead fails. *)
Definition fault_free (h : Hosted) : Prop := Forall (fun f => f = Works) (script h).

Definition unique_ids (rows : list DbRow) : Prop := NoDup (map db_id rows).

(** *** The backfill, told from the table *)

Definition in_table (v : JsValue) (rows : list DbRow) : bool :=
  existsb (has_id v) rows.

(** The row derived from a local entry whose email is [email]. *)
Definition derived_insert (created updated : Z) (request : LocalRideRequest)
    (email : jsstring) : DbInsert :=
  {| ins_id := id request;
     ins_student_id := split_first 64 email;
     ins_driver_id := None;
     ins_pickup_location := pickupLocation request;
     ins_destination := destination request;
     ins_status := statusToDb (status request);
     ins_created_at := toISOString created;
     ins_updated_at := toISOString updated |}.

Definition text_of (v : JsValue) : jsstring :=
  match v with
  | JString s => s
  | _ => []
  end.

(** The table after a working insert. *)
Definition rows_after_insert (rows : list DbRow) (row : DbInsert) : list DbRow :=
  match row_of_insert row with
  | Some new => if in_table (ins_id row) rows then rows else rows ++ [new]
  | None => rows
  end.


(** The table after a backfill that meets no failure. *)
Fixpoint table_after_backfill (clk : nat -> Z) (n : nat) (rows : list DbRow)
    (typed : list LocalRideRequest) : list DbRow :=
  match typed with
  | [] => rows
  | request :: rest =>
      if in_table (id request) rows then table_after_backfill clk n rows rest
      else
        let row :=
          derived_insert (clk n) (clk (S n)) request (text_of (studentEmail request)) in
        table_after_backfill clk (S (S n)) (rows_after_insert rows row) rest
  end.

(** An entry that the table takes as a row: its id, email, pickup
    location and destination are strings, its status is of the
    enumeration. *)
Definition insertable (r : LocalRideRequest) : Prop :=
  (exists i, id r = JString i) /\
  (exists s, studentEmail r = JString s) /\
  (exists p, pickupLocation r = JString p) /\
  (exists d, destination r = JString d) /\
  valid_status (status r).

(** What a load shows, from the hosted table, of an entry [r] that a
    backfill has inserted. *)
Definition shown_after_backfill (r r' : LocalRideRequest) : Prop :=
  id r' = id r /\
  studentName r' = JString (split_first 64 (text_of (studentEmail r))) /\
  studentEmail r' =
    JString (split_first 64 (text_of (studentEmail r)) ++ js "@example.com") /\
  pickupLocation r' = pickupLocation r /\
  destination r' = destination r /\
  (status r = JString (js "declined") -> status r' = JString (js "pending")) /\
  (status r = JString (js "pending") \/ status r = JString (js "accepted") \/
   status r = JString (js "completed") -> status r' = status r) /\
  disabilityType r' = JString (js "Not specified") /\
  additionalNotes r' = Some (JString (js "From database")).

(** The row that the table makes of an entry. *)
Definition row_of_entry (r : LocalRideRequest) (row : DbRow) : Prop :=
  JString (db_id row) = id r /\
  db_student_id row = split_first 64 (text_of (studentEmail r)) /\
  JString (db_pickup_location row) = pickupLocation r /\
  JString (db_destination row) = destination r /\
  JString (db_status row) = statusToDb (status r).


(** A freshly mounted page. *)
Definition mounted (h : Hosted) (cache : option jsstring) (u : option User)
  : World Hosted :=
  {| rideRequests := [];
     user := u;
     localStorage :=
       match cache with
       | Some text => {[ js "rideRequests" := text ]}
       | None => ∅
       end;
     store := h;
     clock := fun n => (1000 + Z.of_nat n)%Z;
     reads := O;
     console := [];
     toasts := [];
     calls := [] |}.

(** *** Sample data *)

Definition sample_row : DbRow :=
  {| db_id := js "7";
     db_student_id := js "amy";
     db_driver_id := None;
     db_pickup_location := js "Library";
     db_destination := js "Gym";
     db_status := js "rejected";
     db_created_at := Some (js "42");
     db_updated_at := js "43" |}.


(** [[{"id":"1","status":"pending"},
      {"id":"2","studentEmail":"bo@x.org","status":"declined"}]] *)
Definition sample_cache : jsstring :=
  jsontext
    "[{'id':'1','status':'pending'},{'id':'2','studentEmail':'bo@x.org','status':'declined'}]".

Definition sample_entries : list JsValue :=
  [ JObject [ (js "id", JString (js "1")); (js "status", JString (js "pending")) ];
    JObject [ (js "id", JString (js "2"));
              (js "studentEmail", JString (js "bo@x.org"));
              (js "status", JString (js "declined")) ] ].

Definition sample_driver : User :=
  {| user_id := js "d-9"; first_name := js "Dee"; last_name := js "Ray";
     email := js "dee@x.org" |}.

Definition empty_store : Hosted := {| table := []; script := [] |}.

(** The entry [{id:"1", status:"pending", ...}]. *)
Definition sample_entry : LocalRideRequest :=
  {| id := JString (js "1");
     studentName := JString (js "Amy");
     studentEmail := JString (js "amy@x.org");
     pickupLocation := JString (js "Library");
     destination := JString (js "Gym");
     date := JString (js "1/2/2026");
     time := JString (js "9:00");
     status := JString (js "pending");
     disabilityType := JString (js "Not specified");
     additionalNotes := Some JUndefined |}.

(** A mounted page that shows [sample_entry] alone. *)
Definition sample_single (u : option User) : World Hosted :=
  {| rideRequests := [sample_entry];
     user := u;
     localStorage := ∅;
     store := empty_store;
     clock := fun n => (1000 + Z.of_nat n)%Z;
     reads := O;
     console := [];
     toasts := [];
     calls := [] |}.

(** The page after a load that found the hosted table empty and the
    sample list in the cache. *)
Definition sample_loaded (u : option User) : World Hosted :=
  (loadRideRequests (SB := hosted) (mounted empty_store (Some sample_cache) u)).2.

(** The list that the load shows of [sample_cache], the clock of
    [mounted] giving the dates and times. *)
Definition sample_typed : list LocalRideRequest :=
  [ {| id := JString (js "1");
       studentName := JString (js "Unknown");
       studentEmail := JString (js "unknown@email.com");
       pickupLocation := JString [];
       destination := JString [];
       date := JString (toLocaleDateString (Some 1000%Z));
       time := JString (toLocaleTimeString (Some 1001%Z));
       status := JString (js "pending");
       disabilityType := JString (js "Not specified");
       additionalNotes := Some JUndefined |};
    {| id := JString (js "2");
       studentName := JString (js "Unknown");
       studentEmail := JString (js "bo@x.org");
       pickupLocation := JString [];
       destination := JString [];
       date := JString (toLocaleDateString (Some 1002%Z));
       time := JString (toLocaleTimeString (Some 1003%Z));
       status := JString (js "declined");
       disabilityType := JString (js "Not specified");
       additionalNotes := Some JUndefined |} ].

End Model.
Arguments World {P} R.
Arguments JS {P} R A.
Arguments data {D} _.
Arguments error {D} _.


(** * Properties *)

Section Theory.
Context `{P : Platform} {R : Type} `{SB : !Supabase R}.

Lemma jseqb_true s t : jseqb s t = true <-> s = t.
Proof. unfold jseqb. apply bool_decide_eq_true. Qed.

Lemma jseqb_false s t : jseqb s t = false <-> s <> t.
Proof. unfold jseqb. apply bool_decide_eq_false. Qed.

Lemma jseqb_refl s : jseqb s s = true.
Proof. by apply jseqb_true. Qed.

Lemma strict_eq_str_true v s : strict_eq_str v s = true <-> v = JString s.
Proof.
  destruct v; simpl; try (split; [discriminate | discriminate]).
  rewrite jseqb_true. split; [by intros -> | by intros [= ->]].
Qed.

Lemma strict_eq_str_false v s : strict_eq_str v s = false <-> v <> JString s.
Proof.
  rewrite <- strict_eq_str_true. destruct (strict_eq_str v s); split; congruence.
Qed.

(** *** The status helpers *)

Lemma validateStatus_valid v : valid_status (validateStatus v).
Proof.
  unfold validateStatus, valid_status.
  repeat (case (strict_eq_str v _); [tauto |]). tauto.
Qed.

Lemma validateStatus_cases s :
  validateStatus (JString s) =
    if jseqb s (js "accepted") then JString (js "accepted")
    else if jseqb s (js "completed") then JString (js "completed")
    else if jseqb s (js "declined") then JString (js "declined")
    else JString (js "pending").
Proof. reflexivity. Qed.



(** *** One run of the action *)

Lemma handleRideAction_run (w : World R) requestId action :
  let updated := updateRequests (rideRequests w) requestId action in
  let patch := update_patch w action in
  let outcome := update_by_id patch requestId (store w) in
  let w' := (handleRideAction requestId action w).2 in
  (handleRideAction requestId action w).1 = Normal tt /\
  rideRequests w' = updated /\
  localStorage w' =
    <[js "rideRequests" := JSON_stringify (JArray (map toJs updated))]> (localStorage w) /\
  user w' = user w /\
  calls w' = calls w ++ [CallUpdate patch requestId] /\
  toasts w' = toasts w ++ [confirmation action] /\
  store w' = outcome.2 /\
  console w' = console w ++
    match outcome.1 with
    | Throw e => [ConsoleError (js "Error updating ride request in database:") e]
    | Normal _ => []
    end.
Proof.
  unfold handleRideAction, bind, try_catch, remote, read_rideRequests, read_user,
    localStorage_setItem, setRideRequests, Date_now, console_write, toast, ret,
    update_patch, confirmation.
  cbn.
  destruct (update_by_id _ requestId (store w)) as [[resp | e] r']; cbn;
    rewrite ?app_nil_r; repeat split; reflexivity.
Qed.

Lemma updateRequests_Forall2 requests requestId action :
  Forall2
    (fun r r' =>
       (id r = JString requestId ->
        status r' = newStatus action /\ same_but_status r r') /\
       (id r <> JString requestId -> r' = r))
    requests (updateRequests requests requestId action).
Proof.
  unfold updateRequests. induction requests as [| r l IH]; cbn; constructor; [| exact IH].
  destruct (strict_eq_str (id r) requestId) eqn:E.
  - split; [| intros H; apply strict_eq_str_true in E; contradiction].
    intros _. split; [reflexivity |]. unfold same_but_status. cbn. tauto.
  - apply strict_eq_str_false in E. split; [contradiction | reflexivity].
Qed.

(** C3. Accept, decline or complete with id X sets the status of the
    entries whose id is X to accepted, declined or completed, leaves
    their other fields alone, and leaves every other entry of the list
    as it was; the list keeps its length and order. *)
Theorem action_changes_only_the_target (w : World R) requestId action :
  newStatus accept = JString (js "accepted") /\
  newStatus decline = JString (js "declined") /\
  newStatus complete = JString (js "completed") /\
  Forall2
    (fun r r' =>
       (id r = JString requestId ->
        status r' = newStatus action /\ same_but_status r r') /\
       (id r <> JString requestId -> r' = r))
    (rideRequests w)
    (rideRequests (handleRideAction requestId action w).2).
Proof.
  repeat (split; [reflexivity |]).
  destruct (handleRideAction_run w requestId action) as (_ & -> & _).
  apply updateRequests_Forall2.
Qed.

Lemma driver_id_of_Some (u : option User) :
  driver_id_of u <> None <-> exists x, u = Some x /\ user_id x <> [].
Proof.
  destruct u as [x |]; cbn.
  - destruct (jseqb (user_id x) []) eqn:E.
    + apply jseqb_true in E. split; [congruence |].
      intros (y & [= <-] & Hy). contradiction.
    + apply jseqb_false in E. split; [eauto | discriminate].
  - split; [congruence |]. by intros (x & ? & _).
Qed.

Lemma driver_id_of_user (u : User) :
  (user_id u <> [] -> driver_id_of (Some u) = Some (user_id u)) /\
  (user_id u = [] -> driver_id_of (Some u) = None).
Proof.
  cbn. destruct (jseqb (user_id u) []) eqn:E.
  - apply jseqb_true in E. split; [intros H; contradiction | reflexivity].
  - apply jseqb_false in E. split; [reflexivity | intros H; contradiction].
Qed.

(** C8, as amended. On the list [{id:"1", status:"pending", ...}],
    accept("1") yields one entry with id "1" and status "accepted",
    and issues one remote update for id "1" with status "accepted".
    Its driver_id is the id of the signed-in user when there is one
    with a non-empty id; it is null when no user is signed in or the
    user's id is empty. *)
Theorem accept_single_pending (w : World R) (r : LocalRideRequest) :
  rideRequests w = [r] ->
  id r = JString (js "1") ->
  status r = JString (js "pending") ->
  let w' := (handleRideAction (js "1") accept w).2 in
  let update driver :=
    CallUpdate {| upd_status := js "accepted";
                  upd_driver_id := driver;
                  upd_updated_at := toISOString (clock w (reads w)) |}
               (js "1") in
  (exists r',
     rideRequests w' = [r'] /\ id r' = JString (js "1") /\
     status r' = JString (js "accepted") /\ same_but_status r r') /\
  (forall u, user w = Some u -> user_id u <> [] ->
     calls w' = calls w ++ [update (Some (user_id u))]) /\
  (forall u, user w = Some u -> user_id u = [] ->
     calls w' = calls w ++ [update None]) /\
  (user w = None -> calls w' = calls w ++ [update None]).
Proof.
  intros Hl Hid Hst w' update.
  destruct (handleRideAction_run w (js "1") accept) as (_ & Hr & _ & _ & Hc & _).
  fold w' in Hr, Hc. unfold update_patch in Hc. cbn [statusForDb] in Hc.
  split; [| split; [| split]].
  - exists (with_status r (JString (js "accepted"))).
    rewrite Hr, Hl. unfold updateRequests. cbn. rewrite Hid. cbn.
    repeat split; try reflexivity; exact Hid.
  - intros u Hu Hne. rewrite Hc, Hu.
    by rewrite (proj1 (driver_id_of_user u) Hne).
  - intros u Hu He. rewrite Hc, Hu.
    by rewrite (proj2 (driver_id_of_user u) He).
  - intros Hu. by rewrite Hc, Hu.
Qed.

Lemma hosted_update_rows (h : Hosted) patch v :
  table (hosted_update patch v h).2 = table h \/
  table (hosted_update patch v h).2 = map (apply_update patch v) (table h).
Proof.
  unfold hosted_update, hosted_call.
  destruct (script h) as [| [] rest]; cbn; auto.
Qed.

(** *** Running the load *)

Lemma formatDbRequest_run (w : World R) row :
  formatDbRequest row w =
    match created row return Completion LocalRideRequest * World R with
    | Some s => (Normal (mapped_row (Date_parse s) (Date_parse s) row), w)
    | None =>
        (Normal (mapped_row (Some (clock w (reads w))) (Some (clock w (S (reads w)))) row),
         set_reads (S (S (reads w))) w)
    end.
Proof.
  unfold formatDbRequest, created, created_or_now, bind, ret, Date_now, mapped_row.
  destruct (db_created_at row) as [[| c s] |]; reflexivity.
Qed.


Lemma mapM_formatDbRequest rows : forall w : World R,
  mapM formatDbRequest rows w =
    (Normal (mapped_rows (clock w) (reads w) rows),
     set_reads (rows_reads (reads w) rows) w).
Proof.
  induction rows as [| row rows IH]; intros w.
  - destruct w; reflexivity.
  - cbn [mapM mapped_rows rows_reads]. unfold bind at 1.
    rewrite formatDbRequest_run.
    destruct (created row) as [s |]; unfold bind; rewrite IH; reflexivity.
Qed.

Lemma mapped_rows_Forall2 clk rows : forall n,
  Forall2 (row_mapped clk) rows (mapped_rows clk n rows).
Proof.
  induction rows as [| row rows IH]; intros n; cbn; [constructor |].
  destruct (created row) as [s |] eqn:E; constructor; try apply IH;
    unfold row_mapped; rewrite E; cbn; repeat split; eauto.
Qed.

Lemma has_rows_Some resp rows :
  error resp = None -> data resp = Some rows -> rows <> [] ->
  has_rows resp = Some rows.
Proof.
  unfold has_rows. intros -> -> H. by destruct rows.
Qed.

Lemma has_rows_None resp :
  error resp <> None \/ data resp = None \/ data resp = Some [] ->
  has_rows resp = None.
Proof.
  unfold has_rows. destruct (error resp); [reflexivity |].
  intros [H | [-> | ->]]; [contradiction | reflexivity | reflexivity].
Qed.

Lemma loadFromSupabase_rows (w : World R) resp r' rows :
  select_all (store w) = (Normal resp, r') ->
  has_rows resp = Some rows ->
  loadFromSupabase w =
    (Normal true,
     set_rideRequests (mapped_rows (clock w) (reads w) rows)
       (set_reads (rows_reads (reads w) rows)
          (set_console
             (console w ++ [ConsoleLog (js "Loaded ride requests from Supabase:") rows])
             (set_store r' (set_calls (calls w ++ [CallSelectAll]) w))))).
Proof.
  intros Hsel Hrows.
  unfold loadFromSupabase, try_catch, bind at 1, remote. rewrite Hsel, Hrows.
  unfold bind at 1, console_write. unfold bind at 1.
  rewrite mapM_formatDbRequest. reflexivity.
Qed.

(** The world after a remote query that gave nothing to show. *)
Lemma loadFromSupabase_unavailable (w : World R) outcome r' :
  select_all (store w) = (outcome, r') ->
  unavailable outcome ->
  loadFromSupabase w = (Normal false, after_query w outcome r').
Proof.
  intros Hsel Hun.
  unfold after_query, loadFromSupabase, try_catch, bind at 1, remote. rewrite Hsel.
  destruct outcome as [resp | e]; cbn in Hun.
  - rewrite (has_rows_None _ Hun). reflexivity.
  - reflexivity.
Qed.

Lemma js_get_prop e k : ~ nullish e -> js_get e k = Normal (prop e k).
Proof.
  unfold nullish. destruct e; cbn; try reflexivity; intros H; exfalso; auto.
Qed.

Lemma processRideRequest_run (w : World R) e :
  ~ nullish e ->
  processRideRequest e w =
    (Normal (normalized (clock w (reads w))
               (clock w (if truthy (prop e (js "date")) then reads w else S (reads w))) e),
     set_reads (entry_reads (reads w) e) w).
Proof.
  intros He.
  unfold processRideRequest, field_or, field_or_now, entry_reads, normalized, js_or.
  unfold bind, lift, ret, Date_now. rewrite !(js_get_prop _ _ He).
  destruct w as [rr u ls st clk n co to ca]; cbn.
  destruct (truthy (prop e (js "date"))), (truthy (prop e (js "time"))); reflexivity.
Qed.

Lemma mapM_processRideRequest entries : forall w : World R,
  Forall (fun e => ~ nullish e) entries ->
  mapM processRideRequest entries w =
    (Normal (normalized_list (clock w) (reads w) entries),
     set_reads (entries_reads (reads w) entries) w).
Proof.
  induction entries as [| e entries IH]; intros w Hall.
  - destruct w; reflexivity.
  - apply Forall_cons in Hall as [He Hall].
    cbn [mapM normalized_list entries_reads]. unfold bind at 1.
    rewrite (processRideRequest_run _ _ He). unfold bind.
    rewrite (IH _ Hall). reflexivity.
Qed.

(** *** What a step leaves alone *)

Lemma keeps_bind {A B} (m : JS R A) (k : A -> JS R B) :
  keeps m -> (forall a, keeps (k a)) -> keeps (bind m k).
Proof.
  intros Hm Hk w. unfold bind. specialize (Hm w).
  destruct (m w) as [[a | e] w1]; cbn in *; [| exact Hm].
  specialize (Hk a w1). destruct Hm as (? & ? & ? & ? & ?), Hk as (? & ? & ? & ? & ?).
  repeat split; congruence.
Qed.

Lemma keeps_try_catch {A} (body : JS R A) handler :
  keeps body -> (forall e, keeps (handler e)) -> keeps (try_catch body handler).
Proof.
  intros Hm Hk w. unfold try_catch. specialize (Hm w).
  destruct (body w) as [[a | e] w1]; cbn in *; [exact Hm |].
  specialize (Hk e w1). destruct Hm as (? & ? & ? & ? & ?), Hk as (? & ? & ? & ? & ?).
  repeat split; congruence.
Qed.

Lemma keeps_ret {A} (a : A) : keeps (ret (R := R) a).
Proof. intros w. cbn. tauto. Qed.

Lemma keeps_lift {A} (c : Completion A) : keeps (lift (R := R) c).
Proof. intros w. cbn. tauto. Qed.

Lemma keeps_Date_now : keeps (Date_now (R := R)).
Proof. intros w. cbn. tauto. Qed.

Lemma keeps_console_write entry : keeps (console_write (R := R) entry).
Proof. intros w. cbn. tauto. Qed.

Lemma keeps_remote {D} call (run : R -> Completion (Response D) * R) :
  keeps (remote call run).
Proof. intros w. unfold remote. destruct (run (store w)). cbn. tauto. Qed.

Lemma keeps_for_of {A} (l : list A) (body : A -> JS R unit) :
  (forall a, keeps (body a)) -> keeps (for_of l body).
Proof.
  intros H. induction l as [| a l IH]; cbn [for_of].
  - apply keeps_ret.
  - apply keeps_bind; [apply H | intros _; exact IH].
Qed.

Lemma keeps_syncRideRequest request : keeps (syncRideRequest request).
Proof.
  unfold syncRideRequest. apply keeps_bind; [apply keeps_remote |].
  intros existing. destruct (data existing); [apply keeps_ret |].
  repeat first
    [ apply keeps_ret | apply keeps_lift | apply keeps_Date_now
    | apply keeps_remote | apply keeps_bind
    | match goal with |- forall _, keeps _ => intro end ].
Qed.

Lemma total_try_catch {A} (body : JS R A) handler :
  (forall e, total (handler e)) -> total (try_catch body handler).
Proof.
  intros Hk w. unfold try_catch.
  destruct (body w) as [[a | e] w1]; [by exists a | apply Hk].
Qed.

Lemma total_console_write entry : total (console_write (R := R) entry).
Proof. intros w. by exists tt. Qed.

(** The backfill of the load: the loop in its [try]. *)
Lemma backfill_total_keeps (typed : list LocalRideRequest) :
  (forall w : World R, (backfill_loop typed w).1 = Normal tt) /\
  keeps (backfill_loop (R := R) typed).
Proof.
  unfold backfill_loop. split.
  - intros w.
    destruct (total_try_catch (for_of typed syncRideRequest)
                (fun error =>
                   console_write
                     (ConsoleError (js "Error syncing ride requests to database:") error))
                (fun e => total_console_write _) w) as [[] H].
    exact H.
  - apply keeps_try_catch.
    + apply keeps_for_of, keeps_syncRideRequest.
    + intros e. apply keeps_console_write.
Qed.

Lemma after_query_fields (w : World R) outcome r' :
  let w1 := after_query w outcome r' in
  rideRequests w1 = rideRequests w /\ localStorage w1 = localStorage w /\
  user w1 = user w /\ clock w1 = clock w /\ reads w1 = reads w /\
  toasts w1 = toasts w /\ store w1 = r' /\
  calls w1 = calls w ++ [CallSelectAll].
Proof. unfold after_query. destruct outcome; cbn; tauto. Qed.

Lemma loadRideRequests_rows (w : World R) resp r' rows :
  select_all (store w) = (Normal resp, r') ->
  has_rows resp = Some rows ->
  loadRideRequests w =
    (Normal tt,
     set_rideRequests (mapped_rows (clock w) (reads w) rows)
       (set_reads (rows_reads (reads w) rows)
          (set_console
             (console w ++ [ConsoleLog (js "Loaded ride requests from Supabase:") rows])
             (set_store r' (set_calls (calls w ++ [CallSelectAll]) w))))).
Proof.
  intros Hsel Hrows. unfold loadRideRequests, bind at 1.
  by rewrite (loadFromSupabase_rows _ _ _ _ Hsel Hrows).
Qed.

Lemma loadRideRequests_fallback (w : World R) outcome r' entries :
  select_all (store w) = (outcome, r') ->
  unavailable outcome ->
  JSON_parse (cached_text w) = Normal (JArray entries) ->
  Forall (fun e => ~ nullish e) entries ->
  let typed := normalized_list (clock w) (reads w) entries in
  let w2 :=
    set_rideRequests typed
      (set_reads (entries_reads (reads w) entries) (after_query w outcome r')) in
  loadRideRequests w =
    match typed with
    | [] => (Normal tt, w2)
    | _ :: _ => backfill_loop typed w2
    end.
Proof.
  intros Hsel Hun Hparse Hall typed w2.
  destruct (after_query_fields w outcome r') as (_ & Hls & _ & Hclk & Hrd & _).
  unfold loadRideRequests, bind at 1.
  rewrite (loadFromSupabase_unavailable _ _ _ Hsel Hun).
  unfold bind at 1, localStorage_getItem. rewrite Hls.
  unfold bind at 1, lift.
  change (or_empty_list (localStorage w !! js "rideRequests")) with (cached_text w).
  rewrite Hparse.
  unfold bind at 1, processRideRequests.
  rewrite (mapM_processRideRequest _ _ Hall), Hclk, Hrd.
  unfold bind, setRideRequests. fold typed. fold w2.
  destruct typed; reflexivity.
Qed.

(** C1. When the remote query resolves without error to at least one
    row, the load completes and the displayed list is exactly the
    rows mapped one by one: studentName is student_id, studentEmail is
    student_id followed by @example.com, date and time are formatted
    from created_at (from the clock for a row without it), status is
    validated, disabilityType is Not specified. The local cache is
    neither read nor written: whatever it holds, the list is the same. *)
Theorem load_shows_remote_rows (w : World R) resp r' rows :
  select_all (store w) = (Normal resp, r') ->
  error resp = None ->
  data resp = Some rows ->
  rows <> [] ->
  let w' := (loadRideRequests w).2 in
  (loadRideRequests w).1 = Normal tt /\
  rideRequests w' = mapped_rows (clock w) (reads w) rows /\
  Forall2 (row_mapped (clock w)) rows (rideRequests w') /\
  (forall cache,
     rideRequests (loadRideRequests (set_localStorage cache w)).2 = rideRequests w') /\
  localStorage w' = localStorage w /\
  calls w' = calls w ++ [CallSelectAll].
Proof.
  intros Hsel Herr Hdata Hne w'.
  pose proof (has_rows_Some _ _ Herr Hdata Hne) as Hrows.
  unfold w'. rewrite (loadRideRequests_rows _ _ _ _ Hsel Hrows). cbn.
  repeat split; try reflexivity.
  - apply mapped_rows_Forall2.
  - intros cache.
    by rewrite (loadRideRequests_rows (set_localStorage cache w) _ _ _ Hsel Hrows).
Qed.

Lemma validateStatus_keeps v : valid_status v -> validateStatus v = v.
Proof. by intros [-> | [-> | [-> | ->]]]. Qed.


Lemma valid_status_truthy v : valid_status v -> truthy v = true.
Proof. by intros [-> | [-> | [-> | ->]]]. Qed.



Lemma loadRideRequests_fallback_list (w : World R) outcome r' entries :
  select_all (store w) = (outcome, r') ->
  unavailable outcome ->
  JSON_parse (cached_text w) = Normal (JArray entries) ->
  Forall (fun e => ~ nullish e) entries ->
  (loadRideRequests w).1 = Normal tt /\
  rideRequests (loadRideRequests w).2 = normalized_list (clock w) (reads w) entries.
Proof.
  intros Hsel Hun Hparse Hall.
  pose proof (loadRideRequests_fallback _ _ _ _ Hsel Hun Hparse Hall) as Hrun.
  cbv zeta in Hrun. rewrite Hrun.
  destruct (normalized_list (clock w) (reads w) entries) as [| r l] eqn:E;
    [by split |].
  destruct (backfill_total_keeps (r :: l)) as [Htotal Hkeep].
  split; [apply Htotal |].
  destruct (Hkeep
    (set_rideRequests (r :: l)
       (set_reads (entries_reads (reads w) entries) (after_query w outcome r'))))
    as (-> & _).
  reflexivity.
Qed.

(** *** The load on any world *)

Lemma has_rows_None_inv resp : has_rows resp = None -> unavailable (Normal resp).
Proof.
  unfold has_rows, unavailable.
  destruct (error resp); [left; discriminate |].
  destruct (data resp) as [[| row rows] |]; [tauto | discriminate | tauto].
Qed.

Lemma loadRideRequests_unavailable (w : World R) outcome r' :
  select_all (store w) = (outcome, r') ->
  unavailable outcome ->
  loadRideRequests w =
    let w1 := after_query w outcome r' in
    match JSON_parse (cached_text w) with
    | Throw e => (Throw e, w1)
    | Normal storedRequests =>
        match processRideRequests storedRequests w1 with
        | (Throw e, w2) => (Throw e, w2)
        | (Normal typed, w2) =>
            match typed with
            | [] => (Normal tt, set_rideRequests typed w2)
            | _ :: _ => backfill_loop typed (set_rideRequests typed w2)
            end
        end
    end.
Proof.
  intros Hsel Hun.
  destruct (after_query_fields w outcome r') as (_ & Hls & _).
  unfold loadRideRequests, bind at 1.
  rewrite (loadFromSupabase_unavailable _ _ _ Hsel Hun).
  unfold bind at 1, localStorage_getItem. rewrite Hls.
  unfold bind at 1, lift.
  change (or_empty_list (localStorage w !! js "rideRequests")) with (cached_text w).
  cbv zeta.
  destruct (JSON_parse (cached_text w)) as [storedRequests | e]; [| reflexivity].
  unfold bind at 1.
  destruct (processRideRequests storedRequests (after_query w outcome r'))
    as [[typed | e] w2]; [| reflexivity].
  unfold bind, setRideRequests. destruct typed; reflexivity.
Qed.

Lemma keeps_mapM {A B} (f : A -> JS R B) l :
  (forall a, keeps (f a)) -> keeps (mapM f l).
Proof.
  intros H. induction l as [| a l IH]; cbn [mapM]; [apply keeps_ret |].
  apply keeps_bind; [apply H | intros b].
  apply keeps_bind; [exact IH | intros bs; apply keeps_ret].
Qed.

Lemma keeps_throw {A} e : keeps (throw (R := R) (A := A) e).
Proof. intros w. cbn. tauto. Qed.

Lemma keeps_processRideRequest e : keeps (processRideRequest (R := R) e).
Proof.
  unfold processRideRequest, field_or, field_or_now.
  repeat first
    [ apply keeps_ret | apply keeps_lift | apply keeps_Date_now
    | apply keeps_bind
    | match goal with
      | |- keeps (if ?b then _ else _) => destruct b
      | |- forall _, keeps _ => intro
      end ].
Qed.

Lemma keeps_processRideRequests v : keeps (processRideRequests (R := R) v).
Proof.
  destruct v; cbn; try apply keeps_throw.
  apply keeps_mapM, keeps_processRideRequest.
Qed.

Lemma mapM_Forall {A B} (Q : B -> Prop) (f : A -> JS R B) :
  (forall a w b w', f a w = (Normal b, w') -> Q b) ->
  forall l w bs w', mapM f l w = (Normal bs, w') -> Forall Q bs.
Proof.
  intros Hf. induction l as [| a l IH]; intros w bs w'; cbn [mapM].
  - intros [= <- _]. constructor.
  - unfold bind at 1. destruct (f a w) as [[b | e] w1] eqn:E; [| discriminate].
    unfold bind at 1. destruct (mapM f l w1) as [[bs' | e] w2] eqn:E'; [| discriminate].
    intros [= <- _]. constructor; [by eapply Hf | by eapply IH].
Qed.

Lemma processRideRequest_status (w : World R) e r w' :
  processRideRequest e w = (Normal r, w') -> valid_status (status r).
Proof.
  destruct e; try (rewrite processRideRequest_run by (unfold nullish; intros [|]; discriminate);
    intros [= <- _]; apply validateStatus_valid); discriminate.
Qed.

Lemma processRideRequests_statuses (w : World R) v typed w' :
  processRideRequests v w = (Normal typed, w') ->
  Forall (fun r => valid_status (status r)) typed.
Proof.
  destruct v; try discriminate. cbn.
  apply (mapM_Forall (fun r => valid_status (status r))).
  intros a w0 b w0'. apply processRideRequest_status.
Qed.

Lemma mapped_rows_statuses clk rows : forall n,
  Forall (fun r => valid_status (status r)) (mapped_rows clk n rows).
Proof.
  induction rows as [| row rows IH]; intros n; cbn; [constructor |].
  destruct (created row); constructor; try apply IH; apply validateStatus_valid.
Qed.

Lemma updateRequests_statuses requests requestId action :
  Forall (fun r => valid_status (status r)) requests ->
  Forall (fun r => valid_status (status r)) (updateRequests requests requestId action).
Proof.
  unfold updateRequests. intros H. apply Forall_fmap. eapply Forall_impl; [exact H |].
  intros r Hr. cbn. destruct (strict_eq_str (id r) requestId); [| exact Hr].
  cbn. unfold valid_status. destruct action; cbn; tauto.
Qed.

Lemma loadRideRequests_statuses (w : World R) :
  statuses_valid w -> statuses_valid (loadRideRequests w).2.
Proof.
  unfold statuses_valid. intros Hinv.
  destruct (select_all (store w)) as [outcome r'] eqn:Hsel.
  assert (Hcases : (exists resp rows, outcome = Normal resp /\ has_rows resp = Some rows)
                   \/ unavailable outcome).
  { destruct outcome as [resp | e]; [| by right].
    destruct (has_rows resp) as [rows |] eqn:E; [left; eauto |].
    right. by apply has_rows_None_inv. }
  destruct Hcases as [(resp & rows & -> & Hrows) | Hun].
  - rewrite (loadRideRequests_rows _ _ _ _ Hsel Hrows). cbn.
    apply mapped_rows_statuses.
  - rewrite (loadRideRequests_unavailable _ _ _ Hsel Hun). cbv zeta.
    destruct (after_query_fields w outcome r') as (Hrr & _).
    destruct (JSON_parse (cached_text w)) as [storedRequests | e]; cbn [snd];
      [| by rewrite Hrr].
    destruct (keeps_processRideRequests storedRequests (after_query w outcome r'))
      as (Hk & _).
    destruct (processRideRequests storedRequests (after_query w outcome r'))
      as [[typed | e] w2] eqn:E; cbn [snd] in *; [| by rewrite Hk, Hrr].
    apply processRideRequests_statuses in E.
    destruct typed as [| r l]; [constructor |].
    destruct (backfill_total_keeps (r :: l)) as [_ Hkeep].
    destruct (Hkeep (set_rideRequests (r :: l) w2)) as (-> & _). exact E.
Qed.

(** A load that completes has set the list anew, whatever was shown
    before. *)
Lemma loadRideRequests_establishes (w : World R) :
  (loadRideRequests w).1 = Normal tt -> statuses_valid (loadRideRequests w).2.
Proof.
  unfold statuses_valid.
  destruct (select_all (store w)) as [outcome r'] eqn:Hsel.
  assert (Hcases : (exists resp rows, outcome = Normal resp /\ has_rows resp = Some rows)
                   \/ unavailable outcome).
  { destruct outcome as [resp | e]; [| by right].
    destruct (has_rows resp) as [rows |] eqn:E; [left; eauto |].
    right. by apply has_rows_None_inv. }
  destruct Hcases as [(resp & rows & -> & Hrows) | Hun].
  - rewrite (loadRideRequests_rows _ _ _ _ Hsel Hrows). cbn. intros _.
    apply mapped_rows_statuses.
  - rewrite (loadRideRequests_unavailable _ _ _ Hsel Hun). cbv zeta.
    destruct (JSON_parse (cached_text w)) as [storedRequests | e]; cbn [fst snd];
      [| discriminate].
    destruct (processRideRequests storedRequests (after_query w outcome r'))
      as [[typed | e] w2] eqn:E; cbn [fst snd]; [| discriminate].
    apply processRideRequests_statuses in E. intros _.
    destruct typed as [| r l]; [constructor |].
    destruct (backfill_total_keeps (r :: l)) as [_ Hkeep].
    destruct (Hkeep (set_rideRequests (r :: l) w2)) as (-> & _). exact E.
Qed.

Lemma reachable_statuses (w : World R) : reachable w -> statuses_valid w.
Proof.
  induction 1 as [w Hw | w w' _ IH Hstep].
  - unfold statuses_valid. rewrite Hw. constructor.
  - destruct Hstep as [w | w requestId action | w w' Heq].
    + by apply loadRideRequests_statuses.
    + unfold statuses_valid.
      destruct (handleRideAction_run w requestId action) as (_ & -> & _).
      by apply updateRequests_statuses.
    + unfold statuses_valid. rewrite Heq. exact IH.
Qed.

(** C10. Whatever loads and actions have run since the page was
    mounted, with whatever the cache and the hosted store held and
    did, every entry of the displayed list has a status among pending,
    accepted, completed and declined: a load that completes, in
    either branch, sets a list of such entries, and an action keeps
    the list so. In particular a remote row whose
    status is rejected, or any string other than accepted, completed
    and declined, is shown as pending. *)
Theorem status_stays_in_enumeration :
  (forall w : World R, reachable w ->
     Forall (fun r => valid_status (status r)) (rideRequests w)) /\
  (forall w : World R, (loadRideRequests w).1 = Normal tt ->
     Forall (fun r => valid_status (status r)) (rideRequests (loadRideRequests w).2)) /\
  (forall (w : World R) requestId action,
     Forall (fun r => valid_status (status r)) (rideRequests w) ->
     Forall (fun r => valid_status (status r))
       (rideRequests (handleRideAction requestId action w).2)) /\
  (forall (w : World R) r w' row,
     formatDbRequest row w = (Normal r, w') ->
     db_status row <> js "accepted" -> db_status row <> js "completed" ->
     db_status row <> js "declined" ->
     status r = JString (js "pending")) /\
  (forall d t row, db_status row = js "rejected" ->
     status (mapped_row d t row) = JString (js "pending")).
Proof.
  split; [exact reachable_statuses |].
  split; [exact loadRideRequests_establishes |].
  split.
  { intros w requestId action H.
    destruct (handleRideAction_run w requestId action) as (_ & -> & _).
    by apply updateRequests_statuses. }
  split.
  - intros w r w' row Hrun Ha Hc Hd.
    rewrite formatDbRequest_run in Hrun.
    assert (Hst : validateStatus (JString (db_status row)) = JString (js "pending")).
    { rewrite validateStatus_cases.
      apply jseqb_false in Ha, Hc, Hd. by rewrite Ha, Hc, Hd. }
    destruct (created row); injection Hrun as <- _; exact Hst.
  - intros d t row H. cbn. by rewrite H.
Qed.

(** *** What is caught and what is logged *)










Lemma loadRideRequests_total (w : World R) :
  cache_is_list w -> (loadRideRequests w).1 = Normal tt.
Proof.
  intros (entries & Hparse & Hall).
  destruct (select_all (store w)) as [outcome r'] eqn:Hsel.
  assert (Hcases : (exists resp rows, outcome = Normal resp /\ has_rows resp = Some rows)
                   \/ unavailable outcome).
  { destruct outcome as [resp | e]; [| by right].
    destruct (has_rows resp) as [rows |] eqn:E; [left; eauto |].
    right. by apply has_rows_None_inv. }
  destruct Hcases as [(resp & rows & -> & Hrows) | Hun].
  - by rewrite (loadRideRequests_rows _ _ _ _ Hsel Hrows).
  - by apply (loadRideRequests_fallback_list w outcome r' entries).
Qed.


End Theory.

(** * The component against the hosted table *)

Section HostedTheory.
Context `{P : Platform}.
Local Existing Instance hosted.

Lemma hosted_call_works {D} (work : list DbRow -> Response D * list DbRow) h :
  fault_free h ->
  hosted_call work h =
    (Normal (work (table h)).1,
     {| table := (work (table h)).2; script := tail (script h) |}).
Proof.
  unfold fault_free, hosted_call. intros Hff.
  destruct (script h) as [| f rest].
  - by destruct (work (table h)).
  - apply Forall_cons in Hff as [-> _]. by destruct (work (table h)).
Qed.

Lemma fault_free_tail h rows :
  fault_free h -> fault_free {| table := rows; script := tail (script h) |}.
Proof.
  unfold fault_free. cbn. destruct (script h) as [| f rest]; [done |].
  intros H. by apply Forall_cons in H as [_ H].
Qed.

Lemma filter_absent i rows :
  i ∉ map db_id rows -> List.filter (has_id (JString i)) rows = [].
Proof.
  induction rows as [| row rows IH]; [reflexivity |].
  cbn. intros Hnot. apply not_elem_of_cons in Hnot as [Hne Hnot].
  unfold has_id at 1. cbn. destruct (jseqb i (db_id row)) eqn:E.
  - apply jseqb_true in E. contradiction.
  - by apply IH.
Qed.

Lemma filter_has_id v rows :
  unique_ids rows ->
  match List.filter (has_id v) rows with
  | [] => in_table v rows = false
  | [_] => in_table v rows = true
  | _ :: _ :: _ => False
  end.
Proof.
  unfold unique_ids, in_table.
  induction rows as [| row rows IH]; [reflexivity |].
  cbn. intros Hnd. apply NoDup_cons in Hnd as [Hnot Hnd].
  destruct (has_id v row) eqn:E; cbn.
  - apply strict_eq_str_true in E. subst v. by rewrite (filter_absent _ _ Hnot).
  - by apply IH.
Qed.

Lemma in_table_false i rows :
  in_table (JString i) rows = false -> i ∉ map db_id rows.
Proof.
  unfold in_table. induction rows as [| row rows IH]; cbn.
  - intros _. apply not_elem_of_nil.
  - intros H. apply orb_false_elim in H as [H1 H2].
    apply not_elem_of_cons. split; [| by apply IH].
    unfold has_id in H1. cbn in H1. apply jseqb_false in H1. congruence.
Qed.

Lemma row_of_insert_id row new :
  row_of_insert row = Some new -> ins_id row = JString (db_id new).
Proof.
  unfold row_of_insert.
  destruct (ins_id row), (ins_pickup_location row), (ins_destination row),
    (ins_status row); try discriminate.
  by intros [= <-].
Qed.

Lemma unique_after_insert rows row :
  unique_ids rows -> unique_ids (rows_after_insert rows row).
Proof.
  unfold rows_after_insert. intros Hu.
  destruct (row_of_insert row) as [new |] eqn:E; [| exact Hu].
  destruct (in_table (ins_id row) rows) eqn:Hin; [exact Hu |].
  rewrite (row_of_insert_id _ _ E) in Hin. apply in_table_false in Hin.
  unfold unique_ids. rewrite map_app. cbn. apply NoDup_app.
  split; [exact Hu |]. split; [| apply NoDup_singleton].
  intros x Hx Hx'. apply list_elem_of_singleton in Hx'. by subst x.
Qed.


Lemma hosted_select_id_works h v :
  fault_free h -> unique_ids (table h) ->
  exists resp,
    hosted_select_id v h =
      (Normal resp, {| table := table h; script := tail (script h) |}) /\
    data resp = (if in_table v (table h) then Some (text_of v) else None).
Proof.
  intros Hff Hu. unfold hosted_select_id. rewrite (hosted_call_works _ _ Hff). cbn.
  eexists. split; [reflexivity |].
  pose proof (filter_has_id v _ Hu) as Hf.
  destruct (List.filter (has_id v) (table h)) as [| row [| row' l]] eqn:E.
  - by rewrite Hf.
  - rewrite Hf. cbn. f_equal.
    assert (Hin : In row (List.filter (has_id v) (table h))) by (rewrite E; by left).
    apply filter_In in Hin as [_ Hin]. apply strict_eq_str_true in Hin. by subst v.
  - contradiction.
Qed.

Lemma hosted_insert_works h row :
  fault_free h ->
  exists resp,
    hosted_insert row h =
      (Normal resp,
       {| table := rows_after_insert (table h) row; script := tail (script h) |}).
Proof.
  intros Hff. unfold hosted_insert. rewrite (hosted_call_works _ _ Hff).
  unfold rows_after_insert, in_table.
  destruct (row_of_insert row); [| by eexists].
  destruct (existsb (has_id (ins_id row)) (table h)); by eexists.
Qed.

Lemma syncRideRequest_works (w : World Hosted) request s :
  fault_free (store w) ->
  unique_ids (table (store w)) ->
  studentEmail request = JString s ->
  exists w1,
    syncRideRequest request w = (Normal tt, w1) /\
    clock w1 = clock w /\
    fault_free (store w1) /\
    unique_ids (table (store w1)) /\
    if in_table (id request) (table (store w))
    then calls w1 = calls w ++ [CallSelectId (id request)] /\
         reads w1 = reads w /\
         table (store w1) = table (store w)
    else
      let row :=
        derived_insert (clock w (reads w)) (clock w (S (reads w))) request s in
      calls w1 = calls w ++ [CallSelectId (id request); CallInsert row] /\
      reads w1 = S (S (reads w)) /\
      table (store w1) = rows_after_insert (table (store w)) row.
Proof.
  intros Hff Hu Hmail.
  destruct (hosted_select_id_works (store w) (id request) Hff Hu) as (resp & Hsel & Hdata).
  unfold syncRideRequest, bind at 1, remote. cbn [select_id hosted].
  rewrite Hsel, Hdata.
  destruct (in_table (id request) (table (store w))) eqn:Hin.
  - eexists. split; [reflexivity |]. cbn.
    repeat split; try reflexivity; try assumption.
    by apply fault_free_tail.
  - rewrite Hmail. unfold bind at 1, lift, email_prefix.
    unfold bind at 1, Date_now. unfold bind at 1. unfold bind at 1, remote.
    cbn [insert_row hosted store set_store set_calls set_reads].
    match goal with |- context [hosted_insert ?row ?h] =>
      destruct (hosted_insert_works h row) as (resp' & Hins);
        [by apply fault_free_tail |]; rewrite Hins end.
    eexists. split; [reflexivity |]. cbn.
    split; [reflexivity |].
    split; [apply (fault_free_tail {| table := []; script := tail (script (store w)) |});
            by apply fault_free_tail |].
    split; [by apply unique_after_insert |].
    split; [by rewrite <- app_assoc |]. split; reflexivity.
Qed.


(** *** The plan of the backfill *)








End HostedTheory.

(** * JSON.parse after JSON.stringify *)

Section RoundTrip.
Context `{P : Platform}.

Ltac Zify.zify_post_hook ::= Z.to_euclidean_division_equations.

Lemma hex_value_digit d : d < 16 -> hex_value (hex_digit d) = Some d.
Proof.
  intros H. unfold hex_digit, hex_value, is_digit.
  destruct (N.ltb_spec d 10).
  - replace ((48 <=? 48 + d) && (48 + d <=? 57)) with true.
    + f_equal. lia.
    + symmetry. apply andb_true_intro. split; apply N.leb_le; lia.
  - replace ((48 <=? 87 + d) && (87 + d <=? 57)) with false.
    + replace ((97 <=? 87 + d) && (87 + d <=? 102)) with true.
      * f_equal. lia.
      * symmetry. apply andb_true_intro. split; apply N.leb_le; lia.
    + symmetry. apply andb_false_intro2. apply N.leb_gt. lia.
Qed.

Lemma hex4_escape c :
  c < 65536 ->
  hex4 (hex_digit (c / 4096 mod 16)) (hex_digit (c / 256 mod 16))
       (hex_digit (c / 16 mod 16)) (hex_digit (c mod 16)) = Some c.
Proof.
  intros H. unfold hex4. rewrite !hex_value_digit by lia. f_equal. lia.
Qed.

Lemma parse_unicode_escape c tail t rest :
  c < 65536 ->
  parse_chars tail = Some (t, rest) ->
  parse_chars (unicode_escape c ++ tail) = Some (c :: t, rest).
Proof.
  intros Hc Htail. unfold unicode_escape. cbn [app parse_chars].
  cbn [N.eqb Pos.eqb orb]. rewrite (hex4_escape c Hc), Htail. reflexivity.
Qed.

Lemma parse_plain_unit c tail t rest :
  c <> 34 -> c <> 92 -> 32 <= c ->
  parse_chars tail = Some (t, rest) ->
  parse_chars (c :: tail) = Some (c :: t, rest).
Proof.
  intros H1 H2 H3 Htail. cbn [parse_chars].
  apply N.eqb_neq in H1, H2. rewrite H1, H2.
  replace (c <? 32) with false by (symmetry; apply N.ltb_ge; exact H3).
  by rewrite Htail.
Qed.

Lemma parse_quote_unit c tail t rest :
  parse_chars tail = Some (t, rest) ->
  parse_chars (quote_unit c ++ tail) = Some (c :: t, rest).
Proof.
  intros Htail. unfold quote_unit.
  destruct (N.eqb_spec c 34) as [-> | H34]; [cbn; by rewrite Htail |].
  destruct (N.eqb_spec c 92) as [-> | H92]; [cbn; by rewrite Htail |].
  destruct (N.eqb_spec c 8) as [-> | H8]; [cbn; by rewrite Htail |].
  destruct (N.eqb_spec c 9) as [-> | H9]; [cbn; by rewrite Htail |].
  destruct (N.eqb_spec c 10) as [-> | H10]; [cbn; by rewrite Htail |].
  destruct (N.eqb_spec c 12) as [-> | H12]; [cbn; by rewrite Htail |].
  destruct (N.eqb_spec c 13) as [-> | H13]; [cbn; by rewrite Htail |].
  destruct (N.ltb_spec c 32) as [Hlt | Hge].
  { apply parse_unicode_escape; [lia | exact Htail]. }
  destruct (is_high_surrogate c || is_low_surrogate c) eqn:Hs.
  - apply parse_unicode_escape; [| exact Htail].
    unfold is_high_surrogate, is_low_surrogate in Hs.
    apply orb_true_iff in Hs as [Hs | Hs]; apply andb_true_iff in Hs as [_ Hs];
      apply N.leb_le in Hs; lia.
  - by apply parse_plain_unit.
Qed.

Lemma surrogate_is_plain c :
  is_high_surrogate c = true \/ is_low_surrogate c = true ->
  c <> 34 /\ c <> 92 /\ 32 <= c.
Proof.
  unfold is_high_surrogate, is_low_surrogate.
  intros [H | H]; apply andb_true_iff in H as [H _]; apply N.leb_le in H; lia.
Qed.

Lemma quote_units_cons2 c d r :
  quote_units (c :: d :: r) =
    if is_high_surrogate c && is_low_surrogate d
    then c :: d :: quote_units r
    else quote_unit c ++ quote_units (d :: r).
Proof. reflexivity. Qed.

Lemma parse_quote_units_upto n : forall s rest,
  (length s <= n)%nat ->
  parse_chars (quote_units s ++ 34 :: rest) = Some (s, rest).
Proof.
  induction n as [| n IH]; intros s rest Hlen.
  - destruct s; [reflexivity | cbn in Hlen; lia].
  - destruct s as [| c [| d r]]; [reflexivity | |].
    + cbn [quote_units]. by apply parse_quote_unit.
    + rewrite quote_units_cons2.
      destruct (is_high_surrogate c && is_low_surrogate d) eqn:Hpair.
      * apply andb_true_iff in Hpair as [Hc Hd].
        destruct (surrogate_is_plain c (or_introl Hc)) as (? & ? & ?).
        destruct (surrogate_is_plain d (or_intror Hd)) as (? & ? & ?).
        cbn [app]. apply parse_plain_unit; try assumption.
        apply parse_plain_unit; try assumption.
        apply IH. cbn in Hlen. lia.
      * rewrite <- app_assoc. apply parse_quote_unit. apply IH. cbn in Hlen |- *. lia.
Qed.

(** A quoted string reads back as the string. *)
Lemma parse_quote s rest : parse_chars (quote_units s ++ 34 :: rest) = Some (s, rest).
Proof. by apply (parse_quote_units_upto (length s)). Qed.

(** *** Values *)

Lemma JsValue_nested_ind (Q : JsValue -> Prop) :
  Q JUndefined -> Q JNull -> (forall b, Q (JBool b)) -> (forall n, Q (JNumber n)) ->
  (forall s, Q (JString s)) ->
  (forall elems, Forall Q elems -> Q (JArray elems)) ->
  (forall props, Forall (fun kv => Q kv.2) props -> Q (JObject props)) ->
  forall v, Q v.
Proof.
  intros Hu Hn Hb Hnum Hs Ha Ho.
  fix IH 1. intros [| | b | n | s | elems | props].
  - exact Hu.
  - exact Hn.
  - apply Hb.
  - apply Hnum.
  - apply Hs.
  - apply Ha. induction elems as [| e elems IHl]; constructor; [apply IH | exact IHl].
  - apply Ho. induction props as [| [k e] props IHl]; constructor; [apply IH | exact IHl].
Qed.

Lemma plain_json_text v : plain v -> json_text v = Some (text v).
Proof. unfold text. by intros [| [] | | |]. Qed.

(** A plain value is written with a first unit that is neither white
    space nor a closing bracket. *)
Lemma text_head v :
  plain v ->
  exists c tl,
    text v = c :: tl /\ is_ws c = false /\ (c =? 93) = false /\ (c =? 125) = false.
Proof.
  unfold text. intros [| [] | s | elems H | props H1 H2]; cbn;
    eexists _, _; (split; [reflexivity | by vm_compute]).
Qed.

Lemma skip_ws_head c tl : is_ws c = false -> skip_ws (c :: tl) = c :: tl.
Proof. intros H. cbn. by rewrite H. Qed.

Lemma join_cons2 (sep p q : jsstring) ps :
  join sep (p :: q :: ps) = p ++ sep ++ join sep (q :: ps).
Proof. reflexivity. Qed.

Lemma parse_elements_texts elems :
  elems <> [] ->
  Forall (fun v => forall fuel rest,
            (length (text v) <= fuel)%nat ->
            parse_value fuel (text v ++ rest) = Some (v, rest)) elems ->
  forall fuel rest,
    (length (join [44%N] (map text elems)) < fuel)%nat ->
    parse_elements fuel (join [44] (map text elems) ++ 93 :: rest) = Some (elems, rest).
Proof.
  induction elems as [| x [| y l] IH]; intros Hne Hall fuel rest Hfuel; [done | |].
  - apply Forall_cons in Hall as [Hx _]. cbn [map join] in *.
    destruct fuel as [| fuel]; [lia |]. cbn [parse_elements].
    rewrite Hx by lia. reflexivity.
  - apply Forall_cons in Hall as [Hx Hall].
    cbn [map] in *. rewrite join_cons2 in *. rewrite !length_app in Hfuel.
    destruct fuel as [| fuel]; [lia |]. cbn [parse_elements].
    rewrite <- !app_assoc. rewrite Hx by lia. cbn [app skip_ws is_ws N.eqb Pos.eqb orb].
    rewrite IH; [reflexivity | done | exact Hall |]. cbn [length] in Hfuel. lia.
Qed.

Lemma member_text_unfold k x :
  member_text (k, x) = 34 :: quote_units k ++ 34 :: 58 :: text x.
Proof. unfold member_text, quote. cbn. by rewrite <- app_assoc. Qed.

Lemma length_unit (c : N) (s : jsstring) : length (c :: s) = S (length s).
Proof. reflexivity. Qed.

Lemma parse_members_texts props :
  props <> [] ->
  Forall (fun kv => forall fuel rest,
            (length (text kv.2) <= fuel)%nat ->
            parse_value fuel (text kv.2 ++ rest) = Some (kv.2, rest)) props ->
  forall fuel rest,
    (length (join [44%N] (map member_text props)) < fuel)%nat ->
    parse_members fuel (join [44] (map member_text props) ++ 125 :: rest)
      = Some (props, rest).
Proof.
  induction props as [| [k x] [| y l] IH]; intros Hne Hall fuel rest Hfuel; [done | |].
  - apply Forall_cons in Hall as [Hx _]. cbn [map join fst snd] in *.
    rewrite member_text_unfold in *.
    repeat (rewrite length_app in Hfuel || rewrite length_unit in Hfuel).
    destruct fuel as [| fuel]; [lia |].
    cbn [parse_members app skip_ws is_ws N.eqb Pos.eqb orb negb].
    rewrite <- !app_assoc. cbn [app]. rewrite parse_quote.
    cbn [skip_ws is_ws N.eqb Pos.eqb orb negb].
    rewrite Hx by (clear - Hfuel; lia). reflexivity.
  - apply Forall_cons in Hall as [Hx Hall].
    cbn [map fst snd] in *. rewrite join_cons2 in *.
    rewrite member_text_unfold in *.
    repeat (rewrite length_app in Hfuel || rewrite length_unit in Hfuel).
    destruct fuel as [| fuel]; [lia |].
    cbn [parse_members app skip_ws is_ws N.eqb Pos.eqb orb negb].
    rewrite <- !app_assoc. cbn [app]. rewrite parse_quote.
    cbn [skip_ws is_ws N.eqb Pos.eqb orb negb].
    rewrite Hx by (clear - Hfuel; lia).
    cbn [app skip_ws is_ws N.eqb Pos.eqb orb].
    rewrite IH; [reflexivity | done | exact Hall |]. clear - Hfuel. lia.
Qed.

Lemma obj_set_fresh k v props :
  k ∉ map fst props -> obj_set k v props = props ++ [(k, v)].
Proof.
  induction props as [| [k' v'] props IH]; [reflexivity |].
  cbn. intros H. apply not_elem_of_cons in H as [Hne H].
  destruct (jseqb k' k) eqn:E; [apply jseqb_true in E; congruence |].
  by rewrite IH.
Qed.

Lemma fold_obj_set props : forall acc,
  NoDup (map fst (acc ++ props)) ->
  fold_left (fun acc kv => obj_set kv.1 kv.2 acc) props acc = acc ++ props.
Proof.
  induction props as [| [k v] props IH]; intros acc Hnd; cbn [fold_left].
  - by rewrite app_nil_r.
  - cbn [fst snd]. rewrite obj_set_fresh.
    + rewrite IH; rewrite <- app_assoc; [reflexivity | exact Hnd].
    + rewrite map_app in Hnd. apply NoDup_app in Hnd as (_ & Hnd & _).
      intros Hk. apply (Hnd k Hk). cbn. by left.
Qed.

Lemma object_of_distinct props : NoDup (map fst props) -> object_of props = JObject props.
Proof. intros H. unfold object_of. by rewrite (fold_obj_set props []). Qed.

Lemma plain_members props :
  Forall (fun kv => plain kv.2) props ->
  omap (fun kv => (fun t => quote kv.1 ++ 58 :: t) <$> json_text kv.2) props
    = map member_text props.
Proof.
  induction 1 as [| [k v] props Hv _ IH]; [reflexivity |].
  unfold omap in *. cbn [list_omap map snd fst] in *.
  rewrite (plain_json_text _ Hv). cbn [fmap option_fmap option_map].
  by rewrite IH.
Qed.

Lemma text_string s : text (JString s) = 34 :: quote_units s ++ [34].
Proof. reflexivity. Qed.

Lemma text_array elems : text (JArray elems) = 91 :: join [44] (map text elems) ++ [93].
Proof. reflexivity. Qed.

Lemma text_object props :
  Forall (fun kv => plain kv.2) props ->
  text (JObject props) = 123 :: join [44] (map member_text props) ++ [125].
Proof. intros H. unfold text. cbn [json_text]. by rewrite (plain_members _ H). Qed.

(** A plain value, written and read, is the value; what follows it is
    left to read. *)
Lemma parse_value_text v :
  plain v ->
  forall fuel rest,
    (length (text v) <= fuel)%nat ->
    parse_value fuel (text v ++ rest) = Some (v, rest).
Proof.
  induction v as [| | b | n | s | elems IH | props IH] using JsValue_nested_ind;
    intros Hplain fuel rest Hfuel; inversion Hplain; subst.
  - destruct fuel; [vm_compute in Hfuel; lia |]. reflexivity.
  - destruct fuel; [destruct b; vm_compute in Hfuel; lia |]. by destruct b.
  - rewrite text_string in *.
    destruct fuel; [cbn in Hfuel; lia |].
    cbn [parse_value app skip_ws is_ws N.eqb Pos.eqb orb].
    rewrite <- app_assoc. cbn [app]. by rewrite parse_quote.
  - rewrite text_array in *.
    destruct fuel as [| fuel]; [cbn in Hfuel; lia |].
    destruct elems as [| x l]; [reflexivity |].
    assert (Hall : Forall (fun v => forall fuel rest,
              (length (text v) <= fuel)%nat ->
              parse_value fuel (text v ++ rest) = Some (v, rest)) (x :: l)).
    { apply Forall_forall. intros v Hv.
      rewrite Forall_forall in IH. apply IH; [exact Hv |].
      match goal with H : Forall plain _ |- _ => rewrite Forall_forall in H; by apply H end. }
    assert (Hx : plain x).
    { match goal with H : Forall plain _ |- _ => by apply Forall_cons in H as [H _] end. }
    destruct (text_head x Hx) as (c & tl & Hc & Hws & H93 & _).
    rewrite length_unit, length_app in Hfuel. cbn [length] in Hfuel.
    cbn [parse_value app skip_ws is_ws N.eqb Pos.eqb orb].
    rewrite <- app_assoc. cbn [app].
    rewrite (parse_elements_texts (x :: l)) by (done || (clear - Hfuel; lia)).
    destruct l as [| y l]; cbn [map join app]; rewrite Hc; cbn [app];
      rewrite (skip_ws_head _ _ Hws), H93; reflexivity.
  - match goal with H : Forall (fun kv => plain kv.2) _ |- _ =>
      rewrite (text_object _ H) in *; rename H into Hvals end.
    destruct fuel as [| fuel]; [cbn in Hfuel; lia |].
    destruct props as [| [k x] l]; [reflexivity |].
    assert (Hall : Forall (fun kv => forall fuel rest,
              (length (text kv.2) <= fuel)%nat ->
              parse_value fuel (text kv.2 ++ rest) = Some (kv.2, rest)) ((k, x) :: l)).
    { apply Forall_forall. intros kv Hkv.
      rewrite Forall_forall in IH. apply IH; [exact Hkv |].
      rewrite Forall_forall in Hvals. by apply Hvals. }
    rewrite length_unit, length_app in Hfuel. cbn [length] in Hfuel.
    cbn [parse_value app skip_ws is_ws N.eqb Pos.eqb orb].
    rewrite <- app_assoc. cbn [app].
    rewrite (parse_members_texts ((k, x) :: l)) by (done || (clear - Hfuel; lia)).
    rewrite object_of_distinct by assumption.
    destruct l as [| y l]; cbn [map join app]; rewrite member_text_unfold;
      cbn [app skip_ws is_ws N.eqb Pos.eqb orb]; reflexivity.
Qed.

(** JSON.parse(JSON.stringify(v)) is v, for a plain v. *)
Lemma JSON_parse_stringify v : plain v -> JSON_parse (JSON_stringify v) = Normal v.
Proof.
  intros Hv. unfold JSON_parse, JSON_stringify.
  rewrite (plain_json_text _ Hv).
  change (default (js "undefined") (Some (text v))) with (text v).
  rewrite <- (app_nil_r (text v)) at 2.
  rewrite (parse_value_text v Hv) by lia. reflexivity.
Qed.

End RoundTrip.

(** * The fuel of JSON.parse *)

Section Fuel.
Context `{P : Platform}.

Lemma skip_ws_length s : (length (skip_ws s) <= length s)%nat.
Proof.
  induction s as [| c s IH]; [done |]. cbn [skip_ws].
  destruct (is_ws c); cbn [length]; lia.
Qed.

Lemma parse_chars_upto n : forall s t rest,
  (length s <= n)%nat ->
  parse_chars s = Some (t, rest) -> (length rest < length s)%nat.
Proof.
  induction n as [| n IH]; intros s t rest Hn H.
  - destruct s; [discriminate | cbn in Hn; lia].
  - destruct s as [| c r]; [discriminate |]. cbn [parse_chars] in H. cbn [length] in *.
    repeat case_match; simplify_eq; cbn [length] in *; try lia;
      match goal with
      | Hp : parse_chars ?x = Some (_, ?y) |- _ =>
          apply IH in Hp; [cbn [length] in *; lia | cbn [length] in *; lia]
      end.
Qed.

Lemma parse_chars_length s t rest :
  parse_chars s = Some (t, rest) -> (length rest < length s)%nat.
Proof. by apply (parse_chars_upto (length s)). Qed.

Lemma span_digits_length s : forall ds rest,
  span_digits s = (ds, rest) -> (length rest <= length s)%nat.
Proof.
  induction s as [| c s IH]; intros ds rest H; cbn [span_digits] in H.
  - by simplify_eq.
  - destruct (is_digit c); [| simplify_eq; done].
    destruct (span_digits s) as [ds' rest'] eqn:E. simplify_eq.
    specialize (IH _ _ eq_refl). cbn [length]. lia.
Qed.

Lemma strip_prefix_length p : forall s rest,
  strip_prefix p s = Some rest -> (length rest <= length s)%nat.
Proof.
  induction p as [| a p IH]; intros s rest H; cbn [strip_prefix] in H.
  - by simplify_eq.
  - destruct s as [| b s]; [discriminate |]. destruct (a =? b); [| discriminate].
    apply IH in H. cbn [length]. lia.
Qed.

Lemma lex_number_length s lit rest :
  lex_number s = Some (lit, rest) -> (length rest < length s)%nat.
Proof.
  unfold lex_number. intros H.
  repeat case_match; simplify_eq;
    repeat match goal with
           | Hs : span_digits _ = _ |- _ => apply span_digits_length in Hs
           end;
    cbn [length] in *; lia.
Qed.


Lemma parse_fuel fuel :
  (forall s v rest,
     parse_value fuel s = Some (v, rest) ->
     (length rest < length s)%nat /\
     forall fuel', (length s - length rest <= fuel')%nat ->
                   parse_value fuel' s = Some (v, rest)) /\
  (forall s vs rest,
     parse_elements fuel s = Some (vs, rest) ->
     (length rest < length s)%nat /\
     forall fuel', (length s - length rest <= fuel')%nat ->
                   parse_elements fuel' s = Some (vs, rest)) /\
  (forall s ms rest,
     parse_members fuel s = Some (ms, rest) ->
     (length rest < length s)%nat /\
     forall fuel', (length s - length rest <= fuel')%nat ->
                   parse_members fuel' s = Some (ms, rest)).
Proof.
  induction fuel as [| f (IHv & IHe & IHm)]; [by repeat split |].
  split; [| split].
  - intros s v rest H. cbn [parse_value] in H.
    pose proof (skip_ws_length s) as Hws.
    destruct (skip_ws s) as [| c r] eqn:Hs; [discriminate |]. cbn [length] in Hws.
    destruct (c =? 34) eqn:E1.
    { destruct (parse_chars r) as [[t rest0] |] eqn:Hp; [| discriminate]. simplify_eq.
      pose proof (parse_chars_length _ _ _ Hp).
      split; [lia |]. intros [| f'] Hf; [lia |].
      cbn [parse_value]. by rewrite Hs, E1, Hp. }
    destruct (c =? 91) eqn:E2.
    { pose proof (skip_ws_length r) as Hws2.
      destruct (skip_ws r) as [| d r'] eqn:Hs2; [discriminate |]. cbn [length] in Hws2.
      destruct (d =? 93) eqn:E3.
      - simplify_eq. split; [lia |]. intros [| f'] Hf; [lia |].
        cbn [parse_value]. by rewrite Hs, E1, E2, Hs2, E3.
      - destruct (parse_elements f r) as [[vs rest0] |] eqn:He; [| discriminate].
        simplify_eq. destruct (IHe _ _ _ He) as [Hl Hf0].
        split; [lia |]. intros [| f'] Hf; [lia |].
        cbn [parse_value]. rewrite Hs, E1, E2, Hs2, E3, (Hf0 f') by lia. reflexivity. }
    destruct (c =? 123) eqn:E4.
    { pose proof (skip_ws_length r) as Hws2.
      destruct (skip_ws r) as [| d r'] eqn:Hs2; [discriminate |]. cbn [length] in Hws2.
      destruct (d =? 125) eqn:E3.
      - simplify_eq. split; [lia |]. intros [| f'] Hf; [lia |].
        cbn [parse_value]. by rewrite Hs, E1, E2, E4, Hs2, E3.
      - destruct (parse_members f r) as [[ms rest0] |] eqn:He; [| discriminate].
        simplify_eq. destruct (IHm _ _ _ He) as [Hl Hf0].
        split; [lia |]. intros [| f'] Hf; [lia |].
        cbn [parse_value]. rewrite Hs, E1, E2, E4, Hs2, E3, (Hf0 f') by lia. reflexivity. }
    destruct (c =? 110) eqn:E5.
    { destruct (strip_prefix (js "ull") r) as [rest0 |] eqn:Hp; [| discriminate].
      simplify_eq. pose proof (strip_prefix_length _ _ _ Hp).
      split; [lia |]. intros [| f'] Hf; [lia |].
      cbn [parse_value]. by rewrite Hs, E1, E2, E4, E5, Hp. }
    destruct (c =? 116) eqn:E6.
    { destruct (strip_prefix (js "rue") r) as [rest0 |] eqn:Hp; [| discriminate].
      simplify_eq. pose proof (strip_prefix_length _ _ _ Hp).
      split; [lia |]. intros [| f'] Hf; [lia |].
      cbn [parse_value]. by rewrite Hs, E1, E2, E4, E5, E6, Hp. }
    destruct (c =? 102) eqn:E7.
    { destruct (strip_prefix (js "alse") r) as [rest0 |] eqn:Hp; [| discriminate].
      simplify_eq. pose proof (strip_prefix_length _ _ _ Hp).
      split; [lia |]. intros [| f'] Hf; [lia |].
      cbn [parse_value]. by rewrite Hs, E1, E2, E4, E5, E6, E7, Hp. }
    destruct (lex_number (c :: r)) as [[lit rest0] |] eqn:Hp; [| discriminate].
    simplify_eq. pose proof (lex_number_length _ _ _ Hp) as Hl. cbn [length] in Hl.
    split; [lia |]. intros [| f'] Hf; [lia |].
    cbn [parse_value]. by rewrite Hs, E1, E2, E4, E5, E6, E7, Hp.
  - intros s vs rest H. cbn [parse_elements] in H.
    destruct (parse_value f s) as [[v r] |] eqn:Hv; [| discriminate].
    destruct (IHv _ _ _ Hv) as [Hl1 Hf1].
    pose proof (skip_ws_length r) as Hws.
    destruct (skip_ws r) as [| d r'] eqn:Hs; [discriminate |]. cbn [length] in Hws.
    destruct (d =? 44) eqn:E1.
    { destruct (parse_elements f r') as [[vs' rest0] |] eqn:He; [| discriminate].
      simplify_eq. destruct (IHe _ _ _ He) as [Hl2 Hf2].
      split; [lia |]. intros [| f'] Hf; [lia |].
      cbn [parse_elements]. rewrite (Hf1 f') by lia. rewrite Hs, E1, (Hf2 f') by lia.
      reflexivity. }
    destruct (d =? 93) eqn:E2; [| discriminate]. simplify_eq.
    split; [lia |]. intros [| f'] Hf; [lia |].
    cbn [parse_elements]. rewrite (Hf1 f') by lia. by rewrite Hs, E1, E2.
  - intros s ms rest H. cbn [parse_members] in H.
    pose proof (skip_ws_length s) as Hws0.
    destruct (skip_ws s) as [| q r0] eqn:Hs0; [discriminate |]. cbn [length] in Hws0.
    destruct (negb (q =? 34)) eqn:Eq; [discriminate |].
    destruct (parse_chars r0) as [[k r1] |] eqn:Hk; [| discriminate].
    pose proof (parse_chars_length _ _ _ Hk) as Hlk.
    pose proof (skip_ws_length r1) as Hws1.
    destruct (skip_ws r1) as [| colon r2] eqn:Hs1; [discriminate |]. cbn [length] in Hws1.
    destruct (negb (colon =? 58)) eqn:Ec; [discriminate |].
    destruct (parse_value f r2) as [[v r3] |] eqn:Hv; [| discriminate].
    destruct (IHv _ _ _ Hv) as [Hl1 Hf1].
    pose proof (skip_ws_length r3) as Hws.
    destruct (skip_ws r3) as [| d r'] eqn:Hs; [discriminate |]. cbn [length] in Hws.
    destruct (d =? 44) eqn:E1.
    { destruct (parse_members f r') as [[ms' rest0] |] eqn:He; [| discriminate].
      simplify_eq. destruct (IHm _ _ _ He) as [Hl2 Hf2].
      split; [lia |]. intros [| f'] Hf; [lia |].
      cbn [parse_members]. rewrite Hs0, Eq, Hk, Hs1, Ec, (Hf1 f') by lia.
      rewrite Hs, E1, (Hf2 f') by lia. reflexivity. }
    destruct (d =? 125) eqn:E2; [| discriminate]. simplify_eq.
    split; [lia |]. intros [| f'] Hf; [lia |].
    cbn [parse_members]. rewrite Hs0, Eq, Hk, Hs1, Ec, (Hf1 f') by lia.
    by rewrite Hs, E1, E2.
Qed.

(** Whatever fuel reads a value off [s] reads it with the fuel that
    [JSON_parse] gives itself: an error of [JSON_parse] is an error of
    syntax, never a lack of fuel. *)
Lemma JSON_parse_fuel fuel s v rest :
  parse_value fuel s = Some (v, rest) ->
  parse_value (S (length s)) s = Some (v, rest).
Proof.
  intros H. destruct (parse_fuel fuel) as (Hv & _).
  destruct (Hv _ _ _ H) as [_ Hf]. apply Hf. lia.
Qed.

End Fuel.

(** * The cache after an action *)

Section CacheTheory.
Context `{P : Platform} {R : Type} `{SB : !Supabase R}.

Lemma entry_keys_distinct (last : list (jsstring * JsValue)) :
  (last = [] \/ exists v, last = [(js "additionalNotes", v)]) ->
  let keys :=
    map fst
      ([ (js "id", JNull); (js "studentName", JNull); (js "studentEmail", JNull);
         (js "pickupLocation", JNull); (js "destination", JNull); (js "date", JNull);
         (js "time", JNull); (js "status", JNull); (js "disabilityType", JNull) ]
       ++ last) in
  NoDup keys /\ Forall (fun k => integer_like k = false) keys.
Proof.
  intros [-> | [v ->]]; (split; [apply (bool_decide_unpack _); by vm_compute |]);
    repeat constructor.
Qed.

Lemma toJs_plain r :
  storable r -> plain (toJs (without_undefined_notes r)).
Proof.
  intros (H1 & H2 & H3 & H4 & H5 & H6 & H7 & H8 & H9 & Hn).
  unfold toJs, without_undefined_notes. cbn [id studentName studentEmail pickupLocation
    destination date time status disabilityType additionalNotes].
  assert (Hlast :
    exists last,
      match match additionalNotes r with Some JUndefined => None | notes => notes end with
      | Some notes => [(js "additionalNotes", notes)]
      | None => []
      end = last /\
      Forall (fun kv => plain kv.2) last /\
      (last = [] \/ exists v, last = [(js "additionalNotes", v)])).
  { destruct (additionalNotes r) as [notes |].
    - destruct Hn as [-> | Hp].
      + exists []. split; [reflexivity |]. split; [constructor | by left].
      + exists [(js "additionalNotes", notes)].
        split; [by destruct Hp |]. split; [| right; eauto].
        constructor; [exact Hp | constructor].
    - exists []. split; [reflexivity |]. split; [constructor | by left]. }
  destruct Hlast as (last & -> & Hvals & Hshape).
  destruct (entry_keys_distinct last Hshape) as [Hnd Hkeys]. cbv zeta in Hnd, Hkeys.
  constructor.
  - repeat (apply Forall_cons; split; [assumption |]). exact Hvals.
  - rewrite map_app in Hnd |- *. exact Hnd.
  - rewrite Forall_fmap in Hkeys. rewrite Forall_app in Hkeys |- *.
    destruct Hkeys as [H1' H2']. split; [| exact H2'].
    repeat (apply Forall_cons in H1' as [? H1']).
    repeat (apply Forall_cons; split; [assumption |]). constructor.
Qed.

Lemma text_without_undefined_notes r :
  text (toJs (without_undefined_notes r)) = text (toJs r).
Proof.
  unfold text, toJs. cbn [json_text]. f_equal. f_equal. f_equal. f_equal.
  rewrite !omap_app. f_equal.
  cbn [id studentName studentEmail pickupLocation destination date time status
       disabilityType additionalNotes without_undefined_notes].
  by destruct (additionalNotes r) as [[] |].
Qed.

Lemma without_undefined_notes_id r :
  additionalNotes r <> Some JUndefined -> without_undefined_notes r = r.
Proof.
  destruct r as [a b c d e f g h i notes]. unfold without_undefined_notes. cbn.
  intros H. f_equal. destruct notes as [[] |]; congruence.
Qed.

Lemma prop_without_undefined_notes r k :
  prop (toJs (without_undefined_notes r)) k = prop (toJs r) k.
Proof.
  unfold prop, toJs.
  cbn [id studentName studentEmail pickupLocation destination date time status
       disabilityType additionalNotes without_undefined_notes app assoc].
  repeat (match goal with |- context [jseqb ?a k] => destruct (jseqb a k) eqn:? end;
          [reflexivity |]).
  destruct (additionalNotes r) as [[] |]; cbn [assoc];
    repeat (match goal with |- context [jseqb ?a k] => destruct (jseqb a k) end);
    reflexivity.
Qed.

Lemma toJs_without_undefined_notes_inv r :
  toJs (without_undefined_notes r) = toJs r -> additionalNotes r <> Some JUndefined.
Proof.
  intros H Hn.
  apply (f_equal (fun v => match v with JObject props => length props | _ => O end)) in H.
  unfold toJs, without_undefined_notes in H.
  cbn [additionalNotes] in H. rewrite Hn in H. rewrite !length_app in H.
  cbn [length] in H. lia.
Qed.

Lemma map_eq_pointwise {A B} (f g : A -> B) l :
  map f l = map g l -> Forall (fun x => f x = g x) l.
Proof.
  induction l as [| x l IH]; cbn; [constructor |].
  intros [= Hx Hl]. constructor; [exact Hx | by apply IH].
Qed.

Lemma updateRequests_storable requests requestId action :
  Forall storable requests -> Forall storable (updateRequests requests requestId action).
Proof.
  unfold updateRequests. intros H. apply Forall_fmap. eapply Forall_impl; [exact H |].
  intros r Hr. cbn. destruct (strict_eq_str (id r) requestId); [| exact Hr].
  destruct Hr as (H1 & H2 & H3 & H4 & H5 & H6 & H7 & H8 & H9 & Hn).
  unfold storable. cbn. repeat (split; [assumption || (destruct action; constructor) |]).
  exact Hn.
Qed.

Lemma stringify_without_undefined_notes l :
  JSON_stringify (JArray (map toJs (map without_undefined_notes l)))
    = JSON_stringify (JArray (map toJs l)).
Proof.
  unfold JSON_stringify. cbn [json_text]. do 5 f_equal.
  rewrite !map_map. apply map_ext. intros r.
  apply text_without_undefined_notes.
Qed.

(** C7, as amended. After every action the local cache holds the
    JSON text of the updated list, and reading that text back gives
    the updated list except that an additionalNotes property holding
    undefined is gone from its entry; every property read on the
    entry read back gives what it gives on the entry in memory. The
    list is reproduced exactly when no entry carries such a property.
    (The entries are those the interface describes: plain values in
    the fields, additionalNotes absent, undefined or plain.) *)
Theorem cache_reads_back_without_undefined (w : World R) requestId action :
  Forall storable (rideRequests w) ->
  let w' := (handleRideAction requestId action w).2 in
  let stored := JSON_stringify (JArray (map toJs (rideRequests w'))) in
  localStorage w' !! js "rideRequests" = Some stored /\
  JSON_parse stored =
    Normal (JArray (map toJs (map without_undefined_notes (rideRequests w')))) /\
  (forall r k, prop (toJs (without_undefined_notes r)) k = prop (toJs r) k) /\
  (JSON_parse stored = Normal (JArray (map toJs (rideRequests w'))) <->
   Forall (fun r => additionalNotes r <> Some JUndefined) (rideRequests w')).
Proof.
  intros Hst w' stored.
  destruct (handleRideAction_run w requestId action) as (_ & Hr & Hls & _).
  fold w' in Hr, Hls.
  assert (Hst' : Forall storable (rideRequests w')).
  { rewrite Hr. by apply updateRequests_storable. }
  assert (Hparse : JSON_parse stored =
    Normal (JArray (map toJs (map without_undefined_notes (rideRequests w'))))).
  { unfold stored. rewrite <- stringify_without_undefined_notes.
    apply JSON_parse_stringify. constructor.
    rewrite map_map. apply Forall_fmap. eapply Forall_impl; [exact Hst' |].
    intros r Hrs. by apply toJs_plain. }
  split; [| split; [exact Hparse | split; [apply prop_without_undefined_notes |]]].
  - rewrite Hls, lookup_insert_eq. unfold stored. by rewrite Hr.
  - rewrite Hparse. split.
    + intros [= Heq]. rewrite map_map in Heq.
      apply map_eq_pointwise in Heq. eapply Forall_impl; [exact Heq |].
      intros r. apply toJs_without_undefined_notes_inv.
    + intros Hno. do 3 f_equal.
      rewrite <- (map_id (rideRequests w')) at 2. apply map_ext_Forall.
      eapply Forall_impl; [exact Hno |]. intros r. apply without_undefined_notes_id.
Qed.

End CacheTheory.

(** * The load, in every case *)

Section LoadTheory.
Context `{P : Platform} {R : Type} `{SB : !Supabase R}.

Lemma is_nullish_true e : is_nullish e = true <-> nullish e.
Proof.
  unfold nullish. destruct e; cbn; split; try tauto; try discriminate;
    intros [H | H]; discriminate H.
Qed.

Lemma is_nullish_false e : is_nullish e = false <-> ~ nullish e.
Proof.
  rewrite <- is_nullish_true. destruct (is_nullish e); split; congruence.
Qed.

Lemma forallb_not_nullish entries :
  forallb (fun e => negb (is_nullish e)) entries = true <->
  Forall (fun e => ~ nullish e) entries.
Proof.
  rewrite forallb_forall, Forall_forall. split; intros H e He.
  - apply is_nullish_false. specialize (H e (proj1 (list_elem_of_In _ _) He)).
    by destruct (is_nullish e).
  - apply list_elem_of_In in He. specialize (H e He).
    apply is_nullish_false in H. by rewrite H.
Qed.

Lemma processRideRequest_nullish (w : World R) e :
  nullish e -> processRideRequest e w = (Throw TypeError, w).
Proof. by intros [-> | ->]. Qed.

Lemma length_normalized_list clk entries : forall n,
  length (normalized_list clk n entries) = length entries.
Proof.
  induction entries as [| e entries IH]; intros n; cbn [normalized_list length];
    [reflexivity |].
  by rewrite IH.
Qed.

Lemma set_reads_same (w : World R) : set_reads (reads w) w = w.
Proof. by destruct w. Qed.

(** The run of [storedRequests.map]: it stops at the first entry that
    is [null] or [undefined]. *)
Lemma mapM_processRideRequest_outcome entries : forall w : World R,
  exists k,
    mapM processRideRequest entries w =
      (if forallb (fun e => negb (is_nullish e)) entries
       then Normal (normalized_list (clock w) (reads w) entries)
       else Throw TypeError,
       set_reads k w).
Proof.
  induction entries as [| e entries IH]; intros w.
  - exists (reads w). by rewrite set_reads_same.
  - cbn [mapM forallb normalized_list]. unfold bind at 1.
    destruct (is_nullish e) eqn:E.
    + apply is_nullish_true in E. rewrite (processRideRequest_nullish _ _ E).
      exists (reads w). by rewrite set_reads_same.
    + apply is_nullish_false in E. rewrite (processRideRequest_run _ _ E).
      destruct (IH (set_reads (entry_reads (reads w) e) w)) as [k Hk].
      unfold bind. rewrite Hk. exists k. cbn [negb andb clock reads set_reads].
      by destruct (forallb _ entries).
Qed.

Lemma processRideRequests_world (w : World R) v :
  exists k, (processRideRequests v w).2 = set_reads k w.
Proof.
  destruct v; try (exists (reads w); by rewrite set_reads_same).
  cbn [processRideRequests].
  destruct (mapM_processRideRequest_outcome elems w) as [k ->]. by exists k.
Qed.

Lemma processRideRequests_Normal_inv (w : World R) v typed :
  (processRideRequests v w).1 = Normal typed ->
  exists entries, v = JArray entries /\ Forall (fun e => ~ nullish e) entries.
Proof.
  destruct v; try discriminate. cbn [processRideRequests].
  destruct (mapM_processRideRequest_outcome elems w) as [k ->]. cbn [fst].
  destruct (forallb _ elems) eqn:E; [| discriminate].
  intros _. exists elems. split; [reflexivity |]. by apply forallb_not_nullish.
Qed.

Lemma processRideRequests_Throw_inv (w : World R) v e :
  (processRideRequests v w).1 = Throw e -> e = TypeError.
Proof.
  destruct v; try (by intros [= <-]). cbn [processRideRequests].
  destruct (mapM_processRideRequest_outcome elems w) as [k ->]. cbn [fst].
  destruct (forallb _ elems); [discriminate | by intros [= <-]].
Qed.

(** X1. The normalisation of the cached value completes exactly when
    the value is an array none of whose entries is null or undefined;
    it then yields one entry per cached entry. In every other case it
    throws a TypeError. Either way it touches nothing but the clock. *)
Theorem processRideRequests_completes_iff (w : World R) v :
  ((exists typed, (processRideRequests v w).1 = Normal typed) <->
   exists entries, v = JArray entries /\ Forall (fun e => ~ nullish e) entries) /\
  (forall typed, (processRideRequests v w).1 = Normal typed ->
     exists entries,
       v = JArray entries /\ typed = normalized_list (clock w) (reads w) entries /\
       length typed = length entries) /\
  (forall e, (processRideRequests v w).1 = Throw e -> e = TypeError) /\
  (exists k, (processRideRequests v w).2 = set_reads k w).
Proof.
  split; [split |].
  - intros [typed H]. by apply processRideRequests_Normal_inv in H.
  - intros (entries & -> & Hall). cbn [processRideRequests].
    rewrite (mapM_processRideRequest _ _ Hall). eauto.
  - split; [| split; [apply processRideRequests_Throw_inv
                     | apply processRideRequests_world]].
    intros typed H. destruct (processRideRequests_Normal_inv _ _ _ H)
      as (entries & -> & Hall).
    exists entries. cbn [processRideRequests] in H.
    rewrite (mapM_processRideRequest _ _ Hall) in H. injection H as <-.
    by rewrite length_normalized_list.
Qed.


(** The remote query resolved, without error, to at least one row. *)
Lemma select_all_cases (w : World R) :
  (exists resp rows r', select_all (store w) = (Normal resp, r') /\
                        has_rows resp = Some rows) \/
  (exists outcome r', select_all (store w) = (outcome, r') /\ unavailable outcome).
Proof.
  destruct (select_all (store w)) as [[resp | e] r'] eqn:Hsel.
  - destruct (has_rows resp) as [rows |] eqn:E; [left; eauto |].
    right. exists (Normal resp), r'. split; [reflexivity |]. by apply has_rows_None_inv.
  - right. by exists (Throw e), r'.
Qed.

Lemma backfill_loop_fields typed (w : World R) :
  (backfill_loop typed w).1 = Normal tt /\
  rideRequests (backfill_loop typed w).2 = rideRequests w /\
  localStorage (backfill_loop typed w).2 = localStorage w /\
  user (backfill_loop typed w).2 = user w /\
  toasts (backfill_loop typed w).2 = toasts w.
Proof.
  destruct (backfill_total_keeps typed) as [Ht Hk].
  destruct (Hk w) as (? & ? & ? & ? & _). by rewrite Ht.
Qed.



(** X3. A load never writes the local cache, in either branch and
    whether it completes or throws: rows shown from the hosted store
    are not cached and a normalised list is not written back. It shows
    no confirmation and leaves the session alone. *)
Theorem load_never_writes_the_cache (w : World R) :
  localStorage (loadRideRequests w).2 = localStorage w /\
  toasts (loadRideRequests w).2 = toasts w /\
  user (loadRideRequests w).2 = user w.
Proof.
  destruct (select_all_cases w)
    as [(resp & rows & r' & Hsel & Hrows) | (outcome & r' & Hsel & Hun)].
  - by rewrite (loadRideRequests_rows _ _ _ _ Hsel Hrows).
  - rewrite (loadRideRequests_unavailable _ _ _ Hsel Hun). cbv zeta.
    destruct (after_query_fields w outcome r') as (_ & Hls & Hu & _ & _ & Hto & _).
    destruct (JSON_parse (cached_text w)) as [storedRequests | e]; [| by cbn [snd]].
    destruct (processRideRequests_world (after_query w outcome r') storedRequests)
      as [k Hk].
    destruct (processRideRequests storedRequests (after_query w outcome r'))
      as [[typed | e] w2]; cbn [snd] in Hk; subst w2; [| by cbn].
    destruct typed as [| r l]; [by cbn |].
    destruct (backfill_loop_fields (r :: l)
                (set_rideRequests (r :: l) (set_reads k (after_query w outcome r'))))
      as (_ & _ & -> & -> & ->).
    by cbn.
Qed.

Lemma JSON_parse_empty_list : JSON_parse (js "[]") = Normal (JArray []).
Proof. reflexivity. Qed.

(** X4. With nothing to show from the hosted store and no cached
    list (the key is absent, or holds the empty string or an empty
    list), the load completes with an empty displayed list, and issues
    no call beyond the one query: nothing is backfilled, no clock
    reading is taken. *)
Theorem load_with_empty_cache (w : World R) outcome r' :
  select_all (store w) = (outcome, r') ->
  unavailable outcome ->
  localStorage w !! js "rideRequests" = None \/
  localStorage w !! js "rideRequests" = Some ([] : jsstring) \/
  localStorage w !! js "rideRequests" = Some (js "[]") ->
  loadRideRequests w = (Normal tt, set_rideRequests [] (after_query w outcome r')) /\
  calls (loadRideRequests w).2 = calls w ++ [CallSelectAll] /\
  reads (loadRideRequests w).2 = reads w.
Proof.
  intros Hsel Hun Hcache.
  assert (Htext : cached_text w = js "[]").
  { unfold cached_text. by destruct Hcache as [-> | [-> | ->]]. }
  assert (Hparse : JSON_parse (cached_text w) = Normal (JArray [])).
  { rewrite Htext. apply JSON_parse_empty_list. }
  pose proof (loadRideRequests_fallback w outcome r' [] Hsel Hun Hparse (Forall_nil_2 _))
    as Hrun.
  cbv zeta in Hrun. cbn [normalized_list entries_reads] in Hrun.
  destruct (after_query_fields w outcome r') as (_ & _ & _ & _ & Hrd & _ & _ & Hca).
  rewrite <- Hrd, set_reads_same in Hrun. rewrite Hrun.
  cbn [snd calls reads set_rideRequests]. by rewrite Hrd, Hca.
Qed.

(** *** The calls of a load *)

Lemma checked_inserts_app t1 t2 :
  checked_inserts t1 -> checked_inserts t2 -> checked_inserts (t1 ++ t2).
Proof.
  induction 1 as [| v rest _ IH | row rest _ IH Hrow]; intros H2; cbn [app].
  - exact H2.
  - apply checked_only, IH, H2.
  - apply checked_insert; [apply IH, H2 | exact Hrow].
Qed.

Lemma checked_inserts_no_update trace patch v :
  checked_inserts trace -> (CallUpdate patch v ∉ trace) /\ (CallSelectAll ∉ trace).
Proof.
  induction 1 as [| c rest _ [IH1 IH2] | row rest _ [IH1 IH2] _].
  - split; apply not_elem_of_nil.
  - split; (apply not_elem_of_cons; split; [discriminate | assumption]).
  - split; (apply not_elem_of_cons; split; [discriminate |];
            apply not_elem_of_cons; split; [discriminate | assumption]).
Qed.

Lemma syncRideRequest_calls request (w : World R) :
  exists trace,
    calls (syncRideRequest request w).2 = calls w ++ trace /\
    checked_inserts trace /\ (length trace <= 2)%nat.
Proof.
  unfold syncRideRequest, bind at 1, remote.
  destruct (select_id (id request) (store w)) as [[resp | e] r1]; cbn [fst snd].
  2: { exists [CallSelectId (id request)].
       split; [reflexivity |]. split; [repeat constructor | cbn; lia]. }
  destruct (data resp).
  { exists [CallSelectId (id request)].
    split; [reflexivity |]. split; [repeat constructor | cbn; lia]. }
  unfold bind at 1, lift.
  destruct (email_prefix (studentEmail request)) as [s | e].
  2: { exists [CallSelectId (id request)].
       split; [reflexivity |]. split; [repeat constructor | cbn; lia]. }
  unfold bind, Date_now, remote, ret. cbn [store calls set_store set_calls set_reads
    clock reads].
  match goal with
  | |- context [insert_row ?row ?r] =>
      exists [CallSelectId (id request); CallInsert row];
      destruct (insert_row row r) as [[resp2 | e2] r2]
  end; cbn [snd calls set_store set_calls]; rewrite <- app_assoc;
    (split; [reflexivity |]);
    (split; [| cbn; lia]);
    match goal with
    | |- checked_inserts [_; CallInsert ?row] =>
        exact (checked_insert row [] checked_nil eq_refl)
    end.
Qed.

Lemma for_of_syncRideRequest_calls typed : forall w : World R,
  exists trace,
    calls (for_of typed syncRideRequest w).2 = calls w ++ trace /\
    checked_inserts trace /\ (length trace <= 2 * length typed)%nat.
Proof.
  induction typed as [| request typed IH]; intros w.
  - exists []. cbn. rewrite app_nil_r. repeat split; [constructor | lia].
  - cbn [for_of]. unfold bind.
    destruct (syncRideRequest_calls request w) as (t1 & H1 & Hc1 & Hl1).
    destruct (syncRideRequest request w) as [[[] | e] w1]; cbn [snd] in H1.
    + destruct (IH w1) as (t2 & H2 & Hc2 & Hl2). exists (t1 ++ t2).
      rewrite H2, H1, <- app_assoc. split; [reflexivity |].
      split; [by apply checked_inserts_app |].
      rewrite length_app. cbn [length]. lia.
    + exists t1. cbn [snd length]. repeat split; [assumption.. | lia].
Qed.

Lemma backfill_loop_calls typed (w : World R) :
  exists trace,
    calls (backfill_loop typed w).2 = calls w ++ trace /\
    checked_inserts trace /\ (length trace <= 2 * length typed)%nat.
Proof.
  unfold backfill_loop, try_catch.
  destruct (for_of_syncRideRequest_calls typed w) as (trace & H & Hc & Hl).
  exists trace. destruct (for_of typed syncRideRequest w) as [[[] | e] w1];
    cbn [snd] in *; by repeat split.
Qed.

(** X5. The calls of a load, whatever the hosted store answers: the
    one query first, then only existence checks and inserts, every
    insert right after the check of the same id and with no driver.
    A load that shows remote rows, or throws, stops at the query; a
    load from the cache issues at most two calls per displayed entry.
    No update is ever issued by a load. *)
Theorem load_calls_are_checked_inserts (w : World R) :
  exists trace,
    calls (loadRideRequests w).2 = calls w ++ CallSelectAll :: trace /\
    checked_inserts trace /\
    (length trace <= 2 * length (rideRequests (loadRideRequests w).2))%nat /\
    (forall patch v, CallUpdate patch v ∉ trace) /\
    ((exists resp rows, (select_all (store w)).1 = Normal resp /\
                        has_rows resp = Some rows) -> trace = []) /\
    (forall e, (loadRideRequests w).1 = Throw e -> trace = []).
Proof.
  assert (Hnil : forall (w' : World R),
            calls w' = calls w ++ [CallSelectAll] ->
            exists trace,
              calls w' = calls w ++ CallSelectAll :: trace /\
              checked_inserts trace /\
              (length trace <= 2 * length (rideRequests w'))%nat /\
              (forall patch v, CallUpdate patch v ∉ trace) /\ trace = []).
  { intros w' H. exists []. split; [exact H |]. split; [constructor |].
    split; [cbn; lia |]. split; [| reflexivity]. intros patch v. apply not_elem_of_nil. }
  destruct (select_all_cases w)
    as [(resp & rows & r' & Hsel & Hrows) | (outcome & r' & Hsel & Hun)].
  - rewrite (loadRideRequests_rows _ _ _ _ Hsel Hrows). cbn [fst snd].
    edestruct Hnil as (trace & H1 & H2 & H3 & H4 & H5); [| exists trace; by eauto 10].
    reflexivity.
  - assert (Hno : ~ exists resp rows,
               (select_all (store w)).1 = Normal resp /\ has_rows resp = Some rows).
    { rewrite Hsel. intros (resp & rows & Heq & Hrows). cbn in Heq. subst outcome.
      cbn in Hun. rewrite (has_rows_None _ Hun) in Hrows. discriminate. }
    rewrite (loadRideRequests_unavailable _ _ _ Hsel Hun). cbv zeta.
    destruct (after_query_fields w outcome r') as (_ & _ & _ & _ & _ & _ & _ & Hca).
    destruct (JSON_parse (cached_text w)) as [storedRequests | e]; cbn [fst snd].
    2: { destruct (Hnil _ Hca) as (trace & H1 & H2 & H3 & H4 & H5).
         exists trace. repeat split; try assumption; [intros H; contradiction |].
         by intros _ _. }
    destruct (processRideRequests_world (after_query w outcome r') storedRequests)
      as [k Hk].
    destruct (processRideRequests storedRequests (after_query w outcome r'))
      as [[typed | e] w2]; cbn [snd] in Hk; subst w2; cbn [fst snd].
    2: { destruct (Hnil (set_reads k (after_query w outcome r')) Hca)
           as (trace & H1 & H2 & H3 & H4 & H5).
         exists trace. repeat split; try assumption; [intros H; contradiction |].
         by intros _ _. }
    destruct typed as [| r l].
    { destruct (Hnil (set_rideRequests [] (set_reads k (after_query w outcome r'))) Hca)
        as (trace & H1 & H2 & H3 & H4 & H5).
      exists trace. cbn [fst snd].
      repeat split; try assumption; [intros H; contradiction | discriminate]. }
    set (w2 := set_rideRequests (r :: l) (set_reads k (after_query w outcome r'))).
    destruct (backfill_loop_calls (r :: l) w2) as (trace & H1 & H2 & H3).
    destruct (backfill_loop_fields (r :: l) w2) as (Hn & Hrr & _).
    exists trace. rewrite H1, Hrr, Hn. subst w2. cbn [calls rideRequests
      set_rideRequests set_reads]. rewrite Hca, <- app_assoc.
    repeat split; try assumption.
    + intros patch v. by apply (checked_inserts_no_update trace patch v).
    + intros H; contradiction.
    + discriminate.
Qed.

(** *** The load from the cache *)



End LoadTheory.

(** * The backfill when the hosted store misbehaves *)

Section BackfillTheory.
Context `{P : Platform} {R : Type} `{SB : !Supabase R}.

Lemma syncRideRequest_resolved (w : World R) request resp r1 s resp2 r2 :
  select_id (id request) (store w) = (Normal resp, r1) ->
  data resp = None ->
  studentEmail request = JString s ->
  insert_row (derived_insert (clock w (reads w)) (clock w (S (reads w))) request s) r1 =
    (Normal resp2, r2) ->
  syncRideRequest request w =
    (Normal tt,
     set_store r2
       (set_calls
          (calls w ++
             [CallSelectId (id request);
              CallInsert
                (derived_insert (clock w (reads w)) (clock w (S (reads w))) request s)])
          (set_reads (S (S (reads w))) w))).
Proof.
  intros Hsel Hdata Hs Hins.
  unfold syncRideRequest, bind at 1, remote. rewrite Hsel, Hdata.
  unfold bind at 1, lift. rewrite Hs. cbn [email_prefix].
  unfold bind, Date_now, remote, ret. unfold derived_insert in Hins.
  cbn [store calls set_store set_calls set_reads clock reads].
  rewrite Hins. unfold set_store, set_calls, set_reads. cbn.
  by rewrite <- app_assoc.
Qed.

(** X15. The backfill looks only at the data of the existence check
    and at nothing of the insert: when the check resolves without data
    and the insert resolves, whatever error either of them reports,
    the entry is inserted, nothing is logged and the loop goes on to
    the next entry. A check that failed with an error result is taken
    for a row that is missing. *)
Theorem backfill_ignores_error_results
    (w : World R) request rest resp r1 s resp2 r2 :
  select_id (id request) (store w) = (Normal resp, r1) ->
  data resp = None ->
  studentEmail request = JString s ->
  let row := derived_insert (clock w (reads w)) (clock w (S (reads w))) request s in
  insert_row row r1 = (Normal resp2, r2) ->
  let w' :=
    set_store r2
      (set_calls (calls w ++ [CallSelectId (id request); CallInsert row])
         (set_reads (S (S (reads w))) w)) in
  syncRideRequest request w = (Normal tt, w') /\
  for_of (request :: rest) syncRideRequest w = for_of rest syncRideRequest w' /\
  console w' = console w.
Proof.
  intros Hsel Hdata Hs row Hins w'.
  pose proof (syncRideRequest_resolved w request resp r1 s resp2 r2 Hsel Hdata Hs Hins)
    as Hrun.
  split; [exact Hrun |]. split; [| reflexivity].
  cbn [for_of]. unfold bind. by rewrite Hrun.
Qed.




(** *** What reaches the console *)






End BackfillTheory.

(** * The backfill against the hosted table *)

Section HostedBackfill.
Context `{P : Platform}.
Local Existing Instance hosted.



End HostedBackfill.

(** * Actions, one after another *)

Section ActionTheory.
Context `{P : Platform} {R : Type} `{SB : !Supabase R}.

Lemma updateRequests_twice requests requestId a b :
  updateRequests (updateRequests requests requestId a) requestId b =
  updateRequests requests requestId b.
Proof.
  unfold updateRequests. rewrite map_map. apply map_ext. intros r.
  destruct (strict_eq_str (id r) requestId) eqn:E.
  - cbn [id with_status]. by rewrite E.
  - by rewrite E.
Qed.

Lemma updateRequests_comm requests x y a b :
  x <> y ->
  updateRequests (updateRequests requests x a) y b =
  updateRequests (updateRequests requests y b) x a.
Proof.
  intros Hxy. unfold updateRequests. rewrite !map_map. apply map_ext. intros r.
  destruct (strict_eq_str (id r) x) eqn:Ex, (strict_eq_str (id r) y) eqn:Ey;
    cbn [id with_status]; rewrite ?Ex, ?Ey; try reflexivity.
  apply strict_eq_str_true in Ex, Ey. congruence.
Qed.

Lemma updateRequests_absent requests requestId action :
  Forall (fun r => id r <> JString requestId) requests ->
  updateRequests requests requestId action = requests.
Proof.
  unfold updateRequests. induction 1 as [| r l Hr _ IH]; cbn [map]; [reflexivity |].
  apply strict_eq_str_false in Hr. by rewrite Hr, IH.
Qed.

(** X6. How actions compose on the displayed list and on the cache:
    of two actions on the same id the later one wins, as if the first
    had not been taken (so an action taken twice is taken once), and
    actions on different ids can be taken in either order. *)
Theorem actions_compose (w : World R) x y a b :
  let act x a (w : World R) := (handleRideAction x a w).2 in
  rideRequests (act x b (act x a w)) = rideRequests (act x b w) /\
  localStorage (act x b (act x a w)) = localStorage (act x b w) /\
  (x <> y ->
   rideRequests (act y b (act x a w)) = rideRequests (act x a (act y b w)) /\
   localStorage (act y b (act x a w)) = localStorage (act x a (act y b w))).
Proof.
  intros act. unfold act.
  destruct (handleRideAction_run w x a) as (_ & Hr1 & Hl1 & _).
  destruct (handleRideAction_run w x b) as (_ & Hr2 & Hl2 & _).
  destruct (handleRideAction_run w y b) as (_ & Hr3 & Hl3 & _).
  destruct (handleRideAction_run (handleRideAction x a w).2 x b) as (_ & Hr4 & Hl4 & _).
  destruct (handleRideAction_run (handleRideAction x a w).2 y b) as (_ & Hr5 & Hl5 & _).
  destruct (handleRideAction_run (handleRideAction y b w).2 x a) as (_ & Hr6 & Hl6 & _).
  cbv zeta in *.
  rewrite Hr4, Hl4, Hr5, Hl5, Hr6, Hl6, Hr1, Hl1, Hr2, Hl2, Hr3, Hl3.
  rewrite updateRequests_twice, !insert_insert_eq.
  split; [reflexivity |]. split; [reflexivity |].
  intros Hxy. by rewrite (updateRequests_comm _ x y a b Hxy).
Qed.

(** X7. An action on an id that no displayed entry has (a stale id,
    or an entry whose id is not a string) leaves the displayed list as
    it was, and still rewrites the cache from it, issues the remote
    update and shows the confirmation. *)
Theorem action_on_unknown_id (w : World R) requestId action :
  Forall (fun r => id r <> JString requestId) (rideRequests w) ->
  let w' := (handleRideAction requestId action w).2 in
  rideRequests w' = rideRequests w /\
  localStorage w' !! js "rideRequests" =
    Some (JSON_stringify (JArray (map toJs (rideRequests w)))) /\
  calls w' = calls w ++ [CallUpdate (update_patch w action) requestId] /\
  toasts w' = toasts w ++ [confirmation action].
Proof.
  intros Habs w'.
  destruct (handleRideAction_run w requestId action)
    as (_ & Hr & Hl & _ & Hc & Ht & _).
  cbv zeta in *. fold w' in Hr, Hl, Hc, Ht.
  rewrite (updateRequests_absent _ _ _ Habs) in Hr, Hl.
  rewrite Hr, Hl, Hc, Ht, lookup_insert_eq. by repeat split.
Qed.

(** *** The buttons *)

Lemma rowActions_inv r a :
  a ∈ rowActions r ->
  (status r = JString (js "pending") /\ (a = accept \/ a = decline)) \/
  (status r = JString (js "accepted") /\ a = complete).
Proof.
  unfold rowActions.
  destruct (strict_eq_str (status r) (js "pending")) eqn:E1,
           (strict_eq_str (status r) (js "accepted")) eqn:E2;
    cbn [app]; intros H;
    repeat (apply elem_of_cons in H as [-> | H]);
    try (by apply elem_of_nil in H);
    try apply strict_eq_str_true in E1; try apply strict_eq_str_true in E2; tauto.
Qed.

Lemma newStatus_lifecycle r a :
  a ∈ rowActions r -> lifecycle (status r) (newStatus a).
Proof.
  intros H. unfold lifecycle.
  destruct (rowActions_inv _ _ H) as [[-> [-> | ->]] | [-> ->]]; cbn; tauto.
Qed.

Lemma same_but_status_with_status r s : same_but_status r (with_status r s).
Proof. unfold same_but_status. cbn. tauto. Qed.

Lemma updateRequests_ids requests requestId action :
  map id (updateRequests requests requestId action) = map id requests.
Proof.
  unfold updateRequests. rewrite map_map. apply map_ext. intros r.
  by destruct (strict_eq_str (id r) requestId).
Qed.

Lemma updateRequests_insert requests : forall i r requestId action,
  NoDup (map id requests) ->
  requests !! i = Some r ->
  id r = JString requestId ->
  updateRequests requests requestId action =
    <[i := with_status r (newStatus action)]> requests.
Proof.
  induction requests as [| r0 l IH]; intros i r x a Hnd Hi Hid; [discriminate |].
  cbn [map] in Hnd. apply NoDup_cons in Hnd as [Hnotin Hnd].
  destruct i as [| i]; cbn in Hi.
  - injection Hi as ->. change (updateRequests (r :: l) x a)
      with ((if strict_eq_str (id r) x then with_status r (newStatus a) else r)
            :: updateRequests l x a).
    rewrite (proj2 (strict_eq_str_true _ _) Hid). cbn [insert list_insert]. f_equal.
    apply updateRequests_absent, Forall_forall. intros r' Hr' Heq.
    apply Hnotin. rewrite Hid, <- Heq. apply list_elem_of_fmap. by exists r'.
  - change (updateRequests (r0 :: l) x a)
      with ((if strict_eq_str (id r0) x then with_status r0 (newStatus a) else r0)
            :: updateRequests l x a).
    assert (Hne : id r0 <> JString x).
    { intros Heq. apply Hnotin. rewrite Heq, <- Hid. apply list_elem_of_fmap.
      exists r. split; [reflexivity |]. by eapply list_elem_of_lookup_2. }
    apply strict_eq_str_false in Hne. rewrite Hne. cbn [insert list_insert]. f_equal.
    by apply IH.
Qed.

Lemma press_inv (w w' : World R) :
  press w w' ->
  NoDup (map id (rideRequests w)) ->
  exists i r action,
    rideRequests w !! i = Some r /\ action ∈ rowActions r /\
    rideRequests w' = <[i := with_status r (newStatus action)]> (rideRequests w).
Proof.
  intros [w0 r x a Hin Hid Ha] Hnd.
  apply list_elem_of_lookup in Hin as [i Hi].
  exists i, r, a. split; [exact Hi |]. split; [exact Ha |].
  destruct (handleRideAction_run w0 x a) as (_ & -> & _).
  by apply updateRequests_insert.
Qed.

Lemma press_ids (w w' : World R) :
  press w w' -> map id (rideRequests w') = map id (rideRequests w).
Proof.
  intros [w0 r x a _ _ _].
  destruct (handleRideAction_run w0 x a) as (_ & -> & _).
  apply updateRequests_ids.
Qed.

(** X8. A press on a button that the table shows, the displayed ids
    being distinct, changes exactly one entry, the one of the row, and
    moves its status one step along pending, accepted, completed or
    from pending to declined; its other fields stay. The ids stay
    distinct. *)
Theorem press_moves_one_entry (w w' : World R) :
  press w w' ->
  NoDup (map id (rideRequests w)) ->
  (exists i r r',
     rideRequests w !! i = Some r /\
     rideRequests w' = <[i := r']> (rideRequests w) /\
     same_but_status r r' /\
     lifecycle (status r) (status r')) /\
  NoDup (map id (rideRequests w')).
Proof.
  intros Hp Hnd. split; [| by rewrite (press_ids _ _ Hp)].
  destruct (press_inv _ _ Hp Hnd) as (i & r & a & Hi & Ha & Hl).
  exists i, r, (with_status r (newStatus a)).
  split; [exact Hi |]. split; [exact Hl |].
  split; [apply same_but_status_with_status | by apply newStatus_lifecycle].
Qed.

Lemma same_but_status_trans r1 r2 r3 :
  same_but_status r1 r2 -> same_but_status r2 r3 -> same_but_status r1 r3.
Proof. unfold same_but_status. intuition congruence. Qed.

Lemma same_but_status_refl r : same_but_status r r.
Proof. unfold same_but_status. tauto. Qed.

Lemma status_names_differ :
  JString (js "pending") <> JString (js "accepted") /\
  JString (js "pending") <> JString (js "completed") /\
  JString (js "pending") <> JString (js "declined") /\
  JString (js "accepted") <> JString (js "completed") /\
  JString (js "accepted") <> JString (js "declined") /\
  JString (js "completed") <> JString (js "declined").
Proof. repeat split; intros H; by vm_compute in H. Qed.

Lemma lifecycle_forward s s' : lifecycle s s' -> forward s s'.
Proof. unfold lifecycle, forward. tauto. Qed.

Lemma forward_trans s1 s2 s3 : forward s1 s2 -> forward s2 s3 -> forward s1 s3.
Proof.
  destruct status_names_differ as (H1 & H2 & H3 & H4 & H5 & H6).
  unfold forward. intros [-> | H12] [-> | H23]; auto.
  right.
  destruct H12 as [[-> [-> | [-> | ->]]] | [-> ->]],
           H23 as [[Ha Hb] | [Ha Hb]]; subst; try congruence; tauto.
Qed.

Lemma forward_final s s' :
  forward s s' ->
  s = JString (js "completed") \/ s = JString (js "declined") -> s' = s.
Proof.
  destruct status_names_differ as (H1 & H2 & H3 & H4 & H5 & H6).
  unfold forward. intros [-> | [[-> _] | [-> _]]] [Hs | Hs]; congruence.
Qed.

Lemma Forall2_chain {A} (Q : A -> A -> Prop) :
  (forall a b c, Q a b -> Q b c -> Q a c) ->
  forall l1 l2 l3, Forall2 Q l1 l2 -> Forall2 Q l2 l3 -> Forall2 Q l1 l3.
Proof.
  intros HQ l1 l2 l3 H. revert l3.
  induction H as [| a b l1 l2 Hab _ IH]; intros l3 H3; inversion H3; subst;
    constructor; eauto.
Qed.

Lemma press_forward (w w' : World R) :
  press w w' ->
  NoDup (map id (rideRequests w)) ->
  Forall2 (fun r r' => same_but_status r r' /\ forward (status r) (status r'))
    (rideRequests w) (rideRequests w').
Proof.
  intros Hp Hnd.
  destruct (press_inv _ _ Hp Hnd) as (i & r & a & Hi & Ha & ->).
  apply Forall2_same_length_lookup_2; [by rewrite length_insert |].
  intros j x y Hx Hy. destruct (decide (i = j)) as [<- | Hij].
  - rewrite list_lookup_insert_eq in Hy by (by eapply lookup_lt_Some).
    injection Hy as <-. rewrite Hi in Hx. injection Hx as <-.
    split; [apply same_but_status_with_status |].
    by apply lifecycle_forward, newStatus_lifecycle.
  - rewrite list_lookup_insert_ne in Hy by exact Hij.
    rewrite Hx in Hy. injection Hy as <-.
    split; [apply same_but_status_refl | by left].
Qed.

(** X9. Whatever buttons are pressed, one after another, on a list of
    distinct ids, the list keeps its entries in place and each status
    only moves forward: a pending request stays or becomes accepted,
    declined or completed, an accepted one stays or becomes completed,
    and a completed or declined one never changes again. *)
Theorem presses_only_move_forward (w w' : World R) :
  rtc press w w' ->
  NoDup (map id (rideRequests w)) ->
  Forall2
    (fun r r' =>
       same_but_status r r' /\ forward (status r) (status r') /\
       (status r = JString (js "completed") \/ status r = JString (js "declined") ->
        status r' = status r))
    (rideRequests w) (rideRequests w').
Proof.
  intros Hrtc Hnd.
  assert (H : Forall2 (fun r r' => same_but_status r r' /\ forward (status r) (status r'))
                (rideRequests w) (rideRequests w')).
  { induction Hrtc as [w | w w1 w2 Hp _ IH].
    - apply Forall_Forall2_diag, Forall_forall. intros r _.
      split; [apply same_but_status_refl | by left].
    - pose proof (press_forward _ _ Hp Hnd) as H1.
      rewrite <- (press_ids _ _ Hp) in Hnd. specialize (IH Hnd).
      eapply Forall2_chain; [| exact H1 | exact IH].
      intros r1 r2 r3 [Ha Hb] [Hc Hd].
      split; [by eapply same_but_status_trans | by eapply forward_trans]. }
  eapply Forall2_impl; [exact H |].
  intros r r' [Ha Hb]. split; [exact Ha |]. split; [exact Hb |].
  by apply forward_final.
Qed.

(** *** The statistics and the rows *)

Lemma filter_insert_length {A} (f : A -> bool) l : forall i x y,
  l !! i = Some x ->
  (length (List.filter f (<[i := y]> l)) + (if f x then 1 else 0) =
   length (List.filter f l) + (if f y then 1 else 0))%nat.
Proof.
  induction l as [| a l IH]; intros i x y Hi; [discriminate |].
  destruct i as [| i]; cbn in Hi.
  - injection Hi as ->. change (<[0%nat := y]> (x :: l)) with (y :: l).
    cbn [List.filter]. destruct (f x), (f y); cbn [length]; lia.
  - change (<[S i := y]> (a :: l)) with (a :: <[i := y]> l).
    cbn [List.filter]. specialize (IH i x y Hi).
    destruct (f a); cbn [length]; lia.
Qed.

Lemma press_counts (w w' : World R) :
  press w w' ->
  NoDup (map id (rideRequests w)) ->
  (pendingRequests (rideRequests w) = S (pendingRequests (rideRequests w')) /\
   completedRides (rideRequests w') = completedRides (rideRequests w)) \/
  (completedRides (rideRequests w') = S (completedRides (rideRequests w)) /\
   pendingRequests (rideRequests w') = pendingRequests (rideRequests w)).
Proof.
  intros Hp Hnd.
  destruct (press_inv _ _ Hp Hnd) as (i & r & a & Hi & Ha & ->).
  unfold pendingRequests, completedRides.
  pose proof (filter_insert_length
                (fun r => strict_eq_str (status r) (js "pending"))
                _ i r (with_status r (newStatus a)) Hi) as Hpend.
  pose proof (filter_insert_length
                (fun r => strict_eq_str (status r) (js "completed"))
                _ i r (with_status r (newStatus a)) Hi) as Hcomp.
  cbn beta in Hpend, Hcomp. cbn [status with_status] in Hpend, Hcomp.
  destruct (rowActions_inv _ _ Ha) as [[Hs [-> | ->]] | [Hs ->]];
    rewrite Hs in Hpend, Hcomp; cbn [newStatus] in *;
    repeat match goal with
           | H : context [strict_eq_str (JString ?a) ?b] |- _ =>
               let v := eval vm_compute in (strict_eq_str (JString a) b) in
               change (strict_eq_str (JString a) b) with v in H
           end;
    cbv iota in Hpend, Hcomp; [left | left | right]; lia.
Qed.

(** X10. The two counters of the statistics card under presses on a
    list of distinct ids: Accept and Decline take one from the pending
    requests and leave the completed rides, Complete adds one to the
    completed rides and leaves the pending requests. So, whatever is
    pressed, the completed rides never go down and the pending
    requests never go up. *)
Theorem statistics_follow_the_presses (w w' : World R) :
  NoDup (map id (rideRequests w)) ->
  (press w w' ->
   (pendingRequests (rideRequests w) = S (pendingRequests (rideRequests w')) /\
    completedRides (rideRequests w') = completedRides (rideRequests w)) \/
   (completedRides (rideRequests w') = S (completedRides (rideRequests w)) /\
    pendingRequests (rideRequests w') = pendingRequests (rideRequests w))) /\
  (rtc press w w' ->
   (completedRides (rideRequests w) <= completedRides (rideRequests w'))%nat /\
   (pendingRequests (rideRequests w') <= pendingRequests (rideRequests w))%nat).
Proof.
  intros Hnd. split; [intros Hp; by apply press_counts |].
  intros Hrtc. induction Hrtc as [w | w w1 w2 Hp _ IH]; [lia |].
  pose proof (press_counts _ _ Hp Hnd) as H1.
  rewrite <- (press_ids _ _ Hp) in Hnd. specialize (IH Hnd). lia.
Qed.

Lemma valid_status_renders r :
  valid_status (status r) ->
  (status r = JString (js "pending") /\ badgeVariant r = variant_secondary /\
   rowActions r = [accept; decline]) \/
  (status r = JString (js "accepted") /\ badgeVariant r = variant_default /\
   rowActions r = [complete]) \/
  (status r = JString (js "completed") /\ badgeVariant r = variant_outline /\
   rowActions r = []) \/
  (status r = JString (js "declined") /\ badgeVariant r = variant_destructive /\
   rowActions r = []).
Proof.
  unfold badgeVariant, rowActions.
  intros [H | [H | [H | H]]]; rewrite H; vm_compute (strict_eq_str _ _); cbn [app]; tauto.
Qed.

(** X11. What the table shows for the rows of a page, whatever loads
    and actions have run since it was mounted: a pending row has the
    secondary badge and the buttons Accept and Decline, an accepted
    row the default badge and the button Complete, a completed row the
    outline badge and a declined row the destructive badge, both
    without a button; there is no other row. So the destructive badge
    marks the declined requests and nothing else. *)
Theorem reachable_rows_render (w : World R) :
  reachable w ->
  Forall
    (fun r =>
       ((status r = JString (js "pending") /\ badgeVariant r = variant_secondary /\
         rowActions r = [accept; decline]) \/
        (status r = JString (js "accepted") /\ badgeVariant r = variant_default /\
         rowActions r = [complete]) \/
        (status r = JString (js "completed") /\ badgeVariant r = variant_outline /\
         rowActions r = []) \/
        (status r = JString (js "declined") /\ badgeVariant r = variant_destructive /\
         rowActions r = [])) /\
       (badgeVariant r = variant_destructive <-> status r = JString (js "declined")) /\
       (rowActions r = [] <->
        status r = JString (js "completed") \/ status r = JString (js "declined")))
    (rideRequests w).
Proof.
  intros Hw. eapply Forall_impl; [exact (reachable_statuses _ Hw) |].
  intros r Hr. cbn beta in Hr. pose proof (valid_status_renders _ Hr) as Hcases.
  split; [exact Hcases |].
  destruct status_names_differ as (H1 & H2 & H3 & H4 & H5 & H6).
  destruct Hcases as [(Hs & Hb & Ha) | [(Hs & Hb & Ha) | [(Hs & Hb & Ha) | (Hs & Hb & Ha)]]];
    rewrite Hb, Ha, Hs; (split; split); intros H;
    try discriminate H; try reflexivity; try tauto;
    try (destruct H as [H | H]); congruence.
Qed.

End ActionTheory.

(** * From the store to the page and back *)

Section ReloadTheory.
Context `{P : Platform} {R : Type} `{SB : !Supabase R}.

Lemma split_first_app sep s t : split_first sep (s ++ sep :: t) = split_first sep s.
Proof.
  induction s as [| c s IH]; cbn [app split_first].
  - by rewrite N.eqb_refl.
  - destruct (c =? sep); [reflexivity | by rewrite IH].
Qed.

Lemma split_first_none sep s : sep ∉ s -> split_first sep s = s.
Proof.
  induction s as [| c s IH]; intros H; cbn [split_first]; [reflexivity |].
  apply not_elem_of_cons in H as [Hc Hs].
  destruct (N.eqb_spec c sep) as [-> | _]; [contradiction |]. by rewrite IH.
Qed.

Lemma syncRideRequest_absent (w : World R) request resp r1 s :
  select_id (id request) (store w) = (Normal resp, r1) ->
  data resp = None ->
  studentEmail request = JString s ->
  calls (syncRideRequest request w).2 =
    calls w ++
      [CallSelectId (id request);
       CallInsert (derived_insert (clock w (reads w)) (clock w (S (reads w))) request s)].
Proof.
  intros Hsel Hdata Hs.
  unfold syncRideRequest, bind at 1, remote. rewrite Hsel, Hdata.
  unfold bind at 1, lift. rewrite Hs. cbn [email_prefix].
  unfold bind, Date_now, remote, ret, derived_insert.
  cbn [store calls set_store set_calls set_reads clock reads].
  match goal with
  | |- context [insert_row ?row ?r] => destruct (insert_row row r) as [[resp2 | e2] r2]
  end; cbn [snd calls set_store set_calls]; by rewrite <- app_assoc.
Qed.

(** X12. A remote row that was mapped for display and is then
    backfilled, its existence check finding no row: the insert carries
    the id, the pickup location and the destination of the row; its
    student_id is that of the row up to the first at-sign, so the row's
    own when it has none; the driver is null whatever driver the row
    had, and the creation time is a reading of the clock. The status
    is the row's when that is pending, accepted or completed, and
    pending for a row that was rejected. *)
Theorem shown_row_is_backfilled_lossily (w0 w : World R) row request w1 resp r1 :
  formatDbRequest row w0 = (Normal request, w1) ->
  select_id (id request) (store w) = (Normal resp, r1) ->
  data resp = None ->
  exists ins,
    calls (syncRideRequest request w).2 =
      calls w ++ [CallSelectId (JString (db_id row)); CallInsert ins] /\
    ins_id ins = JString (db_id row) /\
    ins_student_id ins = split_first 64 (db_student_id row) /\
    (64 ∉ db_student_id row -> ins_student_id ins = db_student_id row) /\
    ins_pickup_location ins = JString (db_pickup_location row) /\
    ins_destination ins = JString (db_destination row) /\
    ins_driver_id ins = None /\
    ins_created_at ins = toISOString (clock w (reads w)) /\
    ins_status ins = statusToDb (validateStatus (JString (db_status row))) /\
    (db_status row = js "pending" \/ db_status row = js "accepted" \/
     db_status row = js "completed" -> ins_status ins = JString (db_status row)) /\
    (db_status row = js "rejected" -> ins_status ins = JString (js "pending")).
Proof.
  intros Hfmt Hsel Hdata.
  assert (Hreq : exists d t, request = mapped_row d t row).
  { rewrite formatDbRequest_run in Hfmt.
    destruct (created row); injection Hfmt as <- _; eauto. }
  destruct Hreq as (d & t & ->).
  eexists. split.
  { rewrite (syncRideRequest_absent w _ resp r1 _ Hsel Hdata eq_refl). reflexivity. }
  cbn [derived_insert mapped_row ins_id ins_student_id ins_pickup_location
       ins_destination ins_driver_id ins_created_at ins_status
       id pickupLocation destination status].
  change (js "@example.com") with (64 :: js "example.com").
  rewrite split_first_app.
  repeat split; try reflexivity.
  - apply split_first_none.
  - by intros [-> | [-> | ->]].
  - by intros ->.
Qed.

(** *** The cache after an action, read by the next load *)

Lemma toJs_not_nullish r : ~ nullish (toJs r).
Proof. intros [H | H]; discriminate H. Qed.

Lemma JSON_parse_stored requests :
  Forall storable requests ->
  JSON_parse (JSON_stringify (JArray (map toJs requests))) =
    Normal (JArray (map toJs (map without_undefined_notes requests))).
Proof.
  intros Hst. rewrite <- stringify_without_undefined_notes.
  apply JSON_parse_stringify. constructor.
  rewrite map_map. apply Forall_fmap. eapply Forall_impl; [exact Hst |].
  intros r Hr. by apply toJs_plain.
Qed.

Lemma cached_text_after_action (w : World R) requestId action :
  cached_text (handleRideAction requestId action w).2 =
    JSON_stringify
      (JArray (map toJs (updateRequests (rideRequests w) requestId action))).
Proof.
  destruct (handleRideAction_run w requestId action) as (_ & _ & Hl & _).
  cbv zeta in Hl. unfold cached_text. rewrite Hl, lookup_insert_eq. reflexivity.
Qed.

Lemma cache_is_list_after_action (w : World R) requestId action :
  Forall storable (rideRequests w) ->
  cache_is_list (handleRideAction requestId action w).2.
Proof.
  intros Hst. unfold cache_is_list. rewrite cached_text_after_action.
  eexists. split.
  - apply JSON_parse_stored. by apply updateRequests_storable.
  - rewrite map_map. apply Forall_fmap, Forall_forall. intros r _.
    apply toJs_not_nullish.
Qed.

Lemma prop_toJs r :
  prop (toJs r) (js "id") = id r /\
  prop (toJs r) (js "studentName") = studentName r /\
  prop (toJs r) (js "studentEmail") = studentEmail r /\
  prop (toJs r) (js "pickupLocation") = pickupLocation r /\
  prop (toJs r) (js "destination") = destination r /\
  prop (toJs r) (js "date") = date r /\
  prop (toJs r) (js "time") = time r /\
  prop (toJs r) (js "status") = status r /\
  prop (toJs r) (js "disabilityType") = disabilityType r /\
  (forall notes, additionalNotes r = Some notes ->
     prop (toJs r) (js "additionalNotes") = notes).
Proof.
  destruct r as [a b c d e f g h i notes].
  repeat (split; [by destruct notes |]).
  intros n. cbn [additionalNotes]. by intros ->.
Qed.

Lemma js_or_truthy v fallback : truthy v = true -> js_or v fallback = v.
Proof. unfold js_or. by intros ->. Qed.

Lemma js_or_empty v : truthy v = true \/ v = JString [] -> js_or v (JString []) = v.
Proof. intros [H | ->]; [by apply js_or_truthy | reflexivity]. Qed.

Lemma normalized_settled d t r :
  settled r -> normalized d t (toJs (without_undefined_notes r)) = r.
Proof.
  intros (_ & Hn & He & Hp & Hd & Hda & Hti & Hs & Hdi & Hnotes).
  destruct (prop_toJs r) as (P1 & P2 & P3 & P4 & P5 & P6 & P7 & P8 & P9 & P10).
  unfold normalized. rewrite !prop_without_undefined_notes.
  rewrite P1, P2, P3, P4, P5, P6, P7, P8, P9.
  rewrite (js_or_truthy _ _ Hn), (js_or_truthy _ _ He), (js_or_empty _ Hp),
    (js_or_empty _ Hd), (js_or_truthy _ _ Hda), (js_or_truthy _ _ Hti),
    (js_or_truthy _ _ (valid_status_truthy _ Hs)), (js_or_truthy _ _ Hdi).
  rewrite (validateStatus_keeps _ Hs).
  destruct (additionalNotes r) as [notes |] eqn:E; [| contradiction].
  rewrite (P10 notes eq_refl). destruct r. cbn in *. by subst.
Qed.

Lemma entry_reads_settled n r :
  settled r -> entry_reads n (toJs (without_undefined_notes r)) = n.
Proof.
  intros (_ & _ & _ & _ & _ & Hda & Hti & _).
  destruct (prop_toJs r) as (_ & _ & _ & _ & _ & P6 & P7 & _).
  unfold entry_reads. rewrite !prop_without_undefined_notes, P6, P7.
  by rewrite Hda, Hti.
Qed.

Lemma normalized_list_settled clk requests : forall n,
  Forall settled requests ->
  normalized_list clk n (map toJs (map without_undefined_notes requests)) = requests.
Proof.
  induction requests as [| r l IH]; intros n Hall; [reflexivity |].
  apply Forall_cons in Hall as [Hr Hall]. cbn [map normalized_list].
  rewrite (entry_reads_settled _ _ Hr), (normalized_settled _ _ _ Hr).
  by rewrite (IH _ Hall).
Qed.

Lemma updateRequests_settled requests requestId action :
  Forall settled requests -> Forall settled (updateRequests requests requestId action).
Proof.
  unfold updateRequests. intros H. apply Forall_fmap. eapply Forall_impl; [exact H |].
  intros r Hr. cbn. destruct (strict_eq_str (id r) requestId); [| exact Hr].
  destruct Hr as ((H1 & H2 & H3 & H4 & H5 & H6 & H7 & H8 & H9 & Hn) & Hr).
  split.
  { unfold storable. cbn.
    repeat (split; [assumption || (destruct action; constructor) |]). exact Hn. }
  destruct Hr as (? & ? & ? & ? & ? & ? & _ & ? & ?). unfold valid_status. cbn.
  repeat (split; [assumption |]). split; [destruct action; cbn; tauto |].
  by split.
Qed.

Lemma settled_storable r : settled r -> storable r.
Proof. by intros [H _]. Qed.

(** X13. After an action on a list of entries that JSON can write,
    the next load completes, whatever the hosted store does. If the
    store then has nothing to show and the entries were complete (no
    field that the normaliser would default), the load shows exactly
    the list that the action left: the action survives the reload,
    a declined status included. *)
Theorem action_survives_reload (w : World R) requestId action :
  Forall storable (rideRequests w) ->
  let w1 := (handleRideAction requestId action w).2 in
  (loadRideRequests w1).1 = Normal tt /\
  (forall outcome r',
     select_all (store w1) = (outcome, r') ->
     unavailable outcome ->
     Forall settled (rideRequests w) ->
     rideRequests (loadRideRequests w1).2 = rideRequests w1).
Proof.
  intros Hst w1.
  split; [by apply loadRideRequests_total, cache_is_list_after_action |].
  intros outcome r' Hsel Hun Hset.
  pose proof (updateRequests_settled _ requestId action Hset) as Hset'.
  assert (Hparse :
    JSON_parse (cached_text w1) =
      Normal (JArray (map toJs (map without_undefined_notes
                 (updateRequests (rideRequests w) requestId action))))).
  { unfold w1. rewrite cached_text_after_action. apply JSON_parse_stored.
    by apply updateRequests_storable. }
  assert (Hall : Forall (fun e => ~ nullish e)
            (map toJs (map without_undefined_notes
               (updateRequests (rideRequests w) requestId action)))).
  { rewrite map_map. apply Forall_fmap, Forall_forall. intros r _.
    apply toJs_not_nullish. }
  destruct (loadRideRequests_fallback_list w1 outcome r' _ Hsel Hun Hparse Hall)
    as [_ ->].
  rewrite (normalized_list_settled _ _ _ Hset').
  destruct (handleRideAction_run w requestId action) as (_ & Hr & _).
  by rewrite <- Hr.
Qed.

Lemma handleRideAction_clock (w : World R) requestId action :
  clock (handleRideAction requestId action w).2 = clock w /\
  reads (handleRideAction requestId action w).2 = S (reads w).
Proof.
  unfold handleRideAction, bind, try_catch, remote, read_rideRequests,
    read_user, localStorage_setItem, setRideRequests, Date_now, console_write,
    toast, ret. cbn.
  by destruct (update_by_id _ requestId (store w)) as [[resp | e] r'].
Qed.

End ReloadTheory.

(** * An action, then a refresh from the hosted table *)

Section HostedReload.
Context `{P : Platform}.
Local Existing Instance hosted.

Lemma hosted_update_works h patch v :
  fault_free h ->
  hosted_update patch v h =
    (Normal {| data := None; error := None |},
     {| table := map (apply_update patch v) (table h); script := tail (script h) |}).
Proof. intros Hff. unfold hosted_update. by rewrite (hosted_call_works _ _ Hff). Qed.

Lemma hosted_select_all_works h :
  fault_free h ->
  hosted_select_all h =
    (Normal {| data := Some (table h); error := None |},
     {| table := table h; script := tail (script h) |}).
Proof. intros Hff. unfold hosted_select_all. by rewrite (hosted_call_works _ _ Hff). Qed.

Lemma apply_update_fields patch v row :
  db_id (apply_update patch v row) = db_id row /\
  (db_id row = v -> db_status (apply_update patch v row) = upd_status patch) /\
  (db_id row <> v -> apply_update patch v row = row).
Proof.
  unfold apply_update. destruct (jseqb (db_id row) v) eqn:E.
  - apply jseqb_true in E. cbn. split; [done |]. split; [done |].
    intros H. contradiction.
  - apply jseqb_false in E. split; [done |]. split; [| done].
    intros H. contradiction.
Qed.

Lemma Forall2_map_l {A B C} (Q : B -> C -> Prop) (f : A -> B) l : forall k,
  Forall2 Q (map f l) k -> Forall2 (fun a c => Q (f a) c) l k.
Proof.
  induction l as [| a l IH]; intros k H; inversion H; subst; constructor; auto.
Qed.

(** X14. An action and then a refresh, the hosted table holding rows
    and no call failing: the refresh shows the table, row by row, and
    nothing of the list the action left. The row with the id of the
    action comes back accepted after Accept and completed after
    Complete, but pending after Decline: the request that was declined
    is offered for acceptance again. The other rows show the status
    they have in the table. *)
Theorem action_then_refresh_from_store (w : World Hosted) requestId action :
  fault_free (store w) ->
  table (store w) <> [] ->
  let w1 := (handleRideAction requestId action w).2 in
  let w2 := (loadRideRequests w1).2 in
  (loadRideRequests w1).1 = Normal tt /\
  length (rideRequests w2) = length (table (store w)) /\
  Forall2
    (fun row r =>
       id r = JString (db_id row) /\
       (db_id row = requestId ->
        status r = match action with
                   | accept => JString (js "accepted")
                   | decline => JString (js "pending")
                   | complete => JString (js "completed")
                   end) /\
       (db_id row <> requestId ->
        status r = validateStatus (JString (db_status row))))
    (table (store w)) (rideRequests w2).
Proof.
  intros Hff Hne w1 w2.
  destruct (handleRideAction_run w requestId action)
    as (_ & _ & _ & _ & _ & _ & Hstore & _).
  destruct (handleRideAction_clock w requestId action) as [Hclk Hrd].
  cbv zeta in Hstore. fold w1 in Hstore, Hclk, Hrd.
  change (update_by_id (update_patch w action) requestId (store w))
    with (hosted_update (update_patch w action) requestId (store w)) in Hstore.
  rewrite (hosted_update_works _ _ _ Hff) in Hstore. cbn [snd] in Hstore.
  set (rows := map (apply_update (update_patch w action) requestId) (table (store w)))
    in Hstore.
  assert (Hsel : select_all (store w1) =
            (Normal {| data := Some rows; error := None |},
             {| table := rows; script := tail (tail (script (store w))) |})).
  { rewrite Hstore. change (select_all ?h) with (hosted_select_all h).
    rewrite hosted_select_all_works by (by apply fault_free_tail). reflexivity. }
  assert (Hrows : has_rows {| data := Some rows; error := None |} = Some rows).
  { apply has_rows_Some; try reflexivity. unfold rows.
    destruct (table (store w)); [contradiction | discriminate]. }
  assert (Hlist : rideRequests w2 = mapped_rows (clock w1) (reads w1) rows).
  { unfold w2. by rewrite (loadRideRequests_rows w1 _ _ _ Hsel Hrows). }
  split; [by rewrite (loadRideRequests_rows w1 _ _ _ Hsel Hrows) |].
  pose proof (mapped_rows_Forall2 (clock w1) rows (reads w1)) as Hmap.
  rewrite <- Hlist in Hmap. unfold rows in Hmap.
  assert (Hmap' :
    Forall2 (fun row r =>
               row_mapped (clock w1)
                 (apply_update (update_patch w action) requestId row) r)
      (table (store w)) (rideRequests w2)).
  { by apply Forall2_map_l. }
  clear Hmap. rename Hmap' into Hmap.
  split.
  { apply Forall2_length in Hmap. by rewrite Hmap. }
  eapply Forall2_impl; [exact Hmap |].
  intros row r (Hid & _ & _ & _ & _ & Hst & _). cbn in Hid, Hst.
  destruct (apply_update_fields (update_patch w action) requestId row)
    as (Hi & Hsame & Hother).
  split; [by rewrite Hid, Hi |]. split.
  - intros Heq. rewrite Hst, (Hsame Heq). by destruct action.
  - intros Hneq. by rewrite Hst, (Hother Hneq).
Qed.

(** C9. The remote update of the action carries the status for the
    store, the current driver identifier (the id of the signed-in
    user when there is one with a non-empty id, null otherwise) and
    the timestamp of a clock reading that the action takes, and it is
    filtered by the given request id. It is the only call the action
    issues. In the hosted table after the action a row with another
    id keeps all its columns, and a row with that id changes at most
    in status, driver_id and updated_at; when the call works these
    three are the ones the update carries. *)
Theorem update_is_stamped_and_filtered :
  (forall R (SB : Supabase R) (w : World R) requestId action,
     let w' := (handleRideAction requestId action w).2 in
     let patch :=
       {| upd_status := statusForDb action;
          upd_driver_id := driver_id_of (user w);
          upd_updated_at := toISOString (clock w (reads w)) |} in
     calls w' = calls w ++ [CallUpdate patch requestId] /\
     store w' = (update_by_id patch requestId (store w)).2 /\
     reads w' = S (reads w) /\
     (forall u, user w = Some u -> user_id u <> [] ->
        upd_driver_id patch = Some (user_id u)) /\
     (forall u, user w = Some u -> user_id u = [] -> upd_driver_id patch = None) /\
     (user w = None -> upd_driver_id patch = None)) /\
  (forall (w : World Hosted) requestId action,
     let w' := (handleRideAction requestId action w).2 in
     Forall2
       (fun row row' =>
          (db_id row <> requestId -> row' = row) /\
          db_id row' = db_id row /\
          db_student_id row' = db_student_id row /\
          db_pickup_location row' = db_pickup_location row /\
          db_destination row' = db_destination row /\
          db_created_at row' = db_created_at row /\
          (fault_free (store w) -> db_id row = requestId ->
           db_status row' = statusForDb action /\
           db_driver_id row' = driver_id_of (user w) /\
           db_updated_at row' = toISOString (clock w (reads w))))
       (table (store w)) (table (store w'))).
Proof.
  split.
  - intros R SB w requestId action w' patch.
    destruct (handleRideAction_run w requestId action)
      as (_ & _ & _ & _ & Hc & _ & Hs & _).
    destruct (handleRideAction_clock w requestId action) as [_ Hrd].
    split; [exact Hc |]. split; [exact Hs |]. split; [exact Hrd |].
    cbn [upd_driver_id patch]. split; [| split].
    + intros u -> Hne. by apply driver_id_of_user.
    + intros u -> He. by apply driver_id_of_user.
    + by intros ->.
  - intros w requestId action w'.
    destruct (handleRideAction_run w requestId action)
      as (_ & _ & _ & _ & _ & _ & Hs & _).
    cbv zeta in Hs. fold w' in Hs. rewrite Hs.
    change (update_by_id ?p ?v ?h) with (hosted_update p v h).
    set (patch := update_patch w action).
    assert (Hwork : fault_free (store w) ->
              table (hosted_update patch requestId (store w)).2 =
                map (apply_update patch requestId) (table (store w))).
    { intros Hff. by rewrite (hosted_update_works _ _ _ Hff). }
    destruct (hosted_update_rows (store w) patch requestId) as [Heq | Heq].
    + rewrite Heq. apply Forall2_same_length_lookup_2; [reflexivity |].
      intros i x y Hx Hy. rewrite Hx in Hy. injection Hy as <-.
      repeat split; try reflexivity;
        specialize (Hwork H); rewrite Heq in Hwork;
        pose proof (f_equal (fun l => l !! i) Hwork) as Hi; cbn beta in Hi;
        rewrite list_lookup_fmap, Hx in Hi; cbn in Hi; injection Hi as Hi;
        rewrite Hi; unfold apply_update;
        rewrite (proj2 (jseqb_true _ _) H0); reflexivity.
    + rewrite Heq. apply Forall2_fmap_r, Forall_Forall2_diag, Forall_forall.
      intros row _. unfold compose, apply_update. cbn beta.
      destruct (jseqb (db_id row) requestId) eqn:E.
      * apply jseqb_true in E. split; [intros Hne; contradiction |].
        repeat split; reflexivity.
      * apply jseqb_false in E. repeat split; try reflexivity; contradiction.
Qed.

End HostedReload.

(** * A load from the cache, then a load from the table *)

Section SecondLoad.
Context `{P : Platform}.
Local Existing Instance hosted.

Lemma for_of_syncRideRequest_table typed : forall w : World Hosted,
  fault_free (store w) ->
  unique_ids (table (store w)) ->
  Forall (fun r => exists s, studentEmail r = JString s) typed ->
  exists w1,
    for_of typed syncRideRequest w = (Normal tt, w1) /\
    clock w1 = clock w /\
    fault_free (store w1) /\
    table (store w1) =
      table_after_backfill (clock w) (reads w) (table (store w)) typed.
Proof.
  induction typed as [| request typed IH]; intros w Hff Hu Hmail.
  - exists w. by repeat split.
  - apply Forall_cons in Hmail as [[s Hs] Hmail].
    destruct (syncRideRequest_works w request s Hff Hu Hs)
      as (w1 & Hrun & Hclk & Hff1 & Hu1 & Hcase).
    destruct (IH w1 Hff1 Hu1 Hmail) as (w2 & Hrun2 & Hclk2 & Hff2 & Htab2).
    exists w2. cbn [for_of table_after_backfill]. unfold bind. rewrite Hrun.
    split; [exact Hrun2 |]. split; [congruence |]. split; [exact Hff2 |].
    rewrite Htab2, Hclk, Hs. cbn [text_of].
    destruct (in_table (id request) (table (store w))).
    + by destruct Hcase as (_ & -> & ->).
    + cbv zeta in Hcase. by destruct Hcase as (_ & -> & ->).
Qed.

Lemma in_table_app v rows rows' :
  in_table v (rows ++ rows') = in_table v rows || in_table v rows'.
Proof. unfold in_table. apply existsb_app. Qed.

Lemma table_after_backfill_fresh clk typed : forall n rows,
  Forall insertable typed ->
  NoDup (map id typed) ->
  Forall (fun r => in_table (id r) rows = false) typed ->
  exists new,
    table_after_backfill clk n rows typed = rows ++ new /\
    Forall2 row_of_entry typed new.
Proof.
  induction typed as [| r typed IH]; intros n rows Hins Hnd Hfresh.
  - exists []. cbn. by rewrite app_nil_r.
  - apply Forall_cons in Hins as [Hr Hins]. cbn [map] in Hnd.
    apply NoDup_cons in Hnd as [Hnotin Hnd].
    apply Forall_cons in Hfresh as [Hf Hfresh].
    cbn [table_after_backfill]. rewrite Hf.
    destruct Hr as ([i Hi] & [s Hs] & [p Hp] & [d Hd] & Hst).
    assert (Hstatus : exists t, statusToDb (status r) = JString t).
    { unfold statusToDb. destruct (strict_eq_str (status r) (js "declined"));
        [eauto |]. destruct Hst as [-> | [-> | [-> | ->]]]; eauto. }
    destruct Hstatus as [t Ht].
    set (row := derived_insert (clk n) (clk (S n)) r (text_of (studentEmail r))).
    set (new0 := {| db_id := i;
                    db_student_id := split_first 64 (text_of (studentEmail r));
                    db_driver_id := None;
                    db_pickup_location := p;
                    db_destination := d;
                    db_status := t;
                    db_created_at := Some (toISOString (clk n));
                    db_updated_at := toISOString (clk (S n)) |}).
    assert (Hrow : row_of_insert row = Some new0).
    { unfold row_of_insert, row, derived_insert. cbn. by rewrite Hi, Hp, Hd, Ht. }
    assert (Hafter : rows_after_insert rows row = rows ++ [new0]).
    { unfold rows_after_insert. rewrite Hrow.
      change (ins_id row) with (id r). by rewrite Hf. }
    rewrite Hafter.
    destruct (IH (S (S n)) (rows ++ [new0]) Hins Hnd) as (new & Htab & Hnew).
    { apply Forall_forall. intros r' Hr'. rewrite in_table_app.
      rewrite (proj1 (Forall_forall _ _) Hfresh r' Hr'). cbn [orb].
      unfold in_table, has_id. cbn [existsb db_id new0]. rewrite orb_false_r.
      apply strict_eq_str_false. rewrite <- Hi. intros Heq. apply Hnotin.
      rewrite <- Heq. apply list_elem_of_fmap. by exists r'. }
    exists (new0 :: new). rewrite Htab, <- app_assoc. split; [reflexivity |].
    constructor; [| exact Hnew].
    unfold row_of_entry. cbn. by rewrite Hi, Hp, Hd, Ht.
Qed.

Lemma mapped_rows_shape clk rows : forall n,
  Forall2 (fun row r => exists d t, r = mapped_row d t row) rows (mapped_rows clk n rows).
Proof.
  induction rows as [| row rows IH]; intros n; cbn [mapped_rows]; [constructor |].
  destruct (created row); constructor; eauto.
Qed.

Lemma Forall2_through {A B C} (Q1 : A -> B -> Prop) (Q2 : B -> C -> Prop)
    (Q : A -> C -> Prop) :
  (forall a b c, Q1 a b -> Q2 b c -> Q a c) ->
  forall l1 l2 l3, Forall2 Q1 l1 l2 -> Forall2 Q2 l2 l3 -> Forall2 Q l1 l3.
Proof.
  intros HQ l1 l2 l3 H. revert l3.
  induction H as [| a b l1 l2 Hab _ IH]; intros l3 H3; inversion H3; subst;
    constructor; eauto.
Qed.

Lemma row_of_entry_shown r row d t :
  row_of_entry r row -> shown_after_backfill r (mapped_row d t row).
Proof.
  intros (H1 & H2 & H3 & H4 & H5). unfold shown_after_backfill. cbn.
  rewrite H1, H2, H3, H4, H5. repeat split; try reflexivity.
  - by intros ->.
  - by intros [-> | [-> | ->]].
Qed.

(** X17. A load that falls back to the cache and backfills an empty
    hosted table, no call failing, shows the normalised cache entries;
    the load after it shows them rebuilt from the table, in the same
    order but poorer: the student name is replaced by the part of the
    email before the at-sign, the email by that part followed by
    @example.com, the disability type by Not specified, the notes by
    From database, and a declined status by pending. The id, the
    pickup location and the destination come back as they were. (The
    entries have distinct string ids and strings for the email, the
    pickup location and the destination.) *)
Theorem backfilled_entries_come_back_poorer (w : World Hosted) entries :
  fault_free (store w) ->
  table (store w) = [] ->
  JSON_parse (cached_text w) = Normal (JArray entries) ->
  Forall (fun e => ~ nullish e) entries ->
  let typed := normalized_list (clock w) (reads w) entries in
  typed <> [] ->
  Forall insertable typed ->
  NoDup (map id typed) ->
  let w1 := (loadRideRequests w).2 in
  let w2 := (loadRideRequests w1).2 in
  rideRequests w1 = typed /\
  (loadRideRequests w1).1 = Normal tt /\
  Forall2 shown_after_backfill typed (rideRequests w2).
Proof.
  intros Hff Hempty Hparse Hall typed Hne Hins Hnd w1 w2.
  set (h1 := {| table := table (store w); script := tail (script (store w)) |}).
  assert (Hsel : select_all (store w) =
            (Normal {| data := Some (table (store w)); error := None |}, h1)).
  { change (select_all ?h) with (hosted_select_all h).
    by rewrite (hosted_select_all_works _ Hff). }
  assert (Hun : unavailable (Normal {| data := Some (table (store w)); error := None |})).
  { right. right. cbn. by rewrite Hempty. }
  pose proof (loadRideRequests_fallback w _ h1 entries Hsel Hun Hparse Hall) as Hrun.
  cbv zeta in Hrun. fold typed in Hrun.
  set (w0 := set_rideRequests typed
               (set_reads (entries_reads (reads w) entries)
                  (after_query w (Normal {| data := Some (table (store w)); error := None |})
                     h1))) in Hrun.
  assert (Hloop : loadRideRequests w = backfill_loop typed w0).
  { rewrite Hrun. by destruct typed. }
  assert (Hff0 : fault_free (store w0)) by (by apply fault_free_tail).
  assert (Htab0 : table (store w0) = []) by exact Hempty.
  assert (Hu0 : unique_ids (table (store w0))).
  { rewrite Htab0. apply NoDup_nil_2. }
  assert (Hmail : Forall (fun r => exists s, studentEmail r = JString s) typed).
  { eapply Forall_impl; [exact Hins |]. by intros r (_ & Hs & _). }
  destruct (for_of_syncRideRequest_table typed w0 Hff0 Hu0 Hmail)
    as (w3 & Hfor & Hclk3 & Hff3 & Htab3).
  assert (Hw1 : w1 = w3).
  { unfold w1. rewrite Hloop. unfold backfill_loop, try_catch. by rewrite Hfor. }
  assert (Hrr : rideRequests w1 = typed).
  { unfold w1. rewrite Hloop.
    destruct (backfill_loop_fields typed w0) as (_ & -> & _). reflexivity. }
  destruct (table_after_backfill_fresh (clock w0) typed (reads w0) (table (store w0))
              Hins Hnd) as (new & Hnew & Hrows).
  { rewrite Htab0. apply Forall_forall. by intros r _. }
  rewrite Htab0 in Hnew, Htab3. cbn [app] in Hnew. rewrite Hnew in Htab3.
  assert (Hnew_ne : new <> []).
  { intros ->. apply Forall2_length in Hrows. destruct typed; [by apply Hne | discriminate]. }
  assert (Hsel1 : select_all (store w1) =
            (Normal {| data := Some new; error := None |},
             {| table := new; script := tail (script (store w1)) |})).
  { change (select_all ?h) with (hosted_select_all h).
    rewrite Hw1, (hosted_select_all_works _ Hff3). by rewrite Htab3. }
  assert (Hhas : has_rows {| data := Some new; error := None |} = Some new).
  { apply has_rows_Some; try reflexivity. exact Hnew_ne. }
  pose proof (loadRideRequests_rows w1 _ _ _ Hsel1 Hhas) as Hrun2.
  split; [exact Hrr |]. split; [by rewrite Hrun2 |].
  unfold w2. rewrite Hrun2. cbn [snd rideRequests set_rideRequests].
  eapply Forall2_through; [| exact Hrows | apply mapped_rows_shape].
  intros r row r' Hrow (d & t & ->). by apply row_of_entry_shown.
Qed.

End SecondLoad.

(** * The statements at sample inputs *)

#[local] Existing Instance demo_platform.
#[local] Existing Instance hosted.

(** A closed equation, settled by evaluating its two sides. *)
Ltac evaluated :=
  match goal with |- _ = ?rhs => vm_cast_no_check (eq_refl rhs) end.

Example validateStatus_rejected :
  validateStatus (JString (js "rejected")) = JString (js "pending").
Proof. reflexivity. Qed.

Example validateStatus_not_a_string : validateStatus JNull = JString (js "pending").
Proof. reflexivity. Qed.

Example split_first_email : split_first 64 (js "bo@x.org") = js "bo".
Proof. reflexivity. Qed.

Example JSON_parse_sample_cache : JSON_parse sample_cache = Normal (JArray sample_entries).
Proof. evaluated. Qed.

Example JSON_parse_repeated_key :
  JSON_parse (jsontext "{'a':true, 'b':null, 'a':false}")
    = Normal (JObject [(js "a", JBool false); (js "b", JNull)]).
Proof. evaluated. Qed.

Example JSON_parse_escapes :
  JSON_parse (34 :: 92 :: js "u0041" ++ 92 :: js "n" ++ [34]) = Normal (JString [65; 10]).
Proof. by vm_compute. Qed.

Example JSON_parse_trailing_comma : JSON_parse (jsontext "[true,]") = Throw SyntaxError.
Proof. by vm_compute. Qed.

Example processRideRequests_not_a_list :
  processRideRequests (R := Hosted) JNull (mounted empty_store None None)
    = (Throw TypeError, mounted empty_store None None).
Proof. reflexivity. Qed.

Example JSON_stringify_sample_entry :
  JSON_stringify (JArray [toJs sample_entry]) =
    jsontext "[{'id':'1','studentName':'Amy','studentEmail':'amy@x.org','pickupLocation':'Library','destination':'Gym','date':'1/2/2026','time':'9:00','status':'pending','disabilityType':'Not specified'}]".
Proof. by vm_compute. Qed.

Example JSON_stringify_undefined_in_array :
  JSON_stringify (JArray [JUndefined; JString [34; 10]]) = jsontext "[null,'" ++ [92; 34; 92; 110; 34; 93].
Proof. by vm_compute. Qed.

Example load_then_decline :
  map status
    (rideRequests (handleRideAction (js "1") decline (sample_loaded None)).2)
    = [JString (js "declined"); JString (js "declined")] /\
  map db_status
    (table (store (handleRideAction (js "1") decline (sample_loaded None)).2))
    = [js "rejected"; js "rejected"].
Proof. split; evaluated. Qed.

Example confirmation_text :
  description (confirmation decline) = js "Ride request has been declineed.".
Proof. reflexivity. Qed.

Lemma load_shows_remote_rows_witness :
  let w := mounted {| table := [sample_row]; script := [] |} (Some sample_cache) None in
  select_all (store w) =
    (Normal {| data := Some [sample_row]; error := None |},
     {| table := [sample_row]; script := [] |}) /\
  rideRequests (loadRideRequests w).2 = mapped_rows (clock w) (reads w) [sample_row].
Proof.
  intros w. split; [reflexivity |].
  apply (load_shows_remote_rows w
           {| data := Some [sample_row]; error := None |}
           {| table := [sample_row]; script := [] |} [sample_row]);
    [reflexivity | reflexivity | reflexivity | discriminate].
Defined.



Lemma accept_single_pending_witness :
  let w := sample_single (Some sample_driver) in
  rideRequests w = [sample_entry] /\
  calls (handleRideAction (js "1") accept w).2 =
    [CallUpdate {| upd_status := js "accepted";
                   upd_driver_id := Some (js "d-9");
                   upd_updated_at := toISOString 1000%Z |}
                (js "1")].
Proof.
  intros w. split; [reflexivity |].
  destruct (accept_single_pending w sample_entry eq_refl eq_refl eq_refl)
    as (_ & Hdriver & _).
  apply (Hdriver sample_driver); [reflexivity | discriminate].
Defined.

(** C8 as stated fails: with no user in the session the update that
    accept("1") issues carries a null driver_id. *)
Lemma accept_without_user_has_null_driver :
  let w := sample_single None in
  rideRequests w = [sample_entry] /\
  calls (handleRideAction (js "1") accept w).2 =
    [CallUpdate {| upd_status := js "accepted";
                   upd_driver_id := None;
                   upd_updated_at := toISOString 1000%Z |}
                (js "1")].
Proof. intros w. split; evaluated. Qed.





(** C7 as stated fails: the entries of the sample list hold
    additionalNotes: undefined, and the text in the cache reads back
    to entries without that property. *)
Lemma cache_drops_undefined_notes :
  let w := (handleRideAction (js "1") accept (sample_loaded None)).2 in
  exists stored,
    localStorage w !! js "rideRequests" = Some stored /\
    JSON_parse stored <> Normal (JArray (map toJs (rideRequests w))).
Proof.
  intros w. exists (JSON_stringify (JArray (map toJs (rideRequests w)))).
  split.
  { destruct (handleRideAction_run (sample_loaded None) (js "1") accept)
      as (_ & Hr & Hl & _).
    cbv zeta in Hr, Hl. unfold w. by rewrite Hl, Hr, lookup_insert_eq. }
  pose (properties := fun c : Completion JsValue =>
          match c with
          | Normal (JArray (JObject props :: _)) => length props
          | _ => O
          end).
  intros H. apply (f_equal properties) in H.
  assert (H9 : properties
                 (JSON_parse (JSON_stringify (JArray (map toJs (rideRequests w)))))
               = 9%nat) by evaluated.
  assert (H10 : properties (Normal (JArray (map toJs (rideRequests w)))) = 10%nat)
    by evaluated.
  rewrite H9, H10 in H. discriminate H.
Qed.

Lemma cache_reads_back_without_undefined_witness :
  let w := sample_loaded None in
  let w' := (handleRideAction (js "1") accept w).2 in
  Forall storable (rideRequests w) /\
  JSON_parse (JSON_stringify (JArray (map toJs (rideRequests w')))) =
    Normal (JArray (map toJs (map without_undefined_notes (rideRequests w')))).
Proof.
  intros w w'.
  assert (H : Forall storable (rideRequests w)).
  { assert (Hl : rideRequests w = sample_typed) by evaluated.
    rewrite Hl. repeat constructor. }
  split; [exact H |].
  apply (cache_reads_back_without_undefined w (js "1") accept H).
Defined.

Lemma status_stays_in_enumeration_witness :
  let w0 := mounted empty_store (Some sample_cache) None in
  let w := (handleRideAction (js "2") complete (loadRideRequests w0).2).2 in
  reachable w /\ Forall (fun r => valid_status (status r)) (rideRequests w).
Proof.
  intros w0 w.
  assert (H : reachable w).
  { eapply reachable_step; [| apply step_action].
    eapply reachable_step; [| apply step_load].
    by apply reachable_mount. }
  split; [exact H |].
  exact (proj1 status_stays_in_enumeration w H).
Defined.

(** ** The further statements at sample inputs *)

Lemma load_with_empty_cache_witness :
  let w := mounted empty_store None None in
  localStorage w !! js "rideRequests" = None /\
  rideRequests (loadRideRequests w).2 = [] /\
  calls (loadRideRequests w).2 = [CallSelectAll].
Proof.
  intros w.
  assert (Hcache : localStorage w !! js "rideRequests" = None) by reflexivity.
  split; [exact Hcache |].
  destruct (load_with_empty_cache w (Normal {| data := Some []; error := None |})
              empty_store)
    as (Hrun & Hcalls & _).
  - reflexivity.
  - right. right. reflexivity.
  - left. exact Hcache.
  - split; [by rewrite Hrun | exact Hcalls].
Defined.

Lemma action_on_unknown_id_witness :
  let w := sample_single None in
  Forall (fun r => id r <> JString (js "9")) (rideRequests w) /\
  rideRequests (handleRideAction (js "9") decline w).2 = [sample_entry] /\
  toasts (handleRideAction (js "9") decline w).2 = [confirmation decline].
Proof.
  intros w.
  assert (H : Forall (fun r => id r <> JString (js "9")) (rideRequests w)).
  { repeat constructor. intros H. by vm_compute in H. }
  split; [exact H |].
  destruct (action_on_unknown_id w (js "9") decline H) as (Hr & _ & _ & Ht).
  split; [exact Hr | exact Ht].
Defined.

Lemma press_moves_one_entry_witness :
  let w := sample_single None in
  let w' := (handleRideAction (js "1") accept w).2 in
  press w w' /\ NoDup (map id (rideRequests w)) /\
  (exists i r r',
     rideRequests w !! i = Some r /\
     rideRequests w' = <[i := r']> (rideRequests w) /\
     same_but_status r r' /\
     lifecycle (status r) (status r')) /\
  NoDup (map id (rideRequests w')).
Proof.
  intros w w'.
  assert (Hp : press w w').
  { apply (press_button w sample_entry (js "1") accept).
    - apply list_elem_of_here.
    - reflexivity.
    - apply list_elem_of_here. }
  assert (Hnd : NoDup (map id (rideRequests w))).
  { apply NoDup_singleton. }
  split; [exact Hp |]. split; [exact Hnd |].
  exact (press_moves_one_entry w w' Hp Hnd).
Defined.

Lemma presses_only_move_forward_witness :
  let w := sample_single None in
  let w' := (handleRideAction (js "1") decline w).2 in
  rtc press w w' /\
  Forall2
    (fun r r' =>
       same_but_status r r' /\ forward (status r) (status r') /\
       (status r = JString (js "completed") \/ status r = JString (js "declined") ->
        status r' = status r))
    (rideRequests w) (rideRequests w').
Proof.
  intros w w'.
  assert (Hp : rtc press w w').
  { apply rtc_once. apply (press_button w sample_entry (js "1") decline).
    - apply list_elem_of_here.
    - reflexivity.
    - apply list_elem_of_further, list_elem_of_here. }
  split; [exact Hp |].
  apply (presses_only_move_forward w w' Hp). apply NoDup_singleton.
Defined.

Lemma statistics_follow_the_presses_witness :
  let w := sample_single None in
  let w' := (handleRideAction (js "1") accept w).2 in
  press w w' /\
  (completedRides (rideRequests w) <= completedRides (rideRequests w'))%nat /\
  (pendingRequests (rideRequests w') <= pendingRequests (rideRequests w))%nat.
Proof.
  intros w w'.
  assert (Hp : press w w').
  { apply (press_button w sample_entry (js "1") accept).
    - apply list_elem_of_here.
    - reflexivity.
    - apply list_elem_of_here. }
  split; [exact Hp |].
  apply (statistics_follow_the_presses w w' (NoDup_singleton _)).
  by apply rtc_once.
Defined.

Lemma reachable_rows_render_witness :
  let w := sample_loaded None in
  reachable w /\
  Forall
    (fun r =>
       badgeVariant r = variant_destructive <-> status r = JString (js "declined"))
    (rideRequests w).
Proof.
  intros w.
  assert (H : reachable w).
  { eapply reachable_step; [| apply step_load]. by apply reachable_mount. }
  split; [exact H |].
  eapply Forall_impl; [exact (reachable_rows_render w H) |].
  intros r Hr. exact (proj1 (proj2 Hr)).
Defined.

Lemma shown_row_is_backfilled_lossily_witness :
  let w := mounted empty_store None None in
  let request := mapped_row (Date_parse (js "42")) (Date_parse (js "42")) sample_row in
  formatDbRequest sample_row w = (Normal request, w) /\
  exists ins,
    calls (syncRideRequest request w).2 =
      calls w ++ [CallSelectId (JString (js "7")); CallInsert ins] /\
    ins_student_id ins = js "amy" /\
    ins_status ins = JString (js "pending").
Proof.
  intros w request.
  assert (Hfmt : formatDbRequest sample_row w = (Normal request, w)) by reflexivity.
  split; [exact Hfmt |].
  destruct (shown_row_is_backfilled_lossily w w sample_row request w
              {| data := None; error := None |} empty_store Hfmt)
    as (ins & Hc & _ & Hs & _ & _ & _ & _ & _ & _ & _ & Hst).
  - reflexivity.
  - reflexivity.
  - exists ins. split; [exact Hc |]. split; [by rewrite Hs | by apply Hst].
Defined.

Lemma action_survives_reload_witness :
  let w := sample_single None in
  let w1 := (handleRideAction (js "1") decline w).2 in
  Forall storable (rideRequests w) /\
  (loadRideRequests w1).1 = Normal tt /\
  rideRequests (loadRideRequests w1).2 = rideRequests w1.
Proof.
  intros w w1.
  assert (H : Forall storable (rideRequests w)).
  { repeat constructor. }
  split; [exact H |].
  destruct (action_survives_reload w (js "1") decline H) as [Hdone Hsame].
  split; [exact Hdone |].
  apply (Hsame (Normal {| data := Some []; error := None |}) empty_store).
  - reflexivity.
  - right. right. reflexivity.
  - apply Forall_cons. split; [| apply Forall_nil_2].
    unfold settled. split; [by apply Forall_inv in H |].
    repeat split; try reflexivity; try (left; reflexivity); discriminate.
Defined.

Lemma action_then_refresh_from_store_witness :
  let w := mounted {| table := [sample_row]; script := [] |} None None in
  fault_free (store w) /\ table (store w) <> [] /\
  length (rideRequests (loadRideRequests (handleRideAction (js "7") decline w).2).2) = 1%nat.
Proof.
  intros w.
  assert (Hff : fault_free (store w)) by constructor.
  assert (Hne : table (store w) <> []) by discriminate.
  split; [exact Hff |]. split; [exact Hne |].
  exact (proj1 (proj2 (action_then_refresh_from_store w (js "7") decline Hff Hne))).
Defined.

Lemma backfill_ignores_error_results_witness :
  let w := set_store {| table := []; script := [Fails; Fails] |} (sample_single None) in
  let failed := {| data := None; error := Some (js "request failed") |} in
  select_id (id sample_entry) (store w) =
    (Normal failed, {| table := []; script := [Fails] |}) /\
  console
    (syncRideRequest sample_entry w).2 = [].
Proof.
  intros w failed.
  assert (Hsel : select_id (id sample_entry) (store w) =
            (Normal failed, {| table := []; script := [Fails] |})) by reflexivity.
  split; [exact Hsel |].
  destruct (backfill_ignores_error_results w sample_entry [] failed
              {| table := []; script := [Fails] |} (js "amy@x.org")
              {| data := None; error := Some (js "request failed") |}
              {| table := []; script := [] |} Hsel)
    as (Hrun & _ & Hcon).
  - reflexivity.
  - reflexivity.
  - reflexivity.
  - by rewrite Hrun.
Defined.


Lemma backfilled_entries_come_back_poorer_witness :
  let w := mounted empty_store (Some sample_cache) None in
  JSON_parse (cached_text w) = Normal (JArray sample_entries) /\
  Forall2 shown_after_backfill
    (normalized_list (clock w) (reads w) sample_entries)
    (rideRequests (loadRideRequests (loadRideRequests w).2).2).
Proof.
  intros w.
  assert (Hparse : JSON_parse (cached_text w) = Normal (JArray sample_entries))
    by evaluated.
  assert (Htyped : normalized_list (clock w) (reads w) sample_entries = sample_typed)
    by evaluated.
  unfold sample_typed in Htyped.
  split; [exact Hparse |].
  apply (backfilled_entries_come_back_poorer w sample_entries).
  - constructor.
  - reflexivity.
  - exact Hparse.
  - repeat constructor; intros [H | H]; discriminate H.
  - rewrite Htyped. discriminate.
  - rewrite Htyped. unfold insertable, valid_status.
    repeat (apply Forall_cons; split); try apply Forall_nil_2;
      cbn [id studentEmail pickupLocation destination status]; eauto 12.
  - rewrite Htyped. cbn [map id]. apply NoDup_cons. split; [| apply NoDup_singleton].
    intros H. apply list_elem_of_singleton in H. injection H as H.
    by vm_compute in H.
Defined.
